(** * statichash: a static, memory-mappable hash table

    A shallow embedding of [file.go], [table.go] and [memory.go] of
    github.com/philpearl/statichash, with what differs in the older
    package [table], and the properties of the layout calculator, the key
    codec, the linear-probing table, the write/read round trip and the
    opening and closing of a file.

    Conventions of the embedding.
    - Go's [int], [int64] and [uintptr] are 64 bits wide (the tests take
      [unsafe.Sizeof(int(0))] for an 8-byte value); they are integers of
      [Z] and every operation that can leave the 64-bit range is wrapped
      with [wrap64] or [to_uint64].
    - The table works on raw memory through [reflect.SliceHeader]s.  Memory
      is a byte store [mem], addresses are relative to the start of the
      arena (build mode) or of the mapped data (view mode), and a slice is
      its [Data] pointer and its [Len] (the code always sets [Cap] to the
      same value).  Indexing and slicing are bounds-checked against [Len]
      as the Go runtime does; the bytes behind a slice header are read and
      written without any other check, as with [unsafe].
    - Multi-byte values are stored in the byte order of the machine, taken
      to be little-endian.
    - A Go run-time panic is a result [Panic]; nothing is recovered.
    - [aeshash.Hash], [encoding/binary] and [math/bits] are not part of the
      repository: the hash is a parameter, the two library packages are
      embedded from their documented behaviour. *)

From Stdlib Require Import ZArith List Bool Lia String Ascii.
Import ListNotations.
Open Scope Z_scope.

(** ** Results of code that can panic *)

Inductive panic : Type :=
| OutOfSpace          (* panic("out of space!") *)
| IndexOutOfRange     (* runtime error: index or slice bounds out of range *)
| MakeSliceLen        (* runtime error: makeslice: len out of range *)
| NilDereference      (* runtime error: invalid memory address or nil pointer
                         dereference *)
| Diverged.           (* a loop budget of the model ran out; never produced, see
                         [find_never_diverges] and [PutVarint_never_diverges] *)

Inductive res (A : Type) : Type :=
| Ret (a : A)
| Panic (p : panic).

Arguments Ret {A} a.
Arguments Panic {A} p.

Definition bind {A B : Type} (r : res A) (k : A -> res B) : res B :=
  match r with
  | Ret a => k a
  | Panic p => Panic p
  end.

Notation "x <- r ;; k" := (bind r (fun x => k))
  (at level 61, r at next level, right associativity).
Notation "' p <- r ;; k" := (bind r (fun p => k))
  (at level 61, p pattern, r at next level, right associativity).

(** ** Machine integers *)

Definition wrap64 (z : Z) : Z := (z + 2 ^ 63) mod 2 ^ 64 - 2 ^ 63.
Definition to_uint64 (z : Z) : Z := z mod 2 ^ 64.
Definition to_uint32 (z : Z) : Z := z mod 2 ^ 32.
Definition to_byte (z : Z) : Z := z mod 256.

(** [math/bits]: [Len64] is the number of bits needed for [x], and
    [LeadingZeros] is 64 minus that (64 for [x = 0]). *)
Definition Len64 (x : Z) : Z := if x =? 0 then 0 else Z.log2 x + 1.
Definition LeadingZeros (x : Z) : Z := 64 - Len64 x.

(** ** Memory and slices *)

Definition mem := Z -> Z.

Record slice : Type := { Data : Z; Len : Z }.

Definition store8 (m : mem) (a v : Z) : mem :=
  fun x => if x =? a then v else m x.

Fixpoint store_bytes (m : mem) (a : Z) (bs : list Z) : mem :=
  match bs with
  | [] => m
  | b :: bs' => store_bytes (store8 m a b) (a + 1) bs'
  end.

Fixpoint load_bytes_nat (m : mem) (a : Z) (n : nat) : list Z :=
  match n with
  | O => []
  | S n' => m a :: load_bytes_nat m (a + 1) n'
  end.

Definition load_bytes (m : mem) (a n : Z) : list Z :=
  load_bytes_nat m a (Z.to_nat n).

(** The bytes of a file or of a caller's buffer, seen as memory. *)
Definition mem_of_bytes (bs : list Z) : mem :=
  fun a => if a <? 0 then 0 else nth (Z.to_nat a) bs 0.

Fixpoint le_encode (n : nat) (v : Z) : list Z :=
  match n with
  | O => []
  | S n' => v mod 256 :: le_encode n' (v / 256)
  end.

Fixpoint le_decode (bs : list Z) : Z :=
  match bs with
  | [] => 0
  | b :: bs' => b + 256 * le_decode bs'
  end.

Definition load_u32 (m : mem) (a : Z) : Z := le_decode (load_bytes m a 4).
Definition store_u32 (m : mem) (a v : Z) : mem := store_bytes m a (le_encode 4 v).
Definition load_i64 (m : mem) (a : Z) : Z := wrap64 (le_decode (load_bytes m a 8)).
Definition store_i64 (m : mem) (a v : Z) : mem := store_bytes m a (le_encode 8 v).

(** [&s[i]] for a slice of [w]-byte elements: the address of the element,
    after the bounds check. *)
Definition elem_addr (s : slice) (w i : Z) : res Z :=
  if (0 <=? i) && (i <? Len s) then Ret (Data s + w * i) else Panic IndexOutOfRange.

(** [s[lo:]] for a byte slice. *)
Definition slice_from (s : slice) (lo : Z) : res slice :=
  if (0 <=? lo) && (lo <=? Len s)
  then Ret {| Data := Data s + lo; Len := Len s - lo |}
  else Panic IndexOutOfRange.

(** [s[lo:hi]] for a byte slice whose capacity is its length. *)
Definition slice_range (s : slice) (lo hi : Z) : res slice :=
  if (0 <=? lo) && (lo <=? hi) && (hi <=? Len s)
  then Ret {| Data := Data s + lo; Len := hi - lo |}
  else Panic IndexOutOfRange.

(** [copy(dst, src)] where the source bytes are given: it copies
    [min(len(dst), len(src))] bytes and never panics. *)
Definition copy (m : mem) (dst : slice) (src : list Z) : mem :=
  store_bytes m (Data dst) (firstn (Z.to_nat (Len dst)) src).

(** ** file.go: the layout calculator *)

Module Layout.

Definition sizeof_header : Z := 16.
Definition sizeof_hash : Z := 4.
Definition sizeof_keyOffset : Z := 8.
Definition alignof_keyOffset : Z := 8.
Definition sizeof_stringLength : Z := 4.

Definition roundUp (length align : Z) : Z :=
  let v := wrap64 align - 1 in
  Z.land (wrap64 (length + v)) (Z.lnot v).

Record offsets_t : Type := {
  o_hashes : Z; o_keys : Z; o_values : Z; o_keyData : Z; o_length : Z
}.

Definition offsets (numItems valueSize totalKeyLength : Z) : offsets_t :=
  let hashes := sizeof_header in
  let keys := roundUp (wrap64 (hashes + wrap64 (sizeof_hash * numItems))) alignof_keyOffset in
  let values := wrap64 (keys + wrap64 (sizeof_keyOffset * numItems)) in
  let keyData := wrap64 (values + wrap64 (valueSize * numItems)) in
  let length := wrap64 (wrap64 (keyData + totalKeyLength)
                        + wrap64 (sizeof_stringLength * numItems)) in
  {| o_hashes := hashes; o_keys := keys; o_values := values;
     o_keyData := keyData; o_length := length |}.

End Layout.

(** ** encoding/binary: variable-length integers *)

Definition MaxVarintLen64 : nat := 10.

(** [PutUvarint]: seven bits a byte, least significant group first, the
    high bit set on every byte but the last.  Every store is bounds-checked. *)
Fixpoint PutUvarint_loop (fuel : nat) (m : mem) (buf : slice) (x i : Z)
  : res (Z * mem) :=
  match fuel with
  | O => Panic Diverged
  | S fuel' =>
      if 128 <=? x then
        a <- elem_addr buf 1 i ;;
        PutUvarint_loop fuel' (store8 m a (Z.lor (to_byte x) 128)) buf
                        (Z.shiftr x 7) (i + 1)
      else
        a <- elem_addr buf 1 i ;;
        Ret (i + 1, store8 m a (to_byte x))
  end.

Definition PutUvarint (m : mem) (buf : slice) (x : Z) : res (Z * mem) :=
  PutUvarint_loop MaxVarintLen64 m buf x 0.

(** [PutVarint]: zig-zag, then [PutUvarint]. *)
Definition PutVarint (m : mem) (buf : slice) (x : Z) : res (Z * mem) :=
  let ux := to_uint64 (Z.shiftl (to_uint64 x) 1) in
  let ux := if x <? 0 then to_uint64 (Z.lnot ux) else ux in
  PutUvarint m buf ux.

Record byteReader : Type := { buf : slice; offset : Z }.

Definition ReadByte (m : mem) (br : byteReader) : res (Z * byteReader) :=
  a <- elem_addr (buf br) 1 (offset br) ;;
  Ret (m a, {| buf := buf br; offset := offset br + 1 |}).

Definition new_reader (b : slice) : byteReader := {| buf := b; offset := 0 |}.
Definition reader_offset (br : byteReader) : Z := offset br.

(** [ReadUvarint]: at most [MaxVarintLen64] bytes are read; [n] counts the
    iterations that remain.  The error result is dropped, as [getKey] drops
    it; the value returned next to an overflow error is [x]. *)
Fixpoint ReadUvarint_loop (n : nat) (m : mem) (br : byteReader) (x s : Z)
  : res (Z * byteReader) :=
  match n with
  | O => Ret (x, br)
  | S n' =>
      ' (b, br') <- ReadByte m br ;;
      if b <? 128 then
        if Nat.eqb n' 0 && (1 <? b) then Ret (x, br')
        else Ret (Z.lor x (to_uint64 (Z.shiftl b s)), br')
      else
        ReadUvarint_loop n' m br'
          (Z.lor x (to_uint64 (Z.shiftl (Z.land b 127) s))) (s + 7)
  end.

Definition ReadUvarint (m : mem) (br : byteReader) : res (Z * byteReader) :=
  ReadUvarint_loop MaxVarintLen64 m br 0 0.

Definition ReadVarint (m : mem) (br : byteReader) : res (Z * byteReader) :=
  ' (ux, br') <- ReadUvarint m br ;;
  let x := wrap64 (Z.shiftr ux 1) in
  Ret (if Z.land ux 1 =? 0 then x else Z.lnot x, br').

(** ** Strings as bytes *)

Definition bytes_of_string (s : string) : list Z :=
  map (fun c => Z.of_nat (nat_of_ascii c)) (list_ascii_of_string s).

Definition string_of_bytes (bs : list Z) : string :=
  string_of_list_ascii (map (fun b => ascii_of_nat (Z.to_nat b)) bs).

(** ** table.go *)

Record table : Type := {
  valueSize : Z;
  numItems : Z;
  arena : slice;          (* []int64: [Len] counts 8-byte elements *)
  hashes : slice;         (* []hash, 4-byte elements *)
  keys : slice;           (* []keyOffset, 8-byte elements *)
  values : slice;         (* []byte *)
  keyData : slice;        (* []byte *)
  keyOffset : Z;
  length : Z;
  memory : mem
}.

Definition with_memory (t : table) (m : mem) : table :=
  {| valueSize := valueSize t; numItems := numItems t; arena := arena t;
     hashes := hashes t; keys := keys t; values := values t;
     keyData := keyData t; keyOffset := keyOffset t; length := length t;
     memory := m |}.

Definition with_keyOffset (t : table) (o : Z) : table :=
  {| valueSize := valueSize t; numItems := numItems t; arena := arena t;
     hashes := hashes t; keys := keys t; values := values t;
     keyData := keyData t; keyOffset := o; length := length t;
     memory := memory t |}.

(** A view opened on a file.  The [data] pointer of the source is address 0
    of the view's memory. *)
Record Read : Type := { tbl : table; dataLength : Z }.

(** The largest allocation the runtime accepts (linux/amd64). *)
Definition maxAlloc : Z := 2 ^ 48.

(** [make([]int64, n)]: [n] zeroed elements at address 0; the rest of the
    heap keeps what it held. *)
Definition make_int64 (heap : mem) (n : Z) : res (slice * mem) :=
  if (n <? 0) || (maxAlloc <? 8 * n) then Panic MakeSliceLen
  else Ret ({| Data := 0; Len := n |},
            fun a => if (0 <=? a) && (a <? 8 * n) then 0 else heap a).

(** The first statement of [New]:
    [1 << uint(int(unsafe.Sizeof(numItems))*8 - bits.LeadingZeros(uint(numItems-1)))]. *)
Definition New_numItems (numItems : Z) : Z :=
  wrap64 (Z.shiftl 1 (to_uint64 (8 * 8 - LeadingZeros (to_uint64 (numItems - 1))))).

Definition New (numItems valueSize totalKeyLength : Z) (heap : mem) : res table :=
  let numItems := New_numItems numItems in
  let o := Layout.offsets numItems valueSize totalKeyLength in
  let length := Layout.o_length o in
  ' (arena, m) <- make_int64 heap (wrap64 (Z.quot (wrap64 (length + 1)) 8 - 1)) ;;
  let dataStart := Data arena in
  Ret {| valueSize := valueSize;
         numItems := numItems;
         arena := arena;
         hashes := {| Data := dataStart + Layout.o_hashes o; Len := numItems |};
         keys := {| Data := dataStart + Layout.o_keys o; Len := numItems |};
         values := {| Data := dataStart + Layout.o_values o;
                      Len := wrap64 (numItems * valueSize) |};
         keyData := {| Data := dataStart + Layout.o_keyData o;
                       Len := wrap64 (length - Layout.o_keyData o) |};
         keyOffset := 0;
         length := length;
         memory := m |}.

Definition newFromData (data : mem) (length : Z) : Read :=
  let h_numItems := load_i64 data 0 in
  let h_valueSize := load_i64 data 8 in
  let o := Layout.offsets h_numItems h_valueSize 0 in
  let dataStart := 0 + Layout.sizeof_header in
  {| tbl := {| valueSize := h_valueSize;
               numItems := h_numItems;
               arena := {| Data := 0; Len := 0 |};
               hashes := {| Data := dataStart + Layout.o_hashes o; Len := h_numItems |};
               keys := {| Data := dataStart + Layout.o_keys o; Len := h_numItems |};
               values := {| Data := dataStart + Layout.o_values o;
                            Len := wrap64 (h_numItems * h_valueSize) |};
               keyData := {| Data := dataStart + Layout.o_keyData o;
                             Len := wrap64 (length - Layout.o_keyData o) |};
               keyOffset := 0;
               length := 0;
               memory := data |};
     dataLength := length |}.

Definition NewFromBytes (data : list Z) : Read :=
  newFromData (mem_of_bytes data) (Z.of_nat (List.length data)).

Definition Cap (t : table) : Z := Len (hashes t).

(** [WriteTo], on a writer that appends to [f] and does not fail: the
    16 bytes of the header, then [length] bytes from the start of the arena. *)
Definition WriteTo (t : table) (f : list Z) : Z * list Z :=
  let h := le_encode 8 (numItems t) ++ le_encode 8 (valueSize t) in
  let l1 := Z.of_nat (List.length h) in
  let f := f ++ h in
  let data := load_bytes (memory t) (Data (arena t)) (length t) in
  let l2 := Z.of_nat (List.length data) in
  (wrap64 (l1 + l2), f ++ data).

Definition getKey (t : table) (offset : Z) : res string :=
  b <- slice_from (keyData t) offset ;;
  ' (len, br) <- ReadVarint (memory t) (new_reader b) ;;
  let lo := wrap64 (reader_offset br + offset) in
  data <- slice_range (keyData t) lo (wrap64 (lo + len)) ;;
  Ret (string_of_bytes (load_bytes (memory t) (Data data) (Len data))).

Definition addKey (t : table) (key : string) : res (Z * table) :=
  let start := keyOffset t in
  b <- slice_from (keyData t) (keyOffset t) ;;
  ' (n, m) <- PutVarint (memory t) b (Z.of_nat (String.length key)) ;;
  let t := with_keyOffset (with_memory t m) (wrap64 (keyOffset t + n)) in
  b <- slice_from (keyData t) (keyOffset t) ;;
  let t := with_memory t (copy (memory t) b (bytes_of_string key)) in
  let t := with_keyOffset t (wrap64 (keyOffset t + Z.of_nat (String.length key))) in
  Ret (start, t).

(** The probe loop of [find].  [fuel] bounds the iterations of the model;
    [find_budget] is what [find] passes: the loop ends within as many
    iterations as the table has slots, so the budget is never used up. *)
Fixpoint find_loop (fuel : nat) (t : table) (key : string) (hashVal l start cursor : Z)
  : res (Z * bool) :=
  match fuel with
  | O => Panic Diverged
  | S fuel' =>
      a <- elem_addr (hashes t) 4 cursor ;;
      let hc := load_u32 (memory t) a in
      if hc =? 0 then Ret (cursor, false)
      else
        matched <- (if hc =? hashVal then
                      ka <- elem_addr (keys t) 8 cursor ;;
                      k <- getKey t (load_i64 (memory t) ka) ;;
                      Ret (String.eqb k key)
                    else Ret false) ;;
        if (matched : bool) then Ret (cursor, true)
        else
          let cursor := cursor + 1 in
          let cursor := if cursor =? l then 0 else cursor in
          if cursor =? start then Panic OutOfSpace
          else find_loop fuel' t key hashVal l start cursor
  end.

Definition find_budget (t : table) : nat :=
  S (Z.to_nat (Z.max (numItems t) (Len (hashes t)))).

Definition find (t : table) (key : string) (hashVal : Z) : res (Z * bool) :=
  let l := numItems t in
  let cursor := Z.land hashVal (l - 1) in
  find_loop (find_budget t) t key hashVal l cursor cursor.

Section WithHash.

(** [aeshash.Hash]: a function from strings to 32-bit values, outside the
    repository. *)
Variable aeshash_Hash : string -> Z.

(** The conversion [hash(...)] to the [uint32] type of the table. *)
Definition hash (x : Z) : Z := to_uint32 x.

Definition Set_ (t : table) (key : string) (val : list Z) : res table :=
  let h := hash (aeshash_Hash key) in
  ' (index, found) <- find t key h ;;
  t <- (if (found : bool) then Ret t
        else
          a <- elem_addr (hashes t) 4 index ;;
          let t := with_memory t (store_u32 (memory t) a h) in
          ' (ko, t) <- addKey t key ;;
          a <- elem_addr (keys t) 8 index ;;
          Ret (with_memory t (store_i64 (memory t) a ko))) ;;
  dst <- slice_from (values t) (wrap64 (index * valueSize t)) ;;
  Ret (with_memory t (copy (memory t) dst
                           (load_bytes (mem_of_bytes val) 0 (valueSize t)))).

(** [GetPtr] has a pointer receiver: [None] is the nil table.  The pointer
    returned is the address of the first value byte. *)
Definition GetPtr (t : option table) (key : string) : res (option Z * bool) :=
  match t with
  | None => Ret (None, false)
  | Some t =>
      let h := hash (aeshash_Hash key) in
      ' (index, found) <- find t key h ;;
      if (found : bool) then
        a <- elem_addr (values t) 1 (wrap64 (index * valueSize t)) ;;
        Ret (Some a, true)
      else Ret (None, false)
  end.

(** A run of [Set_] calls, in order. *)
Fixpoint SetAll (t : table) (kvs : list (string * list Z)) : res table :=
  match kvs with
  | [] => Ret t
  | (k, v) :: kvs' => t' <- Set_ t k v ;; SetAll t' kvs'
  end.

End WithHash.

(** Two stand-ins for the external hash, used in the examples: the
    polynomial string hash of Java's [String.hashCode] (it maps the empty
    string to 0), and 32-bit FNV-1a. *)
Definition polyHash (s : string) : Z :=
  fold_left (fun h b => (31 * h + b) mod 2 ^ 32) (bytes_of_string s) 0.

Definition fnv1a (s : string) : Z :=
  fold_left (fun h b => (Z.lxor h b * 16777619) mod 2 ^ 32) (bytes_of_string s) 2166136261.


(** ** memory.go, and the file functions of table.go *)

(** The calls to the operating system, with the arguments the code passes.
    [os.Open], [File.Seek] and [File.Fd] belong to the Go library; a file
    is identified with its descriptor.  A call returns a value and an error
    number, 0 for no error. *)
Inductive call : Type :=
| os_Open (name : string)
| File_Seek (f offset whence : Z)
| SYS_MMAP (addr size prot flags fd off : Z)
| SYS_MLOCK (data size : Z)
| SYS_MUNMAP (data length : Z).

Definition io_SeekEnd : Z := 2.
Definition PROT_READ : Z := 1.
Definition MAP_FILE : Z := 0.
Definition MAP_PRIVATE : Z := 2.

(** A [Read] with its [data] pointer.  The memory of the view is addressed
    from that pointer, so [Read] itself does without it; [Close] tests
    it. *)
Record Read_at : Type := { read : Read; data : Z }.

(** [NewFromBytes] for a byte slice that lies at address [ptr]. *)
Definition NewFromBytes_at (ptr : Z) (bytes : list Z) : Read_at :=
  {| read := NewFromBytes bytes; data := ptr |}.

(** ** The exported types

    [Write] and [Read] embed [table] by value, and users of the package
    hold pointers to them: [New] returns a [*Write], [NewFrom] and
    [NewFromBytes] a [*Read]; the type [table] is not exported.  [GetPtr]
    is declared on [*table], so [w.GetPtr(key)] on a [w] of type [*Write] is
    [(&w.table).GetPtr(key)]: the embedded field is reached through the
    pointer first, which panics when the pointer is nil. *)
Record Write : Type := { Write_table : table }.

(** [&w.table] for [w] of type [*Write], and [&r.table] for [r] of type
    [*Read]; [None] is the nil pointer. *)
Definition Write_table_addr (w : option Write) : res (option table) :=
  match w with
  | None => Panic NilDereference
  | Some w => Ret (Some (Write_table w))
  end.

Definition Read_table_addr (r : option Read_at) : res (option table) :=
  match r with
  | None => Panic NilDereference
  | Some r => Ret (Some (tbl (read r)))
  end.

Section Exported.

Variable aeshash_Hash : string -> Z.

(** [GetPtr] as the method sets of [*Write] and [*Read] have it. *)
Definition Write_GetPtr (w : option Write) (key : string) : res (option Z * bool) :=
  t <- Write_table_addr w ;; GetPtr aeshash_Hash t key.

Definition Read_GetPtr (r : option Read_at) (key : string) : res (option Z * bool) :=
  t <- Read_table_addr r ;; GetPtr aeshash_Hash t key.

End Exported.

Section System.

(** The operating system: what a call returns after the calls made so far,
    and the byte the process then sees at an address.  The calls made are
    threaded through the functions, in order. *)
Variable kernel : list call -> call -> Z * Z.
Variable peek : list call -> Z -> Z.

Definition sys (past : list call) (c : call) : (Z * Z) * list call :=
  (kernel past c, past ++ [c]).

Definition mapMemory (past : list call) (fd size : Z) : (Z * option Z) * list call :=
  let '((data, errno), past) :=
    sys past (SYS_MMAP 0 size PROT_READ (Z.lor MAP_FILE MAP_PRIVATE) fd 0) in
  if negb (errno =? 0) then ((0, Some errno), past)
  else
    let '((_, errno), past) := sys past (SYS_MLOCK data size) in
    if negb (errno =? 0) then ((0, Some errno), past)
    else ((data, None), past).

Definition unmap (past : list call) (data length : Z) : option Z * list call :=
  let '((_, errno), past) := sys past (SYS_MUNMAP data length) in
  if negb (errno =? 0) then (Some errno, past) else (None, past).

Definition NewFrom (past : list call) (filename : string)
  : (option Read_at * option Z) * list call :=
  let '((f, err), past) := sys past (os_Open filename) in
  if negb (err =? 0) then ((None, Some err), past)
  else
    let '((fileLength, err), past) := sys past (File_Seek f 0 io_SeekEnd) in
    if negb (err =? 0) then ((None, Some err), past)
    else
      let '((data, err), past) := mapMemory past f (to_uint64 fileLength) in
      match err with
      | Some e => ((None, Some e), past)
      | None =>
          ((Some {| read := newFromData (fun a => peek past (data + a))
                                        (to_uint64 fileLength);
                    data := data |}, None), past)
      end.

Definition Close (past : list call) (r : Read_at) : (Read_at * option Z) * list call :=
  if negb (data r =? 0) && negb (dataLength (read r) =? 0) then
    let '(err, past) := unmap past (data r) (dataLength (read r)) in
    match err with
    | Some e => ((r, Some e), past)
    | None => (({| read := {| tbl := tbl (read r); dataLength := 0 |}; data := 0 |},
                None), past)
    end
  else ((r, None), past).

End System.

(** ** table/table.go: the package [table]

    An older copy of the table lives in the package [table].  It differs
    from the one above in three places: [New] does not set [length], [Set]
    prints a line, and [WriteTo] takes the address of the slice header of
    the arena, not of its data. *)
Module TablePkg.

Definition New (numItems valueSize totalKeyLength : Z) (heap : mem) : res table :=
  let numItems := New_numItems numItems in
  let o := Layout.offsets numItems valueSize totalKeyLength in
  let length := Layout.o_length o in
  ' (arena, m) <- make_int64 heap (wrap64 (Z.quot (wrap64 (length + 1)) 8 - 1)) ;;
  let dataStart := Data arena in
  Ret {| valueSize := valueSize;
         numItems := numItems;
         arena := arena;
         hashes := {| Data := dataStart + Layout.o_hashes o; Len := numItems |};
         keys := {| Data := dataStart + Layout.o_keys o; Len := numItems |};
         values := {| Data := dataStart + Layout.o_values o;
                      Len := wrap64 (numItems * valueSize) |};
         keyData := {| Data := dataStart + Layout.o_keyData o;
                       Len := wrap64 (length - Layout.o_keyData o) |};
         keyOffset := 0;
         length := 0;
         memory := m |}.

(** [self] is the address of the field [arena] of the table. *)
Definition WriteTo (self : Z) (t : table) (f : list Z) : Z * list Z :=
  let h := le_encode 8 (numItems t) ++ le_encode 8 (valueSize t) in
  let l1 := Z.of_nat (List.length h) in
  let f := f ++ h in
  let data := load_bytes (memory t) self (length t) in
  let l2 := Z.of_nat (List.length data) in
  (wrap64 (l1 + l2), f ++ data).

Section WithHash.

Variable aeshash_Hash : string -> Z.

(** [Set], with the lines it prints: [len(t.values)], [index] and
    [t.valueSize]. *)
Definition Set_ (t : table) (out : list (Z * Z * Z)) (key : string) (val : list Z)
  : res (table * list (Z * Z * Z)) :=
  let h := hash (aeshash_Hash key) in
  ' (index, found) <- find t key h ;;
  t <- (if (found : bool) then Ret t
        else
          a <- elem_addr (hashes t) 4 index ;;
          let t := with_memory t (store_u32 (memory t) a h) in
          ' (ko, t) <- addKey t key ;;
          a <- elem_addr (keys t) 8 index ;;
          Ret (with_memory t (store_i64 (memory t) a ko))) ;;
  let out := out ++ [(Len (values t), index, valueSize t)] in
  dst <- slice_from (values t) (wrap64 (index * valueSize t)) ;;
  Ret (with_memory t (copy (memory t) dst
                           (load_bytes (mem_of_bytes val) 0 (valueSize t))), out).

Fixpoint SetAll (t : table) (out : list (Z * Z * Z)) (kvs : list (string * list Z))
  : res (table * list (Z * Z * Z)) :=
  match kvs with
  | [] => Ret (t, out)
  | (k, v) :: kvs' => ' (t', out') <- Set_ t out k v ;; SetAll t' out' kvs'
  end.

End WithHash.

End TablePkg.

(** ** Definitions used in the statements *)

(** The bytes [PutUvarint] writes for [x]. *)
Fixpoint uvarint_bytes (fuel : nat) (x : Z) : list Z :=
  match fuel with
  | O => []
  | S fuel' =>
      if 128 <=? x then Z.lor (to_byte x) 128 :: uvarint_bytes fuel' (Z.shiftr x 7)
      else [to_byte x]
  end.

(** The record [addKey] writes for a key: the zig-zag varint of its length,
    then its bytes. *)
Definition key_record (key : string) : list Z :=
  uvarint_bytes MaxVarintLen64 (2 * Z.of_nat (String.length key)) ++ bytes_of_string key.

(** The key record for [key] lies at offset [off] of the key-data slice. *)
Definition valid_record (m : mem) (kd : slice) (off : Z) (key : string) : Prop :=
  0 <= off /\
  off + Z.of_nat (List.length (key_record key)) <= Len kd /\
  load_bytes m (Data kd + off) (Z.of_nat (List.length (key_record key))) = key_record key.

(** The contents of slot [i]: [t.hashes[i]] and [t.keys[i]]. *)
Definition hashAt (t : table) (i : Z) : Z := load_u32 (memory t) (Data (hashes t) + 4 * i).
Definition keyOffAt (t : table) (i : Z) : Z := load_i64 (memory t) (Data (keys t) + 8 * i).

(** Slot [i] is occupied and its key record is that of [key]. *)
Definition slot_holds (t : table) (i : Z) (key : string) : Prop :=
  hashAt t i <> 0 /\ valid_record (memory t) (keyData t) (keyOffAt t i) key.

(** The address and the bytes of the value of slot [i]. *)
Definition value_addr (t : table) (i : Z) : Z := Data (values t) + i * valueSize t.
Definition value_bytes (t : table) (p : Z) : list Z := load_bytes (memory t) p (valueSize t).

(** Well-formed table: invariants 1 and 2 of the data model.  The slices
    have [numItems] slots and every occupied slot points to a key record
    inside the key-data slice. *)
Record WF (t : table) : Prop := {
  wf_numItems : 1 <= numItems t;
  wf_hashes : Len (hashes t) = numItems t;
  wf_keys : Len (keys t) = numItems t;
  wf_keyData : Len (keyData t) < 2 ^ 62;
  wf_slots : forall i, 0 <= i < numItems t -> hashAt t i <> 0 ->
                       exists key, valid_record (memory t) (keyData t) (keyOffAt t i) key
}.

(** The probe order: the slot after [c], and the number of steps from
    [start] to [c]. *)
Definition next_slot (l c : Z) : Z := if c + 1 =? l then 0 else c + 1.
Definition rank (l start c : Z) : Z := if start <=? c then c - start else c - start + l.

(** Two tables that agree on the occupied slots of the first. *)
Definition agree_on_occupied (t t' : table) : Prop :=
  hashes t' = hashes t /\ keys t' = keys t /\
  forall c, 0 <= c < Len (hashes t) -> hashAt t c <> 0 ->
            hashAt t' c = hashAt t c /\
            getKey t' (keyOffAt t' c) = getKey t (keyOffAt t c).

(** The key stored at [j] matches the probe for [key] with hash [h]. *)
Definition matches (t : table) (key : string) (h j : Z) : Prop :=
  hashAt t j = h /\ valid_record (memory t) (keyData t) (keyOffAt t j) key.

(** What the probe loop returns, on a well-formed table: a slot that
    matches, an empty slot, or the out-of-space panic; in each case every
    slot passed on the way is occupied by another key. *)
Definition find_post (t : table) (key : string) (h l s c : Z) (r : res (Z * bool)) : Prop :=
  match r with
  | Ret (i, true) =>
      0 <= i < l /\ rank l s c <= rank l s i /\ hashAt t i <> 0 /\ matches t key h i /\
      forall j, 0 <= j < l -> rank l s c <= rank l s j < rank l s i ->
                hashAt t j <> 0 /\ ~ matches t key h j
  | Ret (i, false) =>
      0 <= i < l /\ rank l s c <= rank l s i /\ hashAt t i = 0 /\
      forall j, 0 <= j < l -> rank l s c <= rank l s j < rank l s i ->
                hashAt t j <> 0 /\ ~ matches t key h j
  | Panic p =>
      p = OutOfSpace /\
      forall j, 0 <= j < l -> rank l s c <= rank l s j ->
                hashAt t j <> 0 /\ ~ matches t key h j
  end.

(** The [valueSize] bytes behind the value pointer passed to [Set_]. *)
Definition val_bytes (val : list Z) (valueSize : Z) : list Z :=
  load_bytes (mem_of_bytes val) 0 valueSize.

(** Two tables with the same slice headers and sizes. *)
Definition same_shape (t t' : table) : Prop :=
  valueSize t' = valueSize t /\ numItems t' = numItems t /\ arena t' = arena t /\
  hashes t' = hashes t /\ keys t' = keys t /\ values t' = values t /\
  keyData t' = keyData t /\ length t' = length t.

Section Invariant.

Variable aeshash_Hash : string -> Z.

(** The invariant of a table under construction: the sections lie one
    after the other, the write cursor is inside the key-data slice, and
    every occupied slot holds the record of a key that [find] reaches. *)
Record Inv (t : table) : Prop := {
  inv_numItems : 1 <= numItems t;
  inv_valueSize : 0 <= valueSize t;
  inv_hashes : Len (hashes t) = numItems t;
  inv_keys : Len (keys t) = numItems t;
  inv_values : Len (values t) = numItems t * valueSize t;
  inv_hashes_pos : 0 <= Data (hashes t);
  inv_hk : Data (hashes t) + 4 * numItems t <= Data (keys t);
  inv_kv : Data (keys t) + 8 * numItems t <= Data (values t);
  inv_vd : Data (values t) + Len (values t) <= Data (keyData t);
  inv_small : Data (keyData t) + Len (keyData t) < 2 ^ 62;
  inv_keyOffset : 0 <= keyOffset t <= Len (keyData t);
  inv_slots : forall i, 0 <= i < numItems t -> hashAt t i <> 0 ->
      exists key,
        hashAt t i = hash (aeshash_Hash key) /\
        valid_record (memory t) (keyData t) (keyOffAt t i) key /\
        keyOffAt t i + Z.of_nat (List.length (key_record key)) <= keyOffset t /\
        find t key (hash (aeshash_Hash key)) = Ret (i, true)
}.

End Invariant.

(** A change of memory that leaves alone every slot of the hashes and keys
    sections but [j], and the key data below the write cursor. *)
Definition frame_but (t : table) (j : Z) (m' : mem) : Prop :=
  (forall c x, 0 <= c < numItems t -> c <> j ->
               Data (hashes t) + 4 * c <= x < Data (hashes t) + 4 * c + 4 ->
               m' x = memory t x) /\
  (forall c x, 0 <= c < numItems t -> c <> j ->
               Data (keys t) + 8 * c <= x < Data (keys t) + 8 * c + 8 ->
               m' x = memory t x) /\
  (forall x, Data (keyData t) <= x < Data (keyData t) + keyOffset t -> m' x = memory t x).


(** Size parameters [New] can serve: the rounded item count stays inside an
    [int] and the arena inside an allocation. *)
Definition sized (n vs tkl : Z) : Prop :=
  1 <= n <= 2 ^ 62 /\ 0 <= vs /\ 0 <= tkl /\
  24 + (16 + vs) * New_numItems n + tkl <= maxAlloc.

(** The map a run of [Set_] calls describes: the last value set for a key. *)
Definition update (f : string -> option (list Z)) (k : string) (v : list Z)
  : string -> option (list Z) :=
  fun k' => if String.eqb k' k then Some v else f k'.

Definition model_of (kvs : list (string * list Z)) : string -> option (list Z) :=
  fold_left (fun f kv => update f (fst kv) (snd kv)) kvs (fun _ => None).

(** The total length of the keys, and of their records. *)
Definition total_key_length (kvs : list (string * list Z)) : Z :=
  fold_right (fun kv acc => Z.of_nat (String.length (fst kv)) + acc) 0 kvs.

Definition total_record_length (kvs : list (string * list Z)) : Z :=
  fold_right (fun kv acc => Z.of_nat (List.length (key_record (fst kv))) + acc) 0 kvs.

(** The slots of a table, and those that are empty. *)
Definition slots (t : table) : list Z := map Z.of_nat (seq 0 (Z.to_nat (numItems t))).
Definition empty_slots (t : table) : list Z := filter (fun i => hashAt t i =? 0) (slots t).

Section Built.

Variable aeshash_Hash : string -> Z.

(** The state of a builder after the calls [done]. *)
Record Built (t : table) (done : list (string * list Z)) : Prop := {
  built_inv : Inv aeshash_Hash t;
  built_get : forall key v,
      model_of done key = Some v -> hash (aeshash_Hash key) <> 0 ->
      exists i, find t key (hash (aeshash_Hash key)) = Ret (i, true) /\
                value_bytes t (value_addr t i) = val_bytes v (valueSize t);
  built_only : forall i, 0 <= i < numItems t -> hashAt t i <> 0 ->
      exists key, find t key (hash (aeshash_Hash key)) = Ret (i, true) /\
                  model_of done key <> None;
  built_empty : numItems t - Z.of_nat (List.length done)
                <= Z.of_nat (List.length (empty_slots t));
  built_keyOffset : keyOffset t <= total_record_length done
}.

End Built.

(** The slices of a builder are where the layout calculator puts them,
    counted from the start of the arena, and the arena ends with the
    key-data slice. *)
Definition laid_out (t : table) : Prop :=
  let o := Layout.offsets (numItems t) (valueSize t) 0 in
  Data (arena t) = 0 /\
  Data (hashes t) = Layout.o_hashes o /\
  Data (keys t) = Layout.o_keys o /\
  Data (values t) = Layout.o_values o /\
  Data (keyData t) = Layout.o_keyData o /\
  Data (keyData t) + Len (keyData t) = length t.

(** The header of a file, and the place of a byte of the arena in it. *)
Definition header_bytes (t : table) : list Z :=
  le_encode 8 (numItems t) ++ le_encode 8 (valueSize t).

Section Build.

Variable aeshash_Hash : string -> Z.

(** A builder: [New], then the calls of [Set_] in order. *)
Definition build (n vs tkl : Z) (heap : mem) (kvs : list (string * list Z)) : res table :=
  t <- New n vs tkl heap ;; SetAll aeshash_Hash t kvs.

End Build.

(** Adequate size parameters for a run of calls: the sizes fit, values are
    at least one byte and [valueSize] bytes long, there are no more calls
    than the requested item count, the keys are no longer in total than the
    declared total key length, and each is shorter than [2^27] bytes, so
    that its length prefix fits the four bytes budgeted for it. *)
Definition adequate (n vs tkl : Z) (kvs : list (string * list Z)) : Prop :=
  sized n vs tkl /\ 1 <= vs /\
  Z.of_nat (List.length kvs) <= n /\
  total_key_length kvs <= tkl /\
  Forall (fun kv => Z.of_nat (String.length (fst kv)) < 2 ^ 27) kvs /\
  Forall (fun kv => Z.of_nat (List.length (snd kv)) = vs) kvs.

(** ** Checks that compute *)

Fixpoint bytes_eqb (a b : list Z) : bool :=
  match a, b with
  | [], [] => true
  | x :: a', y :: b' => (x =? y) && bytes_eqb a' b'
  | _, _ => false
  end.

Definition valid_recordb (m : mem) (kd : slice) (off : Z) (key : string) : bool :=
  (0 <=? off)
  && (off + Z.of_nat (List.length (key_record key)) <=? Len kd)
  && bytes_eqb (load_bytes m (Data kd + off) (Z.of_nat (List.length (key_record key))))
               (key_record key).

Definition found_at (r : res (Z * bool)) (i : Z) : bool :=
  match r with
  | Ret (j, true) => j =? i
  | _ => false
  end.

Definition wf_slot_check (t : table) (i : Z) : bool :=
  (hashAt t i =? 0)
  || match getKey t (keyOffAt t i) with
     | Ret k => valid_recordb (memory t) (keyData t) (keyOffAt t i) k
     | Panic _ => false
     end.

(** [WF], as a check. *)
Definition wf_check (t : table) : bool :=
  (1 <=? numItems t) && (Len (hashes t) =? numItems t) && (Len (keys t) =? numItems t)
  && (Len (keyData t) <? 2 ^ 62) && forallb (wf_slot_check t) (slots t).

(** No slot of [t] holds [key], as a check. *)
Definition absent_check (t : table) (key : string) : bool :=
  forallb (fun i => (hashAt t i =? 0)
                    || match getKey t (keyOffAt t i) with
                       | Ret k => negb (String.eqb k key)
                       | Panic _ => false
                       end) (slots t).

Section Checks.

Variable aeshash_Hash : string -> Z.

Definition inv_slot_check (t : table) (i : Z) : bool :=
  (hashAt t i =? 0)
  || match getKey t (keyOffAt t i) with
     | Ret k =>
         (hashAt t i =? hash (aeshash_Hash k))
         && valid_recordb (memory t) (keyData t) (keyOffAt t i) k
         && (keyOffAt t i + Z.of_nat (List.length (key_record k)) <=? keyOffset t)
         && found_at (find t k (hash (aeshash_Hash k))) i
     | Panic _ => false
     end.

(** [Inv], as a check. *)
Definition inv_check (t : table) : bool :=
  (1 <=? numItems t) && (0 <=? valueSize t)
  && (Len (hashes t) =? numItems t) && (Len (keys t) =? numItems t)
  && (Len (values t) =? numItems t * valueSize t)
  && (0 <=? Data (hashes t))
  && (Data (hashes t) + 4 * numItems t <=? Data (keys t))
  && (Data (keys t) + 8 * numItems t <=? Data (values t))
  && (Data (values t) + Len (values t) <=? Data (keyData t))
  && (Data (keyData t) + Len (keyData t) <? 2 ^ 62)
  && (0 <=? keyOffset t) && (keyOffset t <=? Len (keyData t))
  && forallb (inv_slot_check t) (slots t).

End Checks.

(** ** Example data *)

(** A heap that holds stale bytes. *)
Definition stale_heap : mem := fun _ => 170.

(** An [int] value as the 8 bytes behind its pointer. *)
Definition int_bytes (v : Z) : list Z := le_encode 8 v.

(** The table of [TestBasics] and [TestWriteRead]. *)
Definition tests : list (string * list Z) :=
  [("aaa"%string, int_bytes 7); ("aab"%string, int_bytes 6); ("aac"%string, int_bytes 5);
   ("aad"%string, int_bytes 4); ("aae"%string, int_bytes 3); ("aaf"%string, int_bytes 2);
   ("aag"%string, int_bytes 1)].

Definition empty_table : table :=
  {| valueSize := 0; numItems := 0; arena := {| Data := 0; Len := 0 |};
     hashes := {| Data := 0; Len := 0 |}; keys := {| Data := 0; Len := 0 |};
     values := {| Data := 0; Len := 0 |}; keyData := {| Data := 0; Len := 0 |};
     keyOffset := 0; length := 0; memory := fun _ => 0 |}.

Definition table_of (r : res table) : table :=
  match r with
  | Ret t => t
  | Panic _ => empty_table
  end.

(** The builder of the tests, with FNV-1a for the hash. *)
Definition tests_builder : table := table_of (build fnv1a 7 8 21 stale_heap tests).


(** A builder in which the empty key is set, with the polynomial hash, for
    which the empty key hashes to 0. *)
Definition empty_key_calls : list (string * list Z) :=
  [(""%string, int_bytes 9); ("aaa"%string, int_bytes 7)].

(** A builder asked for eight items and filled with eight: every slot is
    occupied. *)
Definition eight_calls : list (string * list Z) :=
  tests ++ [("aah"%string, int_bytes 0)].
Definition full_builder : table :=
  table_of (build fnv1a 8 8 24 stale_heap eight_calls).

(** A fresh builder, and what [addKey] makes of it. *)
Definition fresh_builder : table := table_of (New 7 8 21 stale_heap).
Definition key_added : table :=
  match addKey fresh_builder "aaa" with
  | Ret (_, t) => t
  | Panic _ => empty_table
  end.

(** A builder told that its keys have no bytes, after a key of 20 bytes
    is set: [Set_] returns, [addKey] having copied the bytes that fit. *)
Definition long_key : string := "aaaaaaaaaaaaaaaaaaaa".
Definition short_builder : table := table_of (New 2 8 0 stale_heap).
Definition overrun_builder : table :=
  table_of (Set_ fnv1a short_builder long_key (int_bytes 1)).

(** The builder of [empty_key_calls], and the same after the empty key is
    set once more. *)
Definition empty_key_builder : table :=
  table_of (build polyHash 7 8 21 stale_heap empty_key_calls).
Definition empty_key_again : table :=
  table_of (Set_ polyHash empty_key_builder "" (int_bytes 5)).

(** The smallest builder: one slot, and one byte of key. *)
Definition tiny_builder : table := table_of (New 1 8 1 stale_heap).

(** The builder of the tests after "aab" is set once more. *)
Definition tests_overwritten : table :=
  table_of (Set_ fnv1a tests_builder "aab" (int_bytes 42)).

(** The calls of the tests in the package [table]. *)
Definition tablepkg_fresh : table := table_of (TablePkg.New 7 8 21 stale_heap).
Definition tablepkg_run : table * list (Z * Z * Z) :=
  match TablePkg.SetAll fnv1a tablepkg_fresh [] tests with
  | Ret r => r
  | Panic _ => (empty_table, [])
  end.

(** An operating system in which every call succeeds: the file opens as
    descriptor 3, holds the file of the builder of the tests, and is mapped
    at address 4096.  In [nolock_kernel] the pages cannot be locked. *)
Definition tests_file : list Z := snd (WriteTo tests_builder []).
Definition ok_kernel : list call -> call -> Z * Z :=
  fun _ c =>
    match c with
    | os_Open _ => (3, 0)
    | File_Seek _ _ _ => (Z.of_nat (List.length tests_file), 0)
    | SYS_MMAP _ _ _ _ _ _ => (4096, 0)
    | SYS_MLOCK _ _ => (0, 0)
    | SYS_MUNMAP _ _ => (0, 0)
    end.
Definition nolock_kernel : list call -> call -> Z * Z :=
  fun past c =>
    match c with
    | SYS_MLOCK _ _ => (0, 12)
    | _ => ok_kernel past c
    end.
Definition ok_peek : list call -> Z -> Z :=
  fun _ a => mem_of_bytes tests_file (a - 4096).

(** ** Tactics for the concrete tables *)

Ltac by_computation :=
  first [ lia
        | vm_compute; reflexivity
        | vm_compute; discriminate
        | vm_compute; intuition discriminate ].

Ltac by_evaluation :=
  vm_compute;
  first [ reflexivity
        | let Hd := fresh in intro Hd; discriminate Hd
        | split; [let Hd := fresh in intro Hd; discriminate Hd | reflexivity] ].

Ltac check_adequate :=
  unfold adequate, sized, maxAlloc;
  repeat match goal with
         | |- _ /\ _ => split
         | |- Forall _ _ => constructor
         | _ => cbn [fst snd]; by_computation
         end.

(** * Properties *)

(** ** Machine integers *)

Lemma wrap64_small (z : Z) : - 2 ^ 63 <= z < 2 ^ 63 -> wrap64 z = z.
Proof.
  intros H. unfold wrap64. rewrite Z.mod_small; lia.
Qed.

Lemma to_uint64_small (z : Z) : 0 <= z < 2 ^ 64 -> to_uint64 z = z.
Proof. intros H. unfold to_uint64. apply Z.mod_small; lia. Qed.

Lemma to_uint32_small (z : Z) : 0 <= z < 2 ^ 32 -> to_uint32 z = z.
Proof. intros H. unfold to_uint32. apply Z.mod_small; lia. Qed.

Lemma hash_range (x : Z) : 0 <= hash x < 2 ^ 32.
Proof. unfold hash, to_uint32. apply Z.mod_pos_bound. lia. Qed.

Lemma Len64_bounds (x : Z) :
  0 <= x ->
  0 <= Len64 x /\ x < 2 ^ Len64 x /\
  (0 < x -> 1 <= Len64 x /\ 2 ^ (Len64 x - 1) <= x) /\ (x = 0 -> Len64 x = 0).
Proof.
  intros Hx. unfold Len64. destruct (Z.eqb_spec x 0) as [->|Hne].
  - repeat split; simpl; lia.
  - assert (H0 : 0 < x) by lia.
    pose proof (Z.log2_spec x H0) as [Hlo Hhi].
    pose proof (Z.log2_nonneg x).
    replace (Z.log2 x + 1 - 1) with (Z.log2 x) by lia.
    replace (Z.log2 x + 1) with (Z.succ (Z.log2 x)) by lia.
    repeat split; try lia.
Qed.

(** The rounded item count, as long as the shift stays inside an [int]. *)
Lemma New_numItems_spec (n : Z) :
  1 <= n <= 2 ^ 62 ->
  exists k, 0 <= k <= 62 /\ New_numItems n = 2 ^ k /\ n <= 2 ^ k /\ 2 ^ k < 2 * n.
Proof.
  intros Hn. unfold New_numItems, LeadingZeros.
  rewrite (to_uint64_small (n - 1)) by lia.
  destruct (Len64_bounds (n - 1)) as (H0 & Hhi & Hlo & Hz); [lia|].
  generalize dependent (Len64 (n - 1)). intros k H0 Hhi Hlo Hz.
  assert (Hk : k <= 62).
  { destruct (Z_le_gt_dec k 62) as [|Hgt]; [assumption|exfalso].
    destruct (Z.eq_dec (n - 1) 0) as [E|E]; [specialize (Hz E); lia|].
    destruct Hlo as [_ Hlo]; [lia|].
    assert (2 ^ 62 <= 2 ^ (k - 1)) by (apply Z.pow_le_mono_r; lia). lia. }
  replace (8 * 8 - (64 - k)) with k by lia.
  rewrite (to_uint64_small k) by lia.
  rewrite Z.shiftl_1_l.
  assert (Hb : 2 ^ k <= 2 ^ 62) by (apply Z.pow_le_mono_r; lia).
  assert (Hp : 0 < 2 ^ k) by (apply Z.pow_pos_nonneg; lia).
  exists k. rewrite wrap64_small by lia.
  repeat split; try lia.
  destruct (Z.eq_dec (n - 1) 0) as [E|E].
  - rewrite (Hz E). change (2 ^ 0) with 1. lia.
  - destruct Hlo as [Hk1 Hlo]; [lia|].
    replace k with (Z.succ (k - 1)) by lia.
    rewrite Z.pow_succ_r by lia. lia.
Qed.

Lemma New_Cap (n vs tkl : Z) (heap : mem) (t : table) :
  New n vs tkl heap = Ret t -> Cap t = New_numItems n /\ numItems t = New_numItems n.
Proof.
  unfold New.
  destruct (make_int64 heap _) as [[a m]|p]; cbn [bind].
  - intros E. apply (f_equal (fun r => match r with Ret t => (Cap t, numItems t) | Panic _ => (0, 0) end)) in E.
    cbn [Cap hashes Len numItems] in E. injection E as E1 E2. split; congruence.
  - discriminate.
Qed.

(** ** Memory *)

Lemma store_bytes_outside (bs : list Z) (m : mem) (a x : Z) :
  x < a \/ a + Z.of_nat (List.length bs) <= x -> store_bytes m a bs x = m x.
Proof.
  revert m a. induction bs as [|b bs IH]; intros m a H; cbn [store_bytes].
  - reflexivity.
  - cbn [List.length] in H. rewrite IH by lia. unfold store8.
    destruct (Z.eqb_spec x a); [lia|reflexivity].
Qed.

Lemma store_bytes_inside (bs : list Z) (m : mem) (a x : Z) :
  a <= x < a + Z.of_nat (List.length bs) ->
  store_bytes m a bs x = nth (Z.to_nat (x - a)) bs 0.
Proof.
  revert m a. induction bs as [|b bs IH]; intros m a H; cbn [store_bytes List.length] in *.
  - lia.
  - destruct (Z.eq_dec x a) as [->|Hne].
    + rewrite store_bytes_outside by lia. unfold store8. rewrite Z.eqb_refl.
      replace (a - a) with 0 by lia. reflexivity.
    + rewrite IH by lia.
      replace (Z.to_nat (x - a)) with (S (Z.to_nat (x - (a + 1)))) by lia.
      reflexivity.
Qed.

Lemma length_load_bytes_nat (m : mem) (a : Z) (n : nat) :
  List.length (load_bytes_nat m a n) = n.
Proof. revert a. induction n; intros a; cbn; [reflexivity|now rewrite IHn]. Qed.

Lemma length_load_bytes (m : mem) (a n : Z) :
  0 <= n -> Z.of_nat (List.length (load_bytes m a n)) = n.
Proof. intros H. unfold load_bytes. rewrite length_load_bytes_nat. lia. Qed.

Lemma load_bytes_nat_ext (m m' : mem) (n : nat) (a : Z) :
  (forall x, a <= x < a + Z.of_nat n -> m' x = m x) ->
  load_bytes_nat m' a n = load_bytes_nat m a n.
Proof.
  revert a. induction n as [|n IH]; intros a H; cbn [load_bytes_nat].
  - reflexivity.
  - rewrite H by lia. f_equal. apply IH. intros x Hx. apply H. lia.
Qed.

Lemma load_bytes_ext (m m' : mem) (a n : Z) :
  (forall x, a <= x < a + n -> m' x = m x) ->
  load_bytes m' a n = load_bytes m a n.
Proof.
  intros H. unfold load_bytes. apply load_bytes_nat_ext.
  intros x Hx. apply H. lia.
Qed.

Lemma load_bytes_nat_store (bs : list Z) (m : mem) (a : Z) :
  load_bytes_nat (store_bytes m a bs) a (List.length bs) = bs.
Proof.
  revert m a. induction bs as [|b bs IH]; intros m a; cbn [List.length load_bytes_nat store_bytes].
  - reflexivity.
  - rewrite store_bytes_outside by lia. unfold store8 at 1. rewrite Z.eqb_refl.
    f_equal. apply IH.
Qed.

Lemma load_bytes_store (bs : list Z) (m : mem) (a : Z) :
  load_bytes (store_bytes m a bs) a (Z.of_nat (List.length bs)) = bs.
Proof. unfold load_bytes. rewrite Nat2Z.id. apply load_bytes_nat_store. Qed.

Lemma load_bytes_nat_app (m : mem) (a : Z) (n k : nat) :
  load_bytes_nat m a (n + k) =
  load_bytes_nat m a n ++ load_bytes_nat m (a + Z.of_nat n) k.
Proof.
  revert a. induction n as [|n IH]; intros a.
  - cbn [Nat.add load_bytes_nat app]. f_equal. lia.
  - cbn [Nat.add load_bytes_nat app]. f_equal. rewrite IH. do 2 f_equal. lia.
Qed.

Lemma load_bytes_app (m : mem) (a n k : Z) :
  0 <= n -> 0 <= k ->
  load_bytes m a (n + k) = load_bytes m a n ++ load_bytes m (a + n) k.
Proof.
  intros Hn Hk. unfold load_bytes. rewrite Z2Nat.inj_add by lia.
  rewrite load_bytes_nat_app. do 2 f_equal. lia.
Qed.

Lemma store_bytes_app (bs cs : list Z) (m : mem) (a : Z) :
  store_bytes m a (bs ++ cs) =
  store_bytes (store_bytes m a bs) (a + Z.of_nat (List.length bs)) cs.
Proof.
  revert m a. induction bs as [|b bs IH]; intros m a; cbn [app store_bytes List.length].
  - f_equal. lia.
  - rewrite IH. f_equal. lia.
Qed.

Lemma length_le_encode (n : nat) (v : Z) : List.length (le_encode n v) = n.
Proof. revert v. induction n; intros v; cbn; [reflexivity|now rewrite IHn]. Qed.

Lemma le_decode_encode (n : nat) (v : Z) :
  le_decode (le_encode n v) = v mod 256 ^ Z.of_nat n.
Proof.
  revert v. induction n as [|n IH]; intros v.
  - cbn [le_encode le_decode]. change (256 ^ Z.of_nat 0) with 1. now rewrite Z.mod_1_r.
  - cbn [le_encode le_decode]. rewrite IH.
    rewrite Nat2Z.inj_succ, Z.pow_succ_r by lia.
    rewrite Z.rem_mul_r by lia. reflexivity.
Qed.

Lemma load_u32_store_u32 (m : mem) (a v : Z) :
  load_u32 (store_u32 m a v) a = to_uint32 v.
Proof.
  unfold load_u32, store_u32.
  change 4 with (Z.of_nat (List.length (le_encode 4 v))) at 1.
  rewrite load_bytes_store, le_decode_encode. reflexivity.
Qed.

Lemma load_i64_store_i64 (m : mem) (a v : Z) :
  load_i64 (store_i64 m a v) a = wrap64 (to_uint64 v).
Proof.
  unfold load_i64, store_i64.
  change 8 with (Z.of_nat (List.length (le_encode 8 v))) at 1.
  rewrite load_bytes_store, le_decode_encode. reflexivity.
Qed.

Lemma load_u32_ext (m m' : mem) (a : Z) :
  (forall x, a <= x < a + 4 -> m' x = m x) -> load_u32 m' a = load_u32 m a.
Proof. intros H. unfold load_u32. f_equal. now apply load_bytes_ext. Qed.

Lemma load_i64_ext (m m' : mem) (a : Z) :
  (forall x, a <= x < a + 8 -> m' x = m x) -> load_i64 m' a = load_i64 m a.
Proof. intros H. unfold load_i64. do 2 f_equal. now apply load_bytes_ext. Qed.

Lemma load_u32_zero (m : mem) (a : Z) :
  (forall x, a <= x < a + 4 -> m x = 0) -> load_u32 m a = 0.
Proof.
  intros H. unfold load_u32, load_bytes.
  change (Z.to_nat 4) with 4%nat. cbn [load_bytes_nat le_decode].
  rewrite !H by lia. reflexivity.
Qed.

Lemma length_firstn_le (A : Type) (n : nat) (l : list A) :
  (List.length (firstn n l) <= List.length l)%nat.
Proof. rewrite length_firstn. lia. Qed.

Lemma app_eq_split (A : Type) (a c b d : list A) :
  List.length a = List.length c -> a ++ b = c ++ d -> a = c /\ b = d.
Proof.
  revert c. induction a as [|x a IH]; intros [|y c] Hl E; cbn in *; try discriminate.
  - split; [reflexivity|assumption].
  - injection E as -> E. injection Hl as Hl. destruct (IH c Hl E) as [-> ->].
    split; reflexivity.
Qed.

Lemma load_bytes_store_eq (bs : list Z) (m : mem) (a n : Z) :
  Z.of_nat (List.length bs) = n -> load_bytes (store_bytes m a bs) a n = bs.
Proof. intros <-. apply load_bytes_store. Qed.

Lemma firstn_length_app (A : Type) (a b : list A) : firstn (List.length a) (a ++ b) = a.
Proof. induction a as [|x a IH]; cbn; [reflexivity|now rewrite IH]. Qed.


(** ** The varint codec *)

Lemma elem_addr_ok (s : slice) (w i : Z) :
  0 <= i < Len s -> elem_addr s w i = Ret (Data s + w * i).
Proof.
  intros H. unfold elem_addr.
  destruct (Z.leb_spec 0 i); [|lia]. destruct (Z.ltb_spec i (Len s)); [|lia]. reflexivity.
Qed.

Lemma elem_addr_inv (s : slice) (w i a : Z) :
  elem_addr s w i = Ret a -> 0 <= i < Len s /\ a = Data s + w * i.
Proof.
  unfold elem_addr.
  destruct (Z.leb_spec 0 i); destruct (Z.ltb_spec i (Len s)); cbn [andb];
    intros E; try discriminate. injection E as <-. lia.
Qed.

Lemma elem_addr_panic (s : slice) (w i : Z) (p : panic) :
  elem_addr s w i = Panic p -> p = IndexOutOfRange /\ ~ (0 <= i < Len s).
Proof.
  unfold elem_addr.
  destruct (Z.leb_spec 0 i); destruct (Z.ltb_spec i (Len s)); cbn [andb];
    intros E; try discriminate; injection E as <-; split; try reflexivity; lia.
Qed.

Lemma byte_facts (b : Z) :
  0 <= b < 256 ->
  128 <= Z.lor b 128 < 256 /\ Z.land (Z.lor b 128) 127 = b mod 128.
Proof.
  intros H.
  assert (A : forallb (fun b => (128 <=? Z.lor b 128) && (Z.lor b 128 <? 256)
                               && (Z.land (Z.lor b 128) 127 =? b mod 128))
                      (map Z.of_nat (seq 0 256)) = true) by (vm_compute; reflexivity).
  rewrite forallb_forall in A. specialize (A b).
  assert (I : In b (map Z.of_nat (seq 0 256))).
  { apply in_map_iff. exists (Z.to_nat b). split; [lia|]. apply in_seq. lia. }
  specialize (A I). apply andb_prop in A as [A A3]. apply andb_prop in A as [A1 A2].
  apply Z.leb_le in A1. apply Z.ltb_lt in A2. apply Z.eqb_eq in A3. lia.
Qed.

Lemma lor_shiftl_add (x b s : Z) :
  0 <= s -> 0 <= x < 2 ^ s -> Z.lor x (Z.shiftl b s) = x + b * 2 ^ s.
Proof.
  intros Hs Hx. rewrite <- (Z.shiftl_mul_pow2 b s) by lia.
  rewrite <- Z.add_lor_land.
  assert (E : Z.land x (Z.shiftl b s) = 0).
  { apply Z.bits_inj'. intros n Hn. rewrite Z.land_spec, Z.bits_0.
    destruct (Z_lt_ge_dec n s) as [L|G].
    - rewrite (Z.shiftl_spec_low b s n) by lia. apply andb_false_r.
    - destruct (Z.eq_dec x 0) as [->|Hne]; [now rewrite Z.bits_0|].
      rewrite (Z.bits_above_log2 x n); [reflexivity|lia|].
      apply Z.log2_lt_pow2; [lia|].
      apply Z.lt_le_trans with (2 ^ s); [lia|]. apply Z.pow_le_mono_r; lia. }
  rewrite E. lia.
Qed.

Lemma length_uvarint_bytes (fuel : nat) (x : Z) :
  (List.length (uvarint_bytes fuel x) <= fuel)%nat.
Proof.
  revert x. induction fuel as [|f IH]; intros x; cbn [uvarint_bytes List.length]; [lia|].
  destruct (128 <=? x); cbn [List.length]; [specialize (IH (Z.shiftr x 7))|]; lia.
Qed.

Lemma length_uvarint_bytes_pos (fuel : nat) (x : Z) :
  (1 <= List.length (uvarint_bytes (S fuel) x))%nat.
Proof. cbn [uvarint_bytes]. destruct (128 <=? x); cbn [List.length]; lia. Qed.

(** A value below [2^(7k)] takes at most [k] bytes. *)
Lemma length_uvarint_bytes_le (fuel k : nat) (x : Z) :
  (1 <= k)%nat -> 0 <= x < 2 ^ (7 * Z.of_nat k) ->
  (List.length (uvarint_bytes fuel x) <= k)%nat.
Proof.
  revert k x. induction fuel as [|f IH]; intros k x Hk Hx; cbn [uvarint_bytes List.length]; [lia|].
  destruct (Z.leb_spec 128 x) as [Hge|Hlt]; cbn [List.length]; [|lia].
  destruct k as [|[|k]]; [lia| |].
  - change (2 ^ (7 * Z.of_nat 1)) with 128 in Hx. lia.
  - specialize (IH (S k) (Z.shiftr x 7)).
    assert (Hs : 0 <= Z.shiftr x 7 < 2 ^ (7 * Z.of_nat (S k))).
    { rewrite Z.shiftr_div_pow2 by lia. split; [apply Z.div_pos; lia|].
      apply Z.div_lt_upper_bound; [lia|].
      rewrite <- Z.pow_add_r by lia.
      replace (7 + 7 * Z.of_nat (S k)) with (7 * Z.of_nat (S (S k))) by lia. lia. }
    specialize (IH ltac:(lia) Hs). lia.
Qed.

(** [PutUvarint] writes [uvarint_bytes] when they fit and panics otherwise. *)
Lemma PutUvarint_loop_spec (fuel : nat) (m : mem) (b : slice) (x i : Z) :
  (1 <= fuel)%nat -> 0 <= i -> 0 <= x < 2 ^ (7 * Z.of_nat fuel) ->
  PutUvarint_loop fuel m b x i =
  let bs := uvarint_bytes fuel x in
  if i + Z.of_nat (List.length bs) <=? Len b
  then Ret (i + Z.of_nat (List.length bs), store_bytes m (Data b + i) bs)
  else Panic IndexOutOfRange.
Proof.
  revert m x i. induction fuel as [|f IH]; intros m x i Hf Hi Hx; [lia|].
  cbn [PutUvarint_loop uvarint_bytes].
  destruct (Z.leb_spec 128 x) as [Hge|Hlt].
    + assert (Hs : 0 <= Z.shiftr x 7 < 2 ^ (7 * Z.of_nat f)).
      { rewrite Z.shiftr_div_pow2 by lia. split; [apply Z.div_pos; lia|].
        apply Z.div_lt_upper_bound; [lia|].
        rewrite <- Z.pow_add_r by lia.
        replace (7 + 7 * Z.of_nat f) with (7 * Z.of_nat (S f)) by lia. lia. }
      cbn [List.length]. cbv zeta.
      destruct f as [|f'].
      { change (2 ^ (7 * Z.of_nat 0)) with 1 in Hs.
        rewrite Z.shiftr_div_pow2 in Hs by lia.
        change (2 ^ (7 * Z.of_nat 1)) with 128 in Hx. lia. }
      pose proof (length_uvarint_bytes_pos f' (Z.shiftr x 7)) as Hpos.
      destruct (Z.ltb_spec i (Len b)) as [Hlt|Hge'].
      * rewrite elem_addr_ok by lia. cbn [bind].
        rewrite IH by lia. cbv zeta.
        replace (Data b + 1 * i) with (Data b + i) by lia.
        replace (i + 1 + Z.of_nat (List.length (uvarint_bytes (S f') (Z.shiftr x 7))))
          with (i + Z.of_nat (S (List.length (uvarint_bytes (S f') (Z.shiftr x 7))))) by lia.
        cbn [store_bytes].
        replace (Data b + i + 1) with (Data b + (i + 1)) by lia. reflexivity.
      * destruct (Z.leb_spec (i + Z.of_nat (S (List.length (uvarint_bytes (S f') (Z.shiftr x 7))))) (Len b)); [lia|].
        unfold elem_addr. destruct (Z.leb_spec 0 i); [|lia].
        destruct (Z.ltb_spec i (Len b)); [lia|]. reflexivity.
    + cbn [List.length]. cbv zeta.
      destruct (Z.leb_spec (i + Z.of_nat 1) (Len b)) as [Hfit|Hno].
      * rewrite elem_addr_ok by lia. cbn [bind store_bytes].
        replace (Data b + 1 * i) with (Data b + i) by lia.
        replace (i + Z.of_nat 1) with (i + 1) by lia. reflexivity.
      * unfold elem_addr. destruct (Z.leb_spec 0 i); [|lia].
        destruct (Z.ltb_spec i (Len b)); [lia|]. reflexivity.
Qed.

Lemma mod_256_128 (y : Z) : y mod 256 mod 128 = y mod 128.
Proof.
  change 256 with (128 * 2). rewrite Z.rem_mul_r by lia.
  rewrite (Z.mul_comm 128), Z.mod_add by lia. apply Z.mod_mod. lia.
Qed.

Lemma shiftr7_bounds (f : nat) (y : Z) :
  128 <= y < 2 ^ (7 * Z.of_nat (S f)) ->
  0 <= Z.shiftr y 7 < 2 ^ (7 * Z.of_nat f) /\ (1 <= f)%nat /\
  y = y mod 128 + 128 * Z.shiftr y 7.
Proof.
  intros H. rewrite Z.shiftr_div_pow2 by lia. change (2 ^ 7) with 128.
  assert (B : 0 <= y / 128 < 2 ^ (7 * Z.of_nat f)).
  { split; [apply Z.div_pos; lia|].
    apply Z.div_lt_upper_bound; [lia|]. change 128 with (2 ^ 7).
    rewrite <- Z.pow_add_r by lia.
    replace (7 + 7 * Z.of_nat f) with (7 * Z.of_nat (S f)) by lia. lia. }
  split; [exact B|]. split.
  - destruct f; [|lia]. change (2 ^ (7 * Z.of_nat 1)) with 128 in H. lia.
  - pose proof (Z.div_mod y 128). lia.
Qed.

(** [ReadUvarint] reads back what [PutUvarint] wrote. *)
Lemma ReadUvarint_loop_spec (fuel : nat) :
  forall (n : nat) (m : mem) (br : byteReader) (x s y : Z),
  (1 <= fuel <= n)%nat ->
  s = 7 * (10 - Z.of_nat n) -> 0 <= s ->
  0 <= x < 2 ^ s ->
  0 <= y < 2 ^ (7 * Z.of_nat fuel) ->
  x + y * 2 ^ s < 2 ^ 64 ->
  let bs := uvarint_bytes fuel y in
  0 <= offset br ->
  offset br + Z.of_nat (List.length bs) <= Len (buf br) ->
  load_bytes_nat m (Data (buf br) + offset br) (List.length bs) = bs ->
  ReadUvarint_loop n m br x s =
  Ret (x + y * 2 ^ s,
       {| buf := buf br; offset := offset br + Z.of_nat (List.length bs) |}).
Proof.
  induction fuel as [|f IH]; intros n m br x s y Hn Hs Hs0 Hx Hy Hb bs Ho Hfit Hmem; [lia|].
  destruct n as [|n']; [lia|].
  assert (P2s : 0 < 2 ^ s) by (apply Z.pow_pos_nonneg; lia).
  subst bs. cbn [uvarint_bytes] in *. cbn [ReadUvarint_loop]. unfold ReadByte.
  destruct (Z.leb_spec 128 y) as [Hge|Hlt]; cbn [List.length load_bytes_nat] in *.
  - destruct (shiftr7_bounds f y ltac:(lia)) as (Hq & Hf1 & Hdm).
    injection Hmem as Hm0 Hrest.
    rewrite elem_addr_ok by lia. cbn [bind].
    replace (Data (buf br) + 1 * offset br) with (Data (buf br) + offset br) by lia.
    rewrite Hm0.
    assert (Hyb : 0 <= to_byte y < 256) by (unfold to_byte; apply Z.mod_pos_bound; lia).
    destruct (byte_facts (to_byte y) Hyb) as (Hb1 & Hb2).
    destruct (Z.ltb_spec (Z.lor (to_byte y) 128) 128); [lia|].
    rewrite Hb2. unfold to_byte.
    rewrite (mod_256_128 y).
    assert (Hr : 0 <= y mod 128 < 128) by (apply Z.mod_pos_bound; lia).
    assert (Hpow : 2 ^ (s + 7) = 128 * 2 ^ s)
      by (rewrite Z.pow_add_r by lia; change (2 ^ 7) with 128; lia).
    assert (Hle : (y mod 128) * 2 ^ s <= y * 2 ^ s) by nia.
    rewrite Z.shiftl_mul_pow2 by lia.
    rewrite to_uint64_small by nia.
    rewrite <- (Z.shiftl_mul_pow2 (y mod 128) s) by lia.
    rewrite lor_shiftl_add by lia.
    set (br' := {| buf := buf br; offset := offset br + 1 |}).
    rewrite (IH n' m br' (x + y mod 128 * 2 ^ s) (s + 7) (Z.shiftr y 7)).
    + f_equal. f_equal.
      * rewrite Hpow. rewrite Hdm at 3. ring.
      * unfold br'. cbn [buf offset]. f_equal. lia.
    + lia.
    + lia.
    + lia.
    + rewrite Hpow. nia.
    + exact Hq.
    + rewrite Hpow. rewrite Hdm in Hb. nia.
    + unfold br'. cbn [offset]. lia.
    + unfold br'. cbn [buf offset]. lia.
    + unfold br'. cbn [buf offset].
      replace (Data (buf br) + (offset br + 1)) with (Data (buf br) + offset br + 1) by lia.
      exact Hrest.
  - injection Hmem as Hm0.
    rewrite elem_addr_ok by lia. cbn [bind].
    replace (Data (buf br) + 1 * offset br) with (Data (buf br) + offset br) by lia.
    rewrite Hm0. unfold to_byte. rewrite (Z.mod_small y 256) by lia.
    destruct (Z.ltb_spec y 128); [|lia].
    assert (Hov : Nat.eqb n' 0 && (1 <? y) = false).
    { destruct n' as [|n'']; [|reflexivity]. cbn [Nat.eqb andb].
      apply Z.ltb_ge. subst s. change (7 * (10 - Z.of_nat 1)) with 63 in *.
      change (2 ^ 64) with (2 * 2 ^ 63) in Hb. nia. }
    rewrite Hov.
    assert (Hnn : 0 <= y * 2 ^ s) by (apply Z.mul_nonneg_nonneg; lia).
    rewrite Z.shiftl_mul_pow2 by lia. rewrite to_uint64_small by lia.
    rewrite <- (Z.shiftl_mul_pow2 y s) by lia.
    rewrite lor_shiftl_add by lia.
    rewrite (Z.shiftl_mul_pow2 y s) by lia. reflexivity.
Qed.


(** ** Keys in the key-data region *)

Lemma length_bytes_of_string (s : string) :
  List.length (bytes_of_string s) = String.length s.
Proof.
  unfold bytes_of_string. rewrite length_map.
  induction s as [|c s IH]; cbn; [reflexivity|now rewrite IH].
Qed.

Lemma string_of_bytes_of_string (s : string) :
  string_of_bytes (bytes_of_string s) = s.
Proof.
  unfold string_of_bytes, bytes_of_string. rewrite map_map.
  rewrite (map_ext _ (fun c => c)).
  - rewrite map_id. apply string_of_list_ascii_of_string.
  - intros c. rewrite Nat2Z.id. apply ascii_nat_embedding.
Qed.

Lemma length_key_record (key : string) :
  Z.of_nat (List.length (key_record key)) =
  Z.of_nat (List.length (uvarint_bytes MaxVarintLen64 (2 * Z.of_nat (String.length key))))
  + Z.of_nat (String.length key).
Proof.
  unfold key_record. rewrite length_app, length_bytes_of_string. lia.
Qed.

Lemma length_key_record_bounds (key : string) :
  Z.of_nat (String.length key) + 1 <= Z.of_nat (List.length (key_record key))
  <= Z.of_nat (String.length key) + 10.
Proof.
  rewrite length_key_record.
  pose proof (length_uvarint_bytes MaxVarintLen64 (2 * Z.of_nat (String.length key))).
  pose proof (length_uvarint_bytes_pos 9 (2 * Z.of_nat (String.length key))).
  change (S 9) with MaxVarintLen64 in *. unfold MaxVarintLen64 in *. lia.
Qed.

(** A key shorter than [2^27] bytes has a length prefix of at most 4 bytes:
    the budget [New] reserves per slot. *)
Lemma length_key_record_budget (key : string) :
  Z.of_nat (String.length key) < 2 ^ 27 ->
  Z.of_nat (List.length (key_record key)) <= Z.of_nat (String.length key) + 4.
Proof.
  intros H. rewrite length_key_record.
  pose proof (length_uvarint_bytes_le MaxVarintLen64 4 (2 * Z.of_nat (String.length key))
                ltac:(lia)) as L.
  change (2 ^ (7 * Z.of_nat 4)) with (2 * 2 ^ 27) in L. lia.
Qed.

Lemma slice_from_ok (s : slice) (lo : Z) :
  0 <= lo <= Len s -> slice_from s lo = Ret {| Data := Data s + lo; Len := Len s - lo |}.
Proof.
  intros H. unfold slice_from.
  destruct (Z.leb_spec 0 lo); [|lia]. destruct (Z.leb_spec lo (Len s)); [|lia]. reflexivity.
Qed.

Lemma slice_from_inv (s r : slice) (lo : Z) :
  slice_from s lo = Ret r ->
  0 <= lo <= Len s /\ r = {| Data := Data s + lo; Len := Len s - lo |}.
Proof.
  unfold slice_from.
  destruct (Z.leb_spec 0 lo); destruct (Z.leb_spec lo (Len s)); cbn [andb];
    intros E; try discriminate. injection E as <-. split; [lia|reflexivity].
Qed.

Lemma slice_range_ok (s : slice) (lo hi : Z) :
  0 <= lo <= hi -> hi <= Len s ->
  slice_range s lo hi = Ret {| Data := Data s + lo; Len := hi - lo |}.
Proof.
  intros H1 H2. unfold slice_range.
  destruct (Z.leb_spec 0 lo); [|lia]. destruct (Z.leb_spec lo hi); [|lia].
  destruct (Z.leb_spec hi (Len s)); [|lia]. reflexivity.
Qed.

(** [getKey] returns the key of a valid record. *)
Lemma getKey_valid (t : table) (off : Z) (key : string) :
  Len (keyData t) < 2 ^ 62 ->
  valid_record (memory t) (keyData t) off key ->
  getKey t off = Ret key.
Proof.
  intros Hsmall (Hoff & Hfit & Hmem).
  pose proof (length_key_record key) as Hlen.
  pose proof (length_key_record_bounds key) as Hlb.
  set (L := Z.of_nat (String.length key)) in *.
  set (vb := uvarint_bytes MaxVarintLen64 (2 * L)) in *.
  assert (Hvl : 1 <= Z.of_nat (List.length vb) <= 10) by lia.
  unfold getKey. rewrite slice_from_ok by lia. cbn [bind].
  unfold ReadVarint, ReadUvarint, new_reader.
  rewrite (ReadUvarint_loop_spec MaxVarintLen64 MaxVarintLen64 (memory t) _ 0 0 (2 * L)).
  - cbn [bind buf offset reader_offset].
    replace (0 + 2 * L * 2 ^ 0) with (2 * L) by (change (2 ^ 0) with 1; lia).
    rewrite Z.shiftr_div_pow2 by lia. change (2 ^ 1) with 2.
    replace (2 * L / 2) with L by (rewrite Z.mul_comm, Z.div_mul; lia).
    replace (Z.land (2 * L) 1) with 0.
    2:{ change 1 with (Z.ones 1). rewrite Z.land_ones by lia. change (2 ^ 1) with 2.
        rewrite Z.mul_comm, Z.mod_mul; lia. }
    cbn [Z.eqb]. fold vb.
    rewrite (wrap64_small L) by lia.
    rewrite (wrap64_small (0 + Z.of_nat (List.length vb) + off)) by lia.
    rewrite wrap64_small by lia.
    rewrite slice_range_ok by lia. cbn [bind Data Len].
    replace (0 + Z.of_nat (List.length vb) + off + L - (0 + Z.of_nat (List.length vb) + off))
      with L by lia.
    rewrite Hlen in Hmem. rewrite load_bytes_app in Hmem by lia.
    unfold key_record in Hmem. fold L vb in Hmem.
    apply app_eq_split in Hmem.
    + destruct Hmem as [_ Hk].
      replace (Data (keyData t) + (0 + Z.of_nat (List.length vb) + off))
        with (Data (keyData t) + off + Z.of_nat (List.length vb)) by lia.
      rewrite Hk. now rewrite string_of_bytes_of_string.
    + apply Nat2Z.inj. rewrite length_load_bytes; lia.
  - unfold MaxVarintLen64. lia.
  - unfold MaxVarintLen64. lia.
  - lia.
  - change (2 ^ 0) with 1. lia.
  - unfold MaxVarintLen64. change (2 ^ (7 * Z.of_nat 10)) with (2 ^ 8 * 2 ^ 62). lia.
  - change (2 ^ 0) with 1. change (2 ^ 64) with (4 * 2 ^ 62). lia.
  - cbn [offset]. lia.
  - cbn [buf offset Len]. fold vb. lia.
  - cbn [buf offset Data]. fold vb.
    rewrite Hlen in Hmem. rewrite load_bytes_app in Hmem by lia.
    unfold key_record in Hmem. fold L vb in Hmem.
    apply app_eq_split in Hmem.
    + destruct Hmem as [Hv _]. unfold load_bytes in Hv. rewrite Nat2Z.id in Hv.
      replace (Data (keyData t) + off + 0) with (Data (keyData t) + off) by lia.
      exact Hv.
    + apply Nat2Z.inj. rewrite length_load_bytes; lia.
Qed.

Lemma valid_record_inj (t : table) (off : Z) (k1 k2 : string) :
  Len (keyData t) < 2 ^ 62 ->
  valid_record (memory t) (keyData t) off k1 ->
  valid_record (memory t) (keyData t) off k2 -> k1 = k2.
Proof.
  intros Hs H1 H2.
  pose proof (getKey_valid t off k1 Hs H1) as E1.
  pose proof (getKey_valid t off k2 Hs H2) as E2. congruence.
Qed.

Lemma valid_record_ext (m m' : mem) (kd : slice) (off : Z) (key : string) :
  (forall x, Data kd + off <= x < Data kd + off + Z.of_nat (List.length (key_record key)) ->
             m' x = m x) ->
  valid_record m kd off key -> valid_record m' kd off key.
Proof.
  intros Hext (H1 & H2 & H3). repeat split; try assumption.
  etransitivity; [apply load_bytes_ext; exact Hext|exact H3].
Qed.

(** [addKey] appends the key record at the write cursor when it fits. *)
Lemma addKey_ok (t : table) (key : string) :
  0 <= keyOffset t ->
  keyOffset t + Z.of_nat (List.length (key_record key)) <= Len (keyData t) ->
  Len (keyData t) < 2 ^ 62 ->
  addKey t key =
  Ret (keyOffset t,
       with_keyOffset
         (with_memory t (store_bytes (memory t) (Data (keyData t) + keyOffset t)
                                     (key_record key)))
         (keyOffset t + Z.of_nat (List.length (key_record key)))).
Proof.
  intros Hko Hfit Hsmall.
  pose proof (length_key_record key) as Hlen.
  pose proof (length_key_record_bounds key) as Hlb.
  set (L := Z.of_nat (String.length key)) in *.
  set (vb := uvarint_bytes MaxVarintLen64 (2 * L)) in *.
  unfold addKey. rewrite slice_from_ok by lia. cbn [bind].
  unfold PutVarint, PutUvarint. fold L.
  rewrite (to_uint64_small L) by lia.
  rewrite Z.shiftl_mul_pow2 by lia. change (2 ^ 1) with 2.
  rewrite (to_uint64_small (L * 2)) by lia.
  destruct (Z.ltb_spec L 0); [lia|].
  rewrite PutUvarint_loop_spec.
  2:{ unfold MaxVarintLen64. lia. }
  2:{ lia. }
  2:{ unfold MaxVarintLen64. change (2 ^ (7 * Z.of_nat 10)) with (2 ^ 8 * 2 ^ 62). lia. }
  cbv zeta. replace (L * 2) with (2 * L) by lia. fold vb. cbn [Data Len].
  destruct (Z.leb_spec (0 + Z.of_nat (List.length vb)) (Len (keyData t) - keyOffset t)); [|lia].
  cbn [bind with_memory with_keyOffset keyData keyOffset memory].
  rewrite !wrap64_small by lia.
  rewrite slice_from_ok by lia. cbn [bind].
  unfold copy. cbn [Data Len].
  rewrite firstn_all2 by (rewrite length_bytes_of_string; lia).
  unfold key_record. fold L vb. rewrite store_bytes_app.
  unfold with_keyOffset, with_memory.
  cbn [valueSize numItems arena hashes keys values keyData keyOffset length memory].
  rewrite length_app, length_bytes_of_string.
  f_equal. f_equal. f_equal; [lia|]. f_equal; [f_equal|]; lia.
Qed.

(** ** The loops of the codec end *)

Lemma slice_from_panic (s : slice) (lo : Z) (p : panic) :
  slice_from s lo = Panic p -> p = IndexOutOfRange.
Proof.
  unfold slice_from. destruct ((0 <=? lo) && (lo <=? Len s)); intros E;
    [discriminate|now injection E].
Qed.

Lemma slice_range_panic (s : slice) (lo hi : Z) (p : panic) :
  slice_range s lo hi = Panic p -> p = IndexOutOfRange.
Proof.
  unfold slice_range. destruct ((0 <=? lo) && (lo <=? hi) && (hi <=? Len s)); intros E;
    [discriminate|now injection E].
Qed.

Lemma ReadUvarint_loop_panic (n : nat) (m : mem) (br : byteReader) (x s : Z) (p : panic) :
  ReadUvarint_loop n m br x s = Panic p -> p = IndexOutOfRange.
Proof.
  revert br x s. induction n as [|n IH]; intros br x s; cbn [ReadUvarint_loop].
  - discriminate.
  - unfold ReadByte. destruct (elem_addr (buf br) 1 (offset br)) as [a|q] eqn:Ea; cbn [bind].
    + destruct (m a <? 128).
      * destruct (Nat.eqb n 0 && (1 <? m a)); discriminate.
      * apply IH.
    + intros E. injection E as <-. now apply elem_addr_panic in Ea.
Qed.

(** [getKey] either returns or panics on a bounds check. *)
Lemma getKey_panic (t : table) (off : Z) (p : panic) :
  getKey t off = Panic p -> p = IndexOutOfRange.
Proof.
  unfold getKey.
  destruct (slice_from (keyData t) off) as [b|q] eqn:Es; cbn [bind].
  2:{ intros E. injection E as <-. now apply slice_from_panic in Es. }
  unfold ReadVarint, ReadUvarint.
  destruct (ReadUvarint_loop MaxVarintLen64 (memory t) (new_reader b) 0 0)
    as [[ux br]|q] eqn:Er; cbn [bind].
  2:{ intros E. injection E as <-. now apply ReadUvarint_loop_panic in Er. }
  match goal with |- context [slice_range ?s ?lo ?hi] =>
    destruct (slice_range s lo hi) as [d|q] eqn:Ed end; cbn [bind].
  - discriminate.
  - intros E. injection E as <-. now apply slice_range_panic in Ed.
Qed.

(** [PutVarint] either returns or panics on a bounds check: the budget of
    ten iterations covers every 64-bit value. *)
Lemma PutVarint_never_diverges (m : mem) (b : slice) (x : Z) (p : panic) :
  PutVarint m b x = Panic p -> p = IndexOutOfRange.
Proof.
  unfold PutVarint, PutUvarint. cbv zeta.
  set (ux := if x <? 0 then _ else _).
  assert (Hux : 0 <= ux < 2 ^ 64).
  { unfold ux. destruct (x <? 0); unfold to_uint64; apply Z.mod_pos_bound; lia. }
  rewrite PutUvarint_loop_spec.
  - cbv zeta. destruct (_ <=? _); intros E; [discriminate|now injection E].
  - unfold MaxVarintLen64. lia.
  - lia.
  - unfold MaxVarintLen64. change (2 ^ (7 * Z.of_nat 10)) with (2 ^ 6 * 2 ^ 64). lia.
Qed.


(** ** The probe loop *)

(** One iteration of the loop, on a cursor inside the table. *)
Lemma find_loop_step (f : nat) (t : table) (key : string) (h l s c : Z) :
  0 <= c < Len (hashes t) -> Len (keys t) = Len (hashes t) ->
  find_loop (S f) t key h l s c =
  if hashAt t c =? 0 then Ret (c, false)
  else
    matched <- (if hashAt t c =? h
                then k <- getKey t (keyOffAt t c) ;; Ret (String.eqb k key)
                else Ret false) ;;
    if (matched : bool) then Ret (c, true)
    else if next_slot l c =? s then Panic OutOfSpace
         else find_loop f t key h l s (next_slot l c).
Proof.
  intros Hc Hk. cbn [find_loop].
  rewrite elem_addr_ok by lia. cbn [bind]. fold (hashAt t c).
  destruct (hashAt t c =? 0); [reflexivity|].
  rewrite elem_addr_ok by lia. cbn [bind]. fold (keyOffAt t c).
  reflexivity.
Qed.

(** A key that is found stays found, in the same slot, when only empty
    slots change. *)
Lemma find_loop_frame (t t' : table) (key : string) (h l s i : Z) :
  agree_on_occupied t t' -> Len (keys t) = Len (hashes t) ->
  forall (f : nat) (c : Z),
  0 <= c < l -> l <= Len (hashes t) ->
  find_loop f t key h l s c = Ret (i, true) ->
  find_loop f t' key h l s c = Ret (i, true).
Proof.
  intros (Eh & Ek & Hag) Hk. induction f as [|f IH]; intros c Hc Hl E.
  - discriminate.
  - rewrite find_loop_step in E by lia.
    rewrite find_loop_step by (rewrite ?Eh, ?Ek; lia).
    destruct (Z.eqb_spec (hashAt t c) 0) as [Hz|Hnz]; [discriminate|].
    destruct (Hag c ltac:(lia) Hnz) as [E1 E2]. rewrite E1, E2.
    destruct (Z.eqb_spec (hashAt t c) 0); [contradiction|].
    destruct (if hashAt t c =? h
              then k <- getKey t (keyOffAt t c);; Ret (String.eqb k key)
              else Ret false) as [[|]|p]; cbn [bind] in *; try assumption.
    destruct (next_slot l c =? s); [discriminate|].
    apply IH; try assumption.
    unfold next_slot. destruct (Z.eqb_spec (c + 1) l); lia.
Qed.

(** The key whose probe ended on the empty slot [j] is found there once the
    slot holds it. *)
Lemma find_loop_new (t t' : table) (key : string) (h l s j : Z) :
  agree_on_occupied t t' -> Len (keys t) = Len (hashes t) ->
  hashAt t' j = h -> h <> 0 -> getKey t' (keyOffAt t' j) = Ret key ->
  forall (f : nat) (c : Z),
  0 <= c < l -> l <= Len (hashes t) ->
  find_loop f t key h l s c = Ret (j, false) ->
  find_loop f t' key h l s c = Ret (j, true).
Proof.
  intros (Eh & Ek & Hag) Hk Hj Hh Hkey. induction f as [|f IH]; intros c Hc Hl E.
  - discriminate.
  - rewrite find_loop_step in E by lia.
    rewrite find_loop_step by (rewrite ?Eh, ?Ek; lia).
    destruct (Z.eqb_spec (hashAt t c) 0) as [Hz|Hnz].
    + injection E as ->. rewrite Hj.
      destruct (Z.eqb_spec h 0); [contradiction|].
      rewrite Z.eqb_refl, Hkey. cbn [bind]. rewrite String.eqb_refl. reflexivity.
    + destruct (Hag c ltac:(lia) Hnz) as [E1 E2]. rewrite E1, E2.
      destruct (Z.eqb_spec (hashAt t c) 0); [contradiction|].
      destruct (if hashAt t c =? h
                then k <- getKey t (keyOffAt t c);; Ret (String.eqb k key)
                else Ret false) as [[|]|p]; cbn [bind] in *; try discriminate.
      destruct (next_slot l c =? s); [discriminate|].
      apply IH; try assumption.
      unfold next_slot. destruct (Z.eqb_spec (c + 1) l); lia.
Qed.

Lemma rank_range (l s c : Z) : 0 <= s < l -> 0 <= c < l -> 0 <= rank l s c < l.
Proof. intros Hs Hc. unfold rank. destruct (Z.leb_spec s c); lia. Qed.

Lemma rank_inj (l s c c' : Z) :
  0 <= s < l -> 0 <= c < l -> 0 <= c' < l -> rank l s c = rank l s c' -> c = c'.
Proof.
  intros Hs Hc Hc'. unfold rank.
  destruct (Z.leb_spec s c); destruct (Z.leb_spec s c'); lia.
Qed.

Lemma rank_next (l s c : Z) :
  0 <= s < l -> 0 <= c < l ->
  0 <= next_slot l c < l /\
  (next_slot l c = s -> rank l s c = l - 1) /\
  (next_slot l c <> s -> rank l s (next_slot l c) = rank l s c + 1).
Proof.
  intros Hs Hc. unfold next_slot, rank.
  destruct (Z.eqb_spec (c + 1) l); destruct (Z.leb_spec s c);
    try destruct (Z.leb_spec s 0); try destruct (Z.leb_spec s (c + 1)); lia.
Qed.

Lemma find_loop_post (t : table) (key : string) (h s : Z) :
  WF t -> 0 <= s < numItems t ->
  forall (f : nat) (c : Z),
  0 <= c < numItems t ->
  numItems t - rank (numItems t) s c <= Z.of_nat f ->
  find_post t key h (numItems t) s c (find_loop f t key h (numItems t) s c).
Proof.
  intros W Hs. set (l := numItems t) in *.
  destruct W as [Wn Wh Wk Wkd Wsl]. fold l in Wn, Wh, Wk, Wsl.
  induction f as [|f IH]; intros c Hc Hf.
  - pose proof (rank_range l s c Hs Hc). lia.
  - rewrite find_loop_step by lia.
    destruct (Z.eqb_spec (hashAt t c) 0) as [Hz|Hnz].
    + cbn [find_post]. repeat split; try lia; try assumption.
    + destruct (Wsl c Hc Hnz) as [kc Hrec].
      pose proof (getKey_valid t _ kc Wkd Hrec) as Hget.
      assert (Hcase : (matches t key h c /\
                       (if hashAt t c =? h
                        then k <- getKey t (keyOffAt t c);; Ret (String.eqb k key)
                        else Ret false) = Ret true)
                      \/ (~ matches t key h c /\
                          (if hashAt t c =? h
                           then k <- getKey t (keyOffAt t c);; Ret (String.eqb k key)
                           else Ret false) = Ret false)).
      { destruct (Z.eqb_spec (hashAt t c) h) as [Eh|Nh].
        - rewrite Hget. cbn [bind]. destruct (String.eqb_spec kc key) as [->|Nk].
          + left. split; [split; assumption|reflexivity].
          + right. split; [|reflexivity]. intros [_ Hv]. apply Nk.
            eapply valid_record_inj; eassumption.
        - right. split; [|reflexivity]. intros [Hv _]. contradiction. }
      destruct Hcase as [[Hm ->]|[Hm ->]]; cbn [bind].
      * cbn [find_post]. repeat split; try lia; try apply Hm; try assumption.
      * destruct (rank_next l s c Hs Hc) as (Hn1 & Hn2 & Hn3).
        destruct (Z.eqb_spec (next_slot l c) s) as [Es|Ns].
        -- cbn [find_post]. split; [reflexivity|]. intros j Hj Hr.
           pose proof (rank_range l s j Hs Hj).
           assert (j = c) by (apply (rank_inj l s); try assumption; lia).
           subst j. split; assumption.
        -- specialize (Hn3 Ns). specialize (IH (next_slot l c) Hn1 ltac:(lia)).
           assert (Hstep : forall j, 0 <= j < l -> rank l s c <= rank l s j ->
                     rank l s j < rank l s (next_slot l c) ->
                     hashAt t j <> 0 /\ ~ matches t key h j).
           { intros j Hj H1 H2.
             assert (j = c) by (apply (rank_inj l s); try assumption; lia).
             subst j. split; assumption. }
           destruct (find_loop f t key h l s (next_slot l c)) as [[i [|]]|p];
             cbn [find_post] in *.
           ++ destruct IH as (I1 & I2 & I3 & I4 & I5).
              split; [assumption|]. split; [lia|]. split; [assumption|].
              split; [assumption|]. intros j Hj Hr.
              destruct (Z_lt_ge_dec (rank l s j) (rank l s (next_slot l c)));
                [apply Hstep; lia | apply I5; lia].
           ++ destruct IH as (I1 & I2 & I3 & I5).
              split; [assumption|]. split; [lia|]. split; [assumption|].
              intros j Hj Hr.
              destruct (Z_lt_ge_dec (rank l s j) (rank l s (next_slot l c)));
                [apply Hstep; lia | apply I5; lia].
           ++ destruct IH as (I1 & I5). split; [assumption|].
              intros j Hj Hr.
              destruct (Z_lt_ge_dec (rank l s j) (rank l s (next_slot l c)));
                [apply Hstep; lia | apply I5; lia].
Qed.

Lemma land_range (h m : Z) : 0 <= h -> 0 <= m -> 0 <= Z.land h m <= m.
Proof.
  intros Hh Hm. split; [apply Z.land_nonneg; lia|].
  rewrite <- (Z2N.id h), <- (Z2N.id m) by lia.
  rewrite <- N2Z.inj_land. apply N2Z.inj_le. apply N.land_le_r.
Qed.

Lemma land_range_mask (h m : Z) : 0 <= m -> 0 <= Z.land h m <= m.
Proof.
  intros Hm. apply Z.ldiff_le; [assumption|].
  rewrite Z.ldiff_land, <- Z.land_assoc, Z.land_lnot_diag. apply Z.land_0_r.
Qed.

Lemma find_budget_ge (t : table) :
  numItems t < Z.of_nat (find_budget t) /\ Len (hashes t) < Z.of_nat (find_budget t) /\
  1 <= Z.of_nat (find_budget t).
Proof. unfold find_budget. lia. Qed.

(** [find] on a well-formed table: the three outcomes. *)
Lemma find_post_holds (t : table) (key : string) (h : Z) :
  WF t -> 0 <= h ->
  let s := Z.land h (numItems t - 1) in
  0 <= s < numItems t /\
  find_post t key h (numItems t) s s (find t key h).
Proof.
  intros W Hh s. pose proof (wf_numItems t W) as Hn.
  assert (Hs : 0 <= s < numItems t) by (pose proof (land_range h (numItems t - 1)); lia).
  split; [exact Hs|]. unfold find. fold s.
  apply find_loop_post; try assumption.
  pose proof (find_budget_ge t).
  pose proof (rank_range (numItems t) s s Hs Hs). lia.
Qed.

Lemma rank_start (l s : Z) : rank l s s = 0.
Proof. unfold rank. destruct (Z.leb_spec s s); lia. Qed.

(** With an empty slot somewhere, [find] returns. *)
Lemma find_returns (t : table) (key : string) (h : Z) :
  WF t -> 0 <= h ->
  (exists j, 0 <= j < numItems t /\ hashAt t j = 0) ->
  exists i b, find t key h = Ret (i, b) /\ 0 <= i < numItems t /\
              (b = true -> hashAt t i <> 0 /\ matches t key h i) /\
              (b = false -> hashAt t i = 0).
Proof.
  intros W Hh (j & Hj & Hz).
  destruct (find_post_holds t key h W Hh) as [Hs P].
  set (s := Z.land h (numItems t - 1)) in *.
  destruct (find t key h) as [[i [|]]|p]; cbn [find_post] in P.
  - destruct P as (P1 & _ & P3 & P4 & _). exists i, true.
    repeat split; try lia; try apply P4; try discriminate; try assumption.
  - destruct P as (P1 & _ & P3 & _). exists i, false.
    repeat split; try lia; try discriminate; try (intros _; assumption).
  - destruct P as (_ & P). exfalso.
    destruct (P j Hj) as [Hnz _]; [|contradiction].
    rewrite rank_start. pose proof (rank_range (numItems t) s j Hs Hj). lia.
Qed.

(** A result of [find] is always one of the three outcomes; in particular
    the budget of the model is never used up. *)
Lemma find_sound (t : table) (key : string) (h i : Z) (b : bool) :
  WF t -> 0 <= h -> find t key h = Ret (i, b) ->
  0 <= i < numItems t /\
  (b = true -> hashAt t i <> 0 /\ matches t key h i) /\
  (b = false -> hashAt t i = 0).
Proof.
  intros W Hh E. destruct (find_post_holds t key h W Hh) as [Hs P].
  rewrite E in P. destruct b; cbn [find_post] in P.
  - destruct P as (P1 & _ & P3 & P4 & _).
    repeat split; try lia; try apply P4; try discriminate; try assumption.
  - destruct P as (P1 & _ & P3 & _). repeat split; try lia; try discriminate; try (intros _; assumption).
Qed.

Lemma find_panics (t : table) (key : string) (h : Z) (p : panic) :
  WF t -> 0 <= h -> find t key h = Panic p ->
  p = OutOfSpace /\
  forall j, 0 <= j < numItems t -> hashAt t j <> 0 /\ ~ matches t key h j.
Proof.
  intros W Hh E. destruct (find_post_holds t key h W Hh) as [Hs P].
  rewrite E in P. cbn [find_post] in P. destruct P as [-> P]. split; [reflexivity|].
  intros j Hj. apply P; [assumption|].
  rewrite rank_start.
  pose proof (rank_range (numItems t) _ j Hs Hj). lia.
Qed.

Lemma Inv_WF (H : string -> Z) (t : table) : Inv H t -> WF t.
Proof.
  intros I. pose proof (inv_slots H t I) as Hsl. destruct I.
  constructor; try assumption; try lia.
  intros i Hi Hnz. destruct (Hsl i Hi Hnz) as (key & _ & Hv & _).
  exists key. exact Hv.
Qed.

(** ** The probe loop ends on every table *)

(** While the cursor cycles through the slots. *)
Lemma find_loop_cycle_ends (t : table) (key : string) (h l s : Z) :
  l <= Len (hashes t) -> 0 <= s < l ->
  forall (f : nat) (c : Z),
  0 <= c < l -> l - rank l s c <= Z.of_nat f ->
  find_loop f t key h l s c <> Panic Diverged.
Proof.
  intros Hl Hs. induction f as [|f IH]; intros c Hc Hf.
  - pose proof (rank_range l s c Hs Hc). lia.
  - cbn [find_loop]. rewrite elem_addr_ok by lia. cbn [bind].
    destruct (_ =? 0); [discriminate|].
    match goal with |- context [bind ?r _] => destruct r as [[|]|p] eqn:Em end; cbn [bind].
    + discriminate.
    + destruct (rank_next l s c Hs Hc) as (Hn1 & Hn2 & Hn3).
      fold (next_slot l c).
      destruct (Z.eqb_spec (next_slot l c) s) as [Es|Ns]; [discriminate|].
      apply IH; [assumption|]. specialize (Hn3 Ns). lia.
    + intros E. injection E as ->.
      destruct (_ =? h); [|discriminate].
      destruct (elem_addr (keys t) 8 c) as [ka|q] eqn:Ek; cbn [bind] in Em.
      * destruct (getKey t _) as [k|q] eqn:Eg; cbn [bind] in Em; [discriminate|].
        injection Em as ->. apply getKey_panic in Eg. discriminate.
      * injection Em as ->. apply elem_addr_panic in Ek. destruct Ek. discriminate.
Qed.

(** While the cursor only moves up, until it leaves the hashes slice. *)
Lemma find_loop_climb_ends (t : table) (key : string) (h l s : Z) :
  forall (f : nat) (c : Z),
  l <= c \/ Len (hashes t) < l ->
  1 <= Z.of_nat f -> Len (hashes t) - c + 1 <= Z.of_nat f ->
  find_loop f t key h l s c <> Panic Diverged.
Proof.
  induction f as [|f IH]; intros c Hm H1 Hf; [lia|].
  cbn [find_loop].
  destruct (elem_addr (hashes t) 4 c) as [a|q] eqn:Ea; cbn [bind].
  2:{ intros E. injection E as ->. apply elem_addr_panic in Ea. destruct Ea. discriminate. }
  apply elem_addr_inv in Ea as [Hc _].
  destruct (_ =? 0); [discriminate|].
  match goal with |- context [bind ?r _] => destruct r as [[|]|p] eqn:Em end; cbn [bind].
  - discriminate.
  - destruct (Z.eqb_spec (c + 1) l) as [El|Nl]; [lia|].
    destruct (c + 1 =? s); [discriminate|].
    apply IH; lia.
  - intros E. injection E as ->.
    destruct (_ =? h); [|discriminate].
    destruct (elem_addr (keys t) 8 c) as [ka|q] eqn:Ek; cbn [bind] in Em.
    + destruct (getKey t _) as [k|q] eqn:Eg; cbn [bind] in Em; [discriminate|].
      injection Em as ->. apply getKey_panic in Eg. discriminate.
    + injection Em as ->. apply elem_addr_panic in Ek. destruct Ek. discriminate.
Qed.

(** On every table, [find] returns or panics as the code does: the budget
    of the model is never the reason for its result. *)
Lemma find_never_diverges (t : table) (key : string) (h : Z) :
  find t key h <> Panic Diverged.
Proof.
  unfold find. set (l := numItems t). set (s := Z.land h (l - 1)).
  pose proof (find_budget_ge t) as (B1 & B2 & B3). fold l in B1.
  destruct (Z_lt_ge_dec s 0) as [Hneg|Hpos].
  - (* the first bounds check fails *)
    unfold find_budget. cbn [find_loop]. unfold elem_addr.
    destruct (Z.leb_spec 0 s); [lia|]. cbn [andb bind]. discriminate.
  - destruct (Z_lt_ge_dec s l) as [Hin|Hout].
    + destruct (Z_le_gt_dec l (Len (hashes t))) as [Hfit|Hbig].
      * apply find_loop_cycle_ends; try lia.
        pose proof (rank_range l s s ltac:(lia) ltac:(lia)). lia.
      * apply find_loop_climb_ends; lia.
    + apply find_loop_climb_ends; lia.
Qed.


(** ** Set_ *)

Lemma length_val_bytes (val : list Z) (vs : Z) :
  0 <= vs -> Z.of_nat (List.length (val_bytes val vs)) = vs.
Proof. intros H. unfold val_bytes. now apply length_load_bytes. Qed.

Lemma load_bytes_nat_of_bytes (v pre : list Z) (a : Z) :
  a = Z.of_nat (List.length pre) ->
  load_bytes_nat (mem_of_bytes (pre ++ v)) a (List.length v) = v.
Proof.
  revert pre a. induction v as [|x v IH]; intros pre a Ha; cbn [List.length load_bytes_nat].
  - reflexivity.
  - f_equal.
    + unfold mem_of_bytes. destruct (Z.ltb_spec a 0); [lia|].
      subst a. rewrite Nat2Z.id. apply nth_middle.
    + replace (pre ++ x :: v) with ((pre ++ [x]) ++ v) by (now rewrite <- app_assoc).
      apply IH. rewrite length_app. cbn [List.length]. lia.
Qed.

(** When the caller's buffer holds exactly [valueSize] bytes, they are the
    bytes copied. *)
Lemma val_bytes_id (val : list Z) : val_bytes val (Z.of_nat (List.length val)) = val.
Proof.
  unfold val_bytes, load_bytes. rewrite Nat2Z.id.
  apply (load_bytes_nat_of_bytes val []). reflexivity.
Qed.

Lemma slot_inside (n vs j : Z) : 0 <= vs -> 0 <= j < n -> 0 <= j * vs /\ j * vs + vs <= n * vs.
Proof. intros. nia. Qed.

Lemma slot_disjoint (vs c j : Z) :
  0 <= vs -> c <> j -> c * vs + vs <= j * vs \/ j * vs + vs <= c * vs.
Proof. intros. nia. Qed.

Section SetLemmas.

Variable H : string -> Z.

(** [Set_] on a key that is present: only the value bytes are written. *)
Lemma Set_found (t : table) (key : string) (val : list Z) (i : Z) :
  Inv H t ->
  find t key (hash (H key)) = Ret (i, true) ->
  exists t', Set_ H t key val = Ret t' /\ same_shape t t' /\
             keyOffset t' = keyOffset t /\
             memory t' = store_bytes (memory t) (value_addr t i)
                                     (val_bytes val (valueSize t)).
Proof.
  intros I E. pose proof (Inv_WF H t I) as W.
  destruct (find_sound t key _ i true W (proj1 (hash_range _)) E) as (Hi & _).
  destruct I as [In Ivs Ihl Ikl Ivl Ihp Ihk Ikv Ivd Ism Iko Isl].
  destruct (slot_inside (numItems t) (valueSize t) i Ivs Hi) as [S1 S2].
  unfold Set_. rewrite E. cbn [bind].
  rewrite wrap64_small by lia.
  rewrite slice_from_ok by lia. cbn [bind].
  eexists. split; [reflexivity|]. split; [repeat split|]. split; [reflexivity|].
  cbn [memory with_memory]. unfold copy. cbn [Data Len].
  rewrite firstn_all2.
  - reflexivity.
  - pose proof (length_val_bytes val (valueSize t) Ivs) as Hl. unfold val_bytes in Hl. lia.
Qed.

(** [Set_] on a key that is absent, when its record fits: the hash, the
    record, the key offset and the value are written, in this order. *)
Lemma Set_new (t : table) (key : string) (val : list Z) (j : Z) :
  Inv H t ->
  find t key (hash (H key)) = Ret (j, false) ->
  keyOffset t + Z.of_nat (List.length (key_record key)) <= Len (keyData t) ->
  exists t', Set_ H t key val = Ret t' /\ same_shape t t' /\
             keyOffset t' = keyOffset t + Z.of_nat (List.length (key_record key)) /\
             memory t' =
             store_bytes
               (store_bytes
                  (store_bytes
                     (store_bytes (memory t) (Data (hashes t) + 4 * j)
                                  (le_encode 4 (hash (H key))))
                     (Data (keyData t) + keyOffset t) (key_record key))
                  (Data (keys t) + 8 * j) (le_encode 8 (keyOffset t)))
               (value_addr t j) (val_bytes val (valueSize t)).
Proof.
  intros I E Hfit. pose proof (Inv_WF H t I) as W.
  destruct (find_sound t key _ j false W (proj1 (hash_range _)) E) as (Hj & _).
  destruct I as [In Ivs Ihl Ikl Ivl Ihp Ihk Ikv Ivd Ism Iko Isl].
  destruct (slot_inside (numItems t) (valueSize t) j Ivs Hj) as [S1 S2].
  unfold Set_. rewrite E. cbn [bind].
  rewrite elem_addr_ok by lia. cbn [bind].
  rewrite addKey_ok; cbn [keyOffset keyData with_memory memory]; try lia.
  cbn [bind]. cbn [keys with_keyOffset with_memory].
  rewrite elem_addr_ok by lia. cbn [bind].
  cbn [values valueSize memory with_memory with_keyOffset].
  rewrite wrap64_small by lia.
  rewrite slice_from_ok by lia. cbn [bind].
  eexists. split; [reflexivity|]. split; [repeat split|]. split; [reflexivity|].
  cbn [memory with_memory]. unfold copy. cbn [Data Len].
  rewrite firstn_all2.
  - reflexivity.
  - pose proof (length_val_bytes val (valueSize t) Ivs) as Hl. unfold val_bytes in Hl. lia.
Qed.


(** Reading a slot after memory changed elsewhere. *)
Lemma hashAt_frame (t t' : table) (c : Z) :
  hashes t' = hashes t ->
  (forall x, Data (hashes t) + 4 * c <= x < Data (hashes t) + 4 * c + 4 ->
             memory t' x = memory t x) ->
  hashAt t' c = hashAt t c.
Proof. intros E Hm. unfold hashAt. rewrite E. now apply load_u32_ext. Qed.

Lemma keyOffAt_frame (t t' : table) (c : Z) :
  keys t' = keys t ->
  (forall x, Data (keys t) + 8 * c <= x < Data (keys t) + 8 * c + 8 ->
             memory t' x = memory t x) ->
  keyOffAt t' c = keyOffAt t c.
Proof. intros E Hm. unfold keyOffAt. rewrite E. now apply load_i64_ext. Qed.

Lemma value_bytes_frame (t t' : table) (c : Z) :
  values t' = values t -> valueSize t' = valueSize t ->
  (forall x, value_addr t c <= x < value_addr t c + valueSize t ->
             memory t' x = memory t x) ->
  value_bytes t' (value_addr t' c) = value_bytes t (value_addr t c).
Proof.
  intros E1 E2 Hm. unfold value_bytes, value_addr in *. rewrite E1, E2.
  now apply load_bytes_ext.
Qed.

(** Under such a change the occupied slots other than [j] keep their
    contents, and every key that was found is found in the same slot. *)
Lemma frame_but_agree (t t' : table) (j : Z) :
  Inv H t -> same_shape t t' -> frame_but t j (memory t') ->
  (0 <= j < numItems t -> hashAt t j = 0) ->
  agree_on_occupied t t' /\
  (forall c, 0 <= c < numItems t -> c <> j ->
             hashAt t' c = hashAt t c /\ keyOffAt t' c = keyOffAt t c) /\
  (forall off key, valid_record (memory t) (keyData t) off key ->
                   off + Z.of_nat (List.length (key_record key)) <= keyOffset t ->
                   valid_record (memory t') (keyData t') off key).
Proof.
  intros I (Evs & En & Ea & Eh & Ek & Ev & Ed & El) (F1 & F2 & F3) Hj.
  assert (A2 : forall c, 0 <= c < numItems t -> c <> j ->
             hashAt t' c = hashAt t c /\ keyOffAt t' c = keyOffAt t c).
  { intros c Hc Hne. split.
    - apply hashAt_frame; [assumption|]. intros x Hx. now apply (F1 c).
    - apply keyOffAt_frame; [assumption|]. intros x Hx. now apply (F2 c). }
  assert (A3 : forall off key, valid_record (memory t) (keyData t) off key ->
                   off + Z.of_nat (List.length (key_record key)) <= keyOffset t ->
                   valid_record (memory t') (keyData t') off key).
  { intros off key Hv Hb. rewrite Ed. eapply valid_record_ext; [|exact Hv].
    intros x Hx. apply F3. destruct Hv as (Hoff & _). lia. }
  split; [|split; assumption].
  split; [assumption|]. split; [assumption|].
  intros c Hc Hnz. rewrite (inv_hashes H t I) in Hc.
  assert (Hne : c <> j) by (intros ->; apply Hnz; now apply Hj).
  destruct (A2 c Hc Hne) as [E1 E2]. split; [assumption|]. rewrite E2.
  destruct (inv_slots H t I c Hc Hnz) as (kc & _ & Hv & Hb & _).
  pose proof (inv_small H t I) as Hs. pose proof (inv_hashes_pos H t I).
  pose proof (inv_hk H t I). pose proof (inv_kv H t I). pose proof (inv_vd H t I).
  pose proof (inv_numItems H t I). pose proof (inv_valueSize H t I).
  pose proof (inv_values H t I). pose proof (inv_keyOffset H t I).
  assert (Hkd : Len (keyData t) < 2 ^ 62) by nia.
  rewrite (getKey_valid t _ kc Hkd Hv).
  apply getKey_valid; [rewrite Ed; assumption|]. now apply A3.
Qed.

Lemma find_frame (t t' : table) (k : string) (h c : Z) :
  agree_on_occupied t t' -> numItems t' = numItems t ->
  1 <= numItems t -> Len (hashes t) = numItems t -> Len (keys t) = numItems t ->
  0 <= h ->
  find t k h = Ret (c, true) -> find t' k h = Ret (c, true).
Proof.
  intros A En Hn Hh Hk Hh0 E. pose proof A as (Eh & _).
  unfold find, find_budget in *. rewrite En, Eh.
  pose proof (land_range h (numItems t - 1) Hh0 ltac:(lia)).
  eapply find_loop_frame; try eassumption; lia.
Qed.

Lemma find_new (t t' : table) (key : string) (h j : Z) :
  agree_on_occupied t t' -> numItems t' = numItems t ->
  1 <= numItems t -> Len (hashes t) = numItems t -> Len (keys t) = numItems t ->
  0 <= h -> h <> 0 ->
  hashAt t' j = h -> getKey t' (keyOffAt t' j) = Ret key ->
  find t key h = Ret (j, false) -> find t' key h = Ret (j, true).
Proof.
  intros A En Hn Hh Hk Hh0 Hnz Hj Hg E. pose proof A as (Eh & _).
  unfold find, find_budget in *. rewrite En, Eh.
  pose proof (land_range h (numItems t - 1) Hh0 ltac:(lia)).
  eapply find_loop_new; try eassumption; lia.
Qed.


(** The effect of [Set_] on a key that is present. *)
Lemma Set_found_Inv (t : table) (key : string) (val : list Z) (i : Z) :
  Inv H t ->
  find t key (hash (H key)) = Ret (i, true) ->
  exists t', Set_ H t key val = Ret t' /\ Inv H t' /\ same_shape t t' /\
    keyOffset t' = keyOffset t /\
    (forall c, 0 <= c < numItems t -> hashAt t' c = hashAt t c) /\
    (forall k c, find t k (hash (H k)) = Ret (c, true) ->
                 find t' k (hash (H k)) = Ret (c, true)) /\
    value_bytes t' (value_addr t' i) = val_bytes val (valueSize t) /\
    (forall c, 0 <= c < numItems t -> c <> i ->
               value_bytes t' (value_addr t' c) = value_bytes t (value_addr t c)).
Proof.
  intros I E.
  destruct (Set_found t key val i I E) as (t' & ES & Sh & Eko & Em).
  pose proof (Inv_WF H t I) as W.
  destruct (find_sound t key _ i true W (proj1 (hash_range _)) E) as (Hi & Hocc & _).
  destruct (Hocc eq_refl) as [Hnz _].
  pose proof Sh as (Evs & En & Ea & Eh & Ek & Ev & Ed & El).
  pose proof I as [In Ivs Ihl Ikl Ivl Ihp Ihk Ikv Ivd Ism Iko Isl].
  destruct (slot_inside (numItems t) (valueSize t) i Ivs Hi) as [S1 S2].
  pose proof (length_val_bytes val (valueSize t) Ivs) as Hvl.
  assert (Hout : forall x, x < value_addr t i \/ value_addr t i + valueSize t <= x ->
                           memory t' x = memory t x).
  { intros x Hx. rewrite Em. apply store_bytes_outside. lia. }
  assert (F : frame_but t (-1) (memory t')).
  { unfold value_addr in Hout. repeat split.
    - intros c x Hc _ Hx. apply Hout. lia.
    - intros c x Hc _ Hx. apply Hout. lia.
    - intros x Hx. apply Hout. lia. }
  destruct (frame_but_agree t t' (-1) I Sh F ltac:(lia)) as (A1 & A2 & A3).
  assert (FF : forall k c, find t k (hash (H k)) = Ret (c, true) ->
                 find t' k (hash (H k)) = Ret (c, true)).
  { intros k c Ek'. eapply find_frame; try eassumption. apply hash_range. }
  exists t'. split; [assumption|]. split; [|split; [assumption|split; [assumption|]]].
  - constructor; rewrite ?Evs, ?En, ?Eh, ?Ek, ?Ev, ?Ed, ?Eko; try assumption.
    intros c Hc Hnz'. destruct (A2 c Hc ltac:(lia)) as [E1 E2].
    rewrite E1 in *. rewrite E2.
    destruct (Isl c Hc Hnz') as (kc & K1 & K2 & K3 & K4).
    exists kc. split; [assumption|]. split; [|split; [assumption|now apply FF]].
    rewrite <- Ed. now apply A3.
  - split; [intros c Hc; apply (A2 c Hc); lia|]. split; [exact FF|]. split.
    + unfold value_bytes. rewrite Evs, Em. unfold value_addr. rewrite Ev, Evs.
      apply load_bytes_store_eq. exact Hvl.
    + intros c Hc Hne. apply value_bytes_frame; try assumption.
      intros x Hx. apply Hout. unfold value_addr in *.
      destruct (slot_disjoint (valueSize t) c i Ivs Hne); lia.
Qed.


(** The effect of [Set_] on a key that is absent and whose record fits. *)
Lemma Set_new_Inv (t : table) (key : string) (val : list Z) (j : Z) :
  Inv H t ->
  find t key (hash (H key)) = Ret (j, false) ->
  keyOffset t + Z.of_nat (List.length (key_record key)) <= Len (keyData t) ->
  exists t', Set_ H t key val = Ret t' /\ Inv H t' /\ same_shape t t' /\
    keyOffset t' = keyOffset t + Z.of_nat (List.length (key_record key)) /\
    hashAt t' j = hash (H key) /\
    (forall c, 0 <= c < numItems t -> c <> j -> hashAt t' c = hashAt t c) /\
    (hash (H key) <> 0 -> find t' key (hash (H key)) = Ret (j, true)) /\
    (forall k c, find t k (hash (H k)) = Ret (c, true) ->
                 find t' k (hash (H k)) = Ret (c, true)) /\
    value_bytes t' (value_addr t' j) = val_bytes val (valueSize t) /\
    (forall c, 0 <= c < numItems t -> c <> j ->
               value_bytes t' (value_addr t' c) = value_bytes t (value_addr t c)).
Proof.
  intros I E Hfit.
  destruct (Set_new t key val j I E Hfit) as (t' & ES & Sh & Eko & Em).
  pose proof (Inv_WF H t I) as W.
  destruct (find_sound t key _ j false W (proj1 (hash_range _)) E) as (Hj & _ & Hemp).
  specialize (Hemp eq_refl).
  pose proof Sh as (Evs & En & Ea & Eh & Ek & Ev & Ed & El).
  pose proof I as [In Ivs Ihl Ikl Ivl Ihp Ihk Ikv Ivd Ism Iko Isl].
  destruct (slot_inside (numItems t) (valueSize t) j Ivs Hj) as [S1 S2].
  pose proof (length_val_bytes val (valueSize t) Ivs) as Hvl.
  pose proof (length_key_record_bounds key) as Hrl.
  pose proof (hash_range (H key)) as Hhr.
  set (h := hash (H key)) in *.
  set (rec := key_record key) in *.
  set (vb := val_bytes val (valueSize t)) in *.
  set (m1 := store_bytes (memory t) (Data (hashes t) + 4 * j) (le_encode 4 h)) in *.
  set (m2 := store_bytes m1 (Data (keyData t) + keyOffset t) rec) in *.
  set (m3 := store_bytes m2 (Data (keys t) + 8 * j) (le_encode 8 (keyOffset t))) in *.
  unfold value_addr in Em.
  assert (L4 : Z.of_nat (List.length (le_encode 4 h)) = 4)
    by (rewrite length_le_encode; reflexivity).
  assert (L8 : Z.of_nat (List.length (le_encode 8 (keyOffset t))) = 8)
    by (rewrite length_le_encode; reflexivity).
  assert (O4 : forall x, x < Data (values t) + j * valueSize t \/
                         Data (values t) + j * valueSize t + valueSize t <= x ->
                         memory t' x = m3 x).
  { intros x Hx. rewrite Em. apply store_bytes_outside. lia. }
  assert (O3 : forall x, x < Data (keys t) + 8 * j \/ Data (keys t) + 8 * j + 8 <= x ->
                         m3 x = m2 x).
  { intros x Hx. unfold m3. apply store_bytes_outside. lia. }
  assert (O2 : forall x, x < Data (keyData t) + keyOffset t \/
                         Data (keyData t) + keyOffset t + Z.of_nat (List.length rec) <= x ->
                         m2 x = m1 x).
  { intros x Hx. unfold m2. apply store_bytes_outside. lia. }
  assert (O1 : forall x, x < Data (hashes t) + 4 * j \/ Data (hashes t) + 4 * j + 4 <= x ->
                         m1 x = memory t x).
  { intros x Hx. unfold m1. apply store_bytes_outside. lia. }
  assert (F : frame_but t j (memory t')).
  { repeat split.
    - intros c x Hc Hne Hx. rewrite O4, O3, O2, O1 by lia. reflexivity.
    - intros c x Hc Hne Hx. rewrite O4, O3, O2, O1 by lia. reflexivity.
    - intros x Hx. rewrite O4, O3, O2, O1 by lia. reflexivity. }
  destruct (frame_but_agree t t' j I Sh F ltac:(intros _; exact Hemp)) as (A1 & A2 & A3).
  assert (FF : forall k c, find t k (hash (H k)) = Ret (c, true) ->
                 find t' k (hash (H k)) = Ret (c, true)).
  { intros k c Ek'. eapply find_frame; try eassumption. apply hash_range. }
  assert (Hhj : hashAt t' j = h).
  { unfold hashAt. rewrite Eh.
    rewrite (load_u32_ext m1) by (intros x Hx; rewrite O4, O3, O2 by lia; reflexivity).
    unfold m1. fold (store_u32 (memory t) (Data (hashes t) + 4 * j) h).
    rewrite load_u32_store_u32. apply to_uint32_small. exact Hhr. }
  assert (Hkj : keyOffAt t' j = keyOffset t).
  { unfold keyOffAt. rewrite Ek.
    rewrite (load_i64_ext m3) by (intros x Hx; rewrite O4 by lia; reflexivity).
    unfold m3. fold (store_i64 m2 (Data (keys t) + 8 * j) (keyOffset t)).
    rewrite load_i64_store_i64.
    rewrite to_uint64_small by lia. apply wrap64_small. lia. }
  assert (Hrec : valid_record (memory t') (keyData t') (keyOffset t) key).
  { rewrite Ed. split; [lia|]. split; [exact Hfit|]. fold rec.
    rewrite (load_bytes_ext m2) by (intros x Hx; rewrite O4, O3 by lia; reflexivity).
    unfold m2. apply load_bytes_store_eq. reflexivity. }
  assert (Hkd : Len (keyData t') < 2 ^ 62) by (rewrite Ed; lia).
  assert (Hget : getKey t' (keyOffAt t' j) = Ret key)
    by (rewrite Hkj; now apply getKey_valid).
  assert (Hfj : h <> 0 -> find t' key h = Ret (j, true)).
  { intros Hnz. eapply find_new; try eassumption. lia. }
  exists t'. split; [assumption|]. split; [|split; [assumption|split; [assumption|]]].
  - constructor; rewrite ?Evs, ?En, ?Eh, ?Ek, ?Ev, ?Ed, ?Eko; try assumption; try lia.
    intros c Hc Hnz'. destruct (Z.eq_dec c j) as [->|Hne].
    + exists key. rewrite Hkj. fold h. rewrite Hhj in Hnz'.
      split; [assumption|]. split; [rewrite <- Ed; assumption|].
      split; [fold rec; lia|]. now apply Hfj.
    + destruct (A2 c Hc Hne) as [E1 E2]. rewrite E1 in *. rewrite E2.
      destruct (Isl c Hc Hnz') as (kc & K1 & K2 & K3 & K4).
      exists kc. split; [assumption|]. split; [|split; [lia|now apply FF]].
      rewrite <- Ed. now apply A3.
  - split; [exact Hhj|]. split; [intros c Hc Hne; now apply (A2 c Hc)|].
    split; [exact Hfj|]. split; [exact FF|]. split.
    + unfold value_bytes. rewrite Evs, Em. unfold value_addr. rewrite Ev, Evs.
      apply load_bytes_store_eq. exact Hvl.
    + intros c Hc Hne. apply value_bytes_frame; try assumption.
      intros x Hx. unfold value_addr in *.
      destruct (slot_inside (numItems t) (valueSize t) c Ivs Hc).
      destruct (slot_disjoint (valueSize t) c j Ivs Hne);
        rewrite O4, O3, O2, O1 by lia; reflexivity.
Qed.

End SetLemmas.


(** ** The layout and New *)

Lemma land_lnot7 (y : Z) : Z.land y (Z.lnot 7) = 8 * (y / 8).
Proof.
  change 7 with (Z.ones 3). rewrite <- Z.ldiff_land, Z.ldiff_ones_r by lia.
  rewrite Z.shiftr_div_pow2, Z.shiftl_mul_pow2 by lia. change (2 ^ 3) with 8. lia.
Qed.

Lemma roundUp_8 (x : Z) :
  0 <= x < 2 ^ 62 ->
  Layout.roundUp x 8 = 8 * ((x + 7) / 8) /\
  x <= Layout.roundUp x 8 <= x + 7.
Proof.
  intros Hx. unfold Layout.roundUp. cbv zeta.
  change (wrap64 8 - 1) with 7.
  rewrite wrap64_small by lia. rewrite land_lnot7.
  split; [reflexivity|].
  pose proof (Z.div_mod (x + 7) 8 ltac:(lia)).
  pose proof (Z.mod_pos_bound (x + 7) 8 ltac:(lia)). lia.
Qed.

(** The layout, for sizes that do not overflow. *)
Lemma offsets_spec (c vs tkl : Z) :
  1 <= c -> 0 <= vs -> 0 <= tkl -> 24 + (16 + vs) * c + tkl <= maxAlloc ->
  let o := Layout.offsets c vs tkl in
  Layout.o_hashes o = 16 /\
  Layout.o_keys o = 8 * ((16 + 4 * c + 7) / 8) /\
  16 + 4 * c <= Layout.o_keys o <= 16 + 4 * c + 7 /\
  Layout.o_values o = Layout.o_keys o + 8 * c /\
  Layout.o_keyData o = Layout.o_values o + vs * c /\
  Layout.o_length o = Layout.o_keyData o + tkl + 4 * c.
Proof.
  intros Hc Hvs Htkl Hsz. unfold maxAlloc in Hsz.
  assert (Hvc : 0 <= vs * c) by nia.
  assert (B : 16 * c + vs * c + tkl <= 2 ^ 48 - 24) by nia.
  assert (P : 2 ^ 48 < 2 ^ 62) by (vm_compute; reflexivity).
  unfold Layout.offsets. cbv zeta.
  unfold Layout.sizeof_header, Layout.sizeof_hash, Layout.sizeof_keyOffset,
    Layout.alignof_keyOffset, Layout.sizeof_stringLength.
  cbn [Layout.o_hashes Layout.o_keys Layout.o_values Layout.o_keyData Layout.o_length].
  rewrite (wrap64_small (4 * c)) by lia.
  rewrite (wrap64_small (16 + 4 * c)) by lia.
  destruct (roundUp_8 (16 + 4 * c) ltac:(lia)) as [RE RB].
  rewrite (wrap64_small (8 * c)) by lia.
  rewrite (wrap64_small (Layout.roundUp (16 + 4 * c) 8 + 8 * c)) by lia.
  rewrite (wrap64_small (vs * c)) by lia.
  rewrite (wrap64_small (Layout.roundUp (16 + 4 * c) 8 + 8 * c + vs * c)) by lia.
  rewrite (wrap64_small (Layout.roundUp (16 + 4 * c) 8 + 8 * c + vs * c + tkl)) by lia.
  rewrite (wrap64_small (Layout.roundUp (16 + 4 * c) 8 + 8 * c + vs * c + tkl + 4 * c)) by lia.
  repeat split; try lia; try exact RE.
Qed.

(** The first four offsets do not depend on the total key length. *)
Lemma offsets_tkl (c vs tkl : Z) :
  Layout.o_hashes (Layout.offsets c vs tkl) = Layout.o_hashes (Layout.offsets c vs 0) /\
  Layout.o_keys (Layout.offsets c vs tkl) = Layout.o_keys (Layout.offsets c vs 0) /\
  Layout.o_values (Layout.offsets c vs tkl) = Layout.o_values (Layout.offsets c vs 0) /\
  Layout.o_keyData (Layout.offsets c vs tkl) = Layout.o_keyData (Layout.offsets c vs 0).
Proof.
  unfold Layout.offsets.
  cbn [Layout.o_hashes Layout.o_keys Layout.o_values Layout.o_keyData].
  repeat split; reflexivity.
Qed.

Section NewLemmas.

Variable H : string -> Z.

(** [New] with sizes that fit returns an empty table that satisfies the
    invariant. *)
Lemma New_Inv (n vs tkl : Z) (heap : mem) :
  sized n vs tkl ->
  exists t, New n vs tkl heap = Ret t /\ Inv H t /\
            numItems t = New_numItems n /\ valueSize t = vs /\
            keyOffset t = 0 /\
            Len (keyData t) = tkl + 4 * New_numItems n /\
            (forall c, 0 <= c < numItems t -> hashAt t c = 0) /\
            laid_out t /\
            length t - 14 <= 8 * Len (arena t) <= length t - 7 /\
            (forall x, 8 * Len (arena t) <= x -> memory t x = heap x).
Proof.
  intros (Hn & Hvs & Htkl & Hsz).
  destruct (New_numItems_spec n Hn) as (k & Hk & Ek & Hle & Hlt).
  set (c := New_numItems n) in *.
  assert (Hc : 1 <= c) by lia.
  destruct (offsets_spec c vs tkl Hc Hvs Htkl Hsz) as (O1 & O2 & O3 & O4 & O5 & O6).
  unfold maxAlloc in Hsz.
  assert (Hvc : 0 <= vs * c) by nia.
  assert (B : 16 * c + vs * c + tkl <= 2 ^ 48 - 24) by nia.
  assert (P : 2 ^ 48 < 2 ^ 62) by (vm_compute; reflexivity).
  unfold New. fold c. cbv zeta.
  set (o := Layout.offsets c vs tkl) in *.
  set (len := Layout.o_length o) in *.
  assert (Hlen : 36 <= len <= 2 ^ 48 - 1) by lia.
  rewrite (wrap64_small (len + 1)) by lia.
  rewrite Z.quot_div_nonneg by lia.
  pose proof (Z.div_mod (len + 1) 8 ltac:(lia)) as Hdm.
  pose proof (Z.mod_pos_bound (len + 1) 8 ltac:(lia)) as Hmb.
  set (q := (len + 1) / 8) in *.
  rewrite (wrap64_small (q - 1)) by lia.
  unfold make_int64, maxAlloc.
  destruct (Z.ltb_spec (q - 1) 0); [lia|].
  destruct (Z.ltb_spec (2 ^ 48) (8 * (q - 1))); [lia|].
  cbn [orb bind Data].
  eexists. split; [reflexivity|].
  assert (Enk : wrap64 (c * vs) = c * vs) by (apply wrap64_small; lia).
  assert (Ekd : wrap64 (len - Layout.o_keyData o) = tkl + 4 * c)
    by (rewrite wrap64_small; lia).
  assert (Hz : forall i, 0 <= i < c ->
     hashAt {| valueSize := vs; numItems := c; arena := {| Data := 0; Len := q - 1 |};
               hashes := {| Data := 0 + Layout.o_hashes o; Len := c |};
               keys := {| Data := 0 + Layout.o_keys o; Len := c |};
               values := {| Data := 0 + Layout.o_values o; Len := wrap64 (c * vs) |};
               keyData := {| Data := 0 + Layout.o_keyData o;
                             Len := wrap64 (len - Layout.o_keyData o) |};
               keyOffset := 0; length := len;
               memory := fun a => if (0 <=? a) && (a <? 8 * (q - 1)) then 0 else heap a |} i = 0).
  { intros i Hi. unfold hashAt. cbn [memory hashes Data].
    apply load_u32_zero. intros x Hx.
    destruct (Z.leb_spec 0 x); [|lia].
    destruct (Z.ltb_spec x (8 * (q - 1))); [reflexivity|].
    exfalso. destruct (Z.eq_dec c 1) as [E1|N1].
    - rewrite E1 in *. change ((16 + 4 * 1 + 7) / 8) with 3 in O2. lia.
    - lia. }
  split; [|split; [reflexivity|]; split; [reflexivity|]; split; [reflexivity|];
             split; [cbn [keyData Len]; lia|]; split; [exact Hz|]; split; [|split]].
  2:{ unfold laid_out.
      cbn [numItems valueSize arena hashes keys values keyData length Data Len].
      destruct (offsets_tkl c vs tkl) as (T1 & T2 & T3 & T4).
      rewrite <- T1, <- T2, <- T3, <- T4. fold o. rewrite Ekd.
      repeat split; lia. }
  2:{ cbn [length arena Len]. lia. }
  2:{ intros x. cbn [memory arena Len]. intros Hx.
      destruct (Z.ltb_spec x (8 * (q - 1))); [lia|]. now rewrite andb_false_r. }
  constructor; cbn [numItems valueSize hashes keys values keyData keyOffset Data Len];
    rewrite ?Enk, ?Ekd; try lia.
  intros i Hi Hnz. exfalso. apply Hnz. now apply Hz.
Qed.

End NewLemmas.


(** ** Runs of Set_ *)

Lemma model_of_snoc (done : list (string * list Z)) (k : string) (v : list Z) :
  model_of (done ++ [(k, v)]) = update (model_of done) k v.
Proof. unfold model_of. rewrite fold_left_app. reflexivity. Qed.

Lemma total_record_length_app (a b : list (string * list Z)) :
  total_record_length (a ++ b) = total_record_length a + total_record_length b.
Proof.
  induction a as [|x a IH]; [reflexivity|].
  change (total_record_length ((x :: a) ++ b))
    with (Z.of_nat (List.length (key_record (fst x))) + total_record_length (a ++ b)).
  change (total_record_length (x :: a))
    with (Z.of_nat (List.length (key_record (fst x))) + total_record_length a).
  lia.
Qed.

Lemma total_record_length_nonneg (a : list (string * list Z)) : 0 <= total_record_length a.
Proof.
  induction a as [|x a IH]; [cbn; lia|].
  change (total_record_length (x :: a))
    with (Z.of_nat (List.length (key_record (fst x))) + total_record_length a).
  lia.
Qed.

(** The budget of [New]: four bytes of length prefix for each key. *)
Lemma total_record_length_budget (kvs : list (string * list Z)) :
  Forall (fun kv => Z.of_nat (String.length (fst kv)) < 2 ^ 27) kvs ->
  total_record_length kvs <= total_key_length kvs + 4 * Z.of_nat (List.length kvs).
Proof.
  induction 1 as [|x l Hx _ IH]; [cbn; lia|].
  change (total_record_length (x :: l))
    with (Z.of_nat (List.length (key_record (fst x))) + total_record_length l).
  change (total_key_length (x :: l))
    with (Z.of_nat (String.length (fst x)) + total_key_length l).
  cbn [List.length].
  pose proof (length_key_record_budget (fst x) Hx). lia.
Qed.

Lemma In_slots (t : table) (i : Z) : In i (slots t) <-> 0 <= i < numItems t.
Proof.
  unfold slots. rewrite in_map_iff. split.
  - intros (k & <- & Hk). apply in_seq in Hk. lia.
  - intros Hi. exists (Z.to_nat i). split; [lia|]. apply in_seq. lia.
Qed.

Lemma NoDup_slots (t : table) : NoDup (slots t).
Proof.
  unfold slots. generalize (seq_NoDup (Z.to_nat (numItems t)) 0).
  generalize (seq 0 (Z.to_nat (numItems t))). intros l. induction 1 as [|x l Hx _ IH].
  - constructor.
  - cbn [map]. constructor; [|assumption].
    rewrite in_map_iff. intros (y & Ey & Hy). apply Nat2Z.inj in Ey. now subst.
Qed.

Lemma length_slots (t : table) : 0 <= numItems t -> Z.of_nat (List.length (slots t)) = numItems t.
Proof. intros Hn. unfold slots. rewrite length_map, length_seq. lia. Qed.

Lemma filter_one_change (p p' : Z -> bool) (j : Z) (l : list Z) :
  NoDup l -> (forall x, In x l -> x <> j -> p' x = p x) ->
  (List.length (filter p l) <= List.length (filter p' l) + 1)%nat.
Proof.
  induction 1 as [|x l Hx Hnd IH]; intros Hp; cbn [filter List.length]; [lia|].
  destruct (Z.eq_dec x j) as [->|Hne].
  - rewrite (filter_ext_in p' p l).
    + destruct (p j), (p' j); cbn [List.length]; lia.
    + intros y Hy. apply Hp; [now right|]. intros ->. contradiction.
  - rewrite (Hp x (or_introl eq_refl) Hne).
    specialize (IH (fun y Hy => Hp y (or_intror Hy))).
    destruct (p x); cbn [List.length]; lia.
Qed.

Lemma filter_nonempty (p : Z -> bool) (l : list Z) :
  (0 < List.length (filter p l))%nat -> exists x, In x l /\ p x = true.
Proof.
  induction l as [|x l IH]; cbn [filter List.length]; [lia|].
  destruct (p x) eqn:E.
  - intros _. exists x. split; [now left|assumption].
  - intros Hl. destruct (IH Hl) as (y & Hy & Py). exists y. split; [now right|assumption].
Qed.

Lemma empty_slot_exists (t : table) :
  (0 < List.length (empty_slots t))%nat ->
  exists j, 0 <= j < numItems t /\ hashAt t j = 0.
Proof.
  intros Hl. destruct (filter_nonempty _ _ Hl) as (j & Hj & Pj).
  exists j. split; [now apply In_slots|now apply Z.eqb_eq].
Qed.

Lemma empty_slots_same (t t' : table) :
  numItems t' = numItems t ->
  (forall c, 0 <= c < numItems t -> hashAt t' c = hashAt t c) ->
  empty_slots t' = empty_slots t.
Proof.
  intros En Hh. unfold empty_slots, slots. rewrite En.
  apply filter_ext_in. intros c Hc. rewrite Hh; [reflexivity|].
  now apply (In_slots t).
Qed.

Lemma empty_slots_but_one (t t' : table) (j : Z) :
  numItems t' = numItems t ->
  (forall c, 0 <= c < numItems t -> c <> j -> hashAt t' c = hashAt t c) ->
  (List.length (empty_slots t) <= List.length (empty_slots t') + 1)%nat.
Proof.
  intros En Hh. unfold empty_slots.
  replace (slots t') with (slots t) by (unfold slots; now rewrite En).
  apply (filter_one_change _ _ j); [apply NoDup_slots|].
  intros c Hc Hne. rewrite Hh; [reflexivity| |assumption]. now apply In_slots.
Qed.

Lemma empty_slots_all (t : table) :
  0 <= numItems t -> (forall c, 0 <= c < numItems t -> hashAt t c = 0) ->
  Z.of_nat (List.length (empty_slots t)) = numItems t.
Proof.
  intros Hn Hz. unfold empty_slots.
  rewrite (filter_ext_in _ (fun _ => true)).
  - replace (filter (fun _ => true) (slots t)) with (slots t); [now apply length_slots|].
    induction (slots t) as [|x l IH]; cbn [filter]; [reflexivity|now rewrite <- IH].
  - intros c Hc. apply Z.eqb_eq. apply Hz. now apply In_slots.
Qed.

Section Runs.

Variable H : string -> Z.

(** Two keys found in the same slot are the same key. *)
Lemma find_same_slot (t : table) (k k' : string) (i : Z) :
  Inv H t ->
  find t k (hash (H k)) = Ret (i, true) ->
  find t k' (hash (H k')) = Ret (i, true) -> k = k'.
Proof.
  intros I E E'. pose proof (Inv_WF H t I) as W.
  destruct (find_sound t k _ i true W (proj1 (hash_range _)) E) as (_ & M & _).
  destruct (find_sound t k' _ i true W (proj1 (hash_range _)) E') as (_ & M' & _).
  destruct (M eq_refl) as (_ & _ & V). destruct (M' eq_refl) as (_ & _ & V').
  eapply valid_record_inj; try eassumption. apply (wf_keyData t W).
Qed.

Lemma New_Built (n vs tkl : Z) (heap : mem) :
  sized n vs tkl ->
  exists t, New n vs tkl heap = Ret t /\ Built H t [] /\
            numItems t = New_numItems n /\ valueSize t = vs /\
            Len (keyData t) = tkl + 4 * New_numItems n.
Proof.
  intros S. destruct (New_Inv H n vs tkl heap S) as (t & E & I & En & Evs & Eko & Ekd & Hz & _ & _ & _).
  exists t. split; [assumption|]. split; [|repeat split; assumption].
  pose proof (inv_numItems H t I) as Hn.
  constructor.
  - assumption.
  - intros key v Hm. discriminate.
  - intros i Hi Hnz. exfalso. apply Hnz. now apply Hz.
  - rewrite empty_slots_all by (try lia; assumption). cbn [List.length]. lia.
  - rewrite Eko. cbn. lia.
Qed.

(** One more call: it returns when a slot is free and the record fits, and
    the builder then describes the longer run. *)
Lemma Built_step (t : table) (done : list (string * list Z)) (k : string) (v : list Z) :
  Built H t done ->
  Z.of_nat (List.length done) < numItems t ->
  total_record_length (done ++ [(k, v)]) <= Len (keyData t) ->
  exists t', Set_ H t k v = Ret t' /\ Built H t' (done ++ [(k, v)]) /\ same_shape t t'.
Proof.
  intros [I Bg Bo Be Bk] Hfree Hroom.
  pose proof (Inv_WF H t I) as W.
  pose proof (hash_range (H k)) as Hhr.
  rewrite total_record_length_app in Hroom.
  change (total_record_length [(k, v)])
    with (Z.of_nat (List.length (key_record k)) + 0) in Hroom.
  destruct (empty_slot_exists t ltac:(lia)) as (e & He & Hez).
  destruct (find_returns t k (hash (H k)) W (proj1 Hhr) (ex_intro _ e (conj He Hez)))
    as (i & b & E & Hi & Hbt & Hbf).
  destruct b.
  - (* the key is present *)
    destruct (Hbt eq_refl) as [Hnz _].
    destruct (Set_found_Inv H t k v i I E)
      as (t' & ES & I' & Sh & Eko & Hh & FF & Vi & Vo).
    pose proof Sh as (Evs & En & _).
    exists t'. split; [assumption|]. split; [|assumption].
    constructor.
    + assumption.
    + intros key w Hm Hnz'. rewrite model_of_snoc in Hm. unfold update in Hm.
      destruct (String.eqb_spec key k) as [->|Hne].
      * injection Hm as <-. exists i. split; [now apply FF|]. now rewrite Evs.
      * destruct (Bg key w Hm Hnz') as (c & Ec & Vc).
        exists c. split; [now apply FF|].
        destruct (find_sound t key _ c true W (proj1 (hash_range _)) Ec) as (Hc & _).
        rewrite Evs. rewrite Vo; [exact Vc|exact Hc|].
        intros ->. apply Hne. eapply (find_same_slot t); eassumption.
    + intros c Hc Hnz'. rewrite En in Hc. rewrite Hh in Hnz' by assumption.
      destruct (Bo c Hc Hnz') as (key & Ek & Hm).
      exists key. split; [now apply FF|].
      rewrite model_of_snoc. unfold update. destruct (String.eqb key k); [discriminate|assumption].
    + rewrite (empty_slots_same t t') by assumption.
      rewrite En, length_app. cbn [List.length]. lia.
    + rewrite Eko, total_record_length_app.
      pose proof (total_record_length_nonneg [(k, v)]). lia.
  - (* the key is absent *)
    specialize (Hbf eq_refl).
    destruct (Set_new_Inv H t k v i I E ltac:(lia))
      as (t' & ES & I' & Sh & Eko & Hhj & Hh & Fj & FF & Vi & Vo).
    pose proof Sh as (Evs & En & _).
    exists t'. split; [assumption|]. split; [|assumption].
    constructor.
    + assumption.
    + intros key w Hm Hnz'. rewrite model_of_snoc in Hm. unfold update in Hm.
      destruct (String.eqb_spec key k) as [->|Hne].
      * injection Hm as <-. exists i. split; [now apply Fj|]. now rewrite Evs.
      * destruct (Bg key w Hm Hnz') as (c & Ec & Vc).
        exists c. split; [now apply FF|].
        destruct (find_sound t key _ c true W (proj1 (hash_range _)) Ec) as (Hc & Hoc & _).
        rewrite Evs. rewrite Vo; [exact Vc|exact Hc|].
        intros ->. destruct (Hoc eq_refl) as [Hnz _]. contradiction.
    + intros c Hc Hnz'. rewrite En in Hc.
      destruct (Z.eq_dec c i) as [->|Hne].
      * exists k. rewrite Hhj in Hnz'. split; [now apply Fj|].
        rewrite model_of_snoc. unfold update. rewrite String.eqb_refl. discriminate.
      * rewrite Hh in Hnz' by assumption.
        destruct (Bo c Hc Hnz') as (key & Ek & Hm).
        exists key. split; [now apply FF|].
        rewrite model_of_snoc. unfold update.
        destruct (String.eqb key k); [discriminate|assumption].
    + pose proof (empty_slots_but_one t t' i En Hh).
      rewrite En, length_app. cbn [List.length]. lia.
    + rewrite Eko, total_record_length_app.
      change (total_record_length [(k, v)])
        with (Z.of_nat (List.length (key_record k)) + 0). lia.
Qed.

Lemma same_shape_refl (t : table) : same_shape t t.
Proof. repeat split. Qed.

Lemma same_shape_trans (t1 t2 t3 : table) :
  same_shape t1 t2 -> same_shape t2 t3 -> same_shape t1 t3.
Proof.
  intros (A1 & A2 & A3 & A4 & A5 & A6 & A7 & A8) (B1 & B2 & B3 & B4 & B5 & B6 & B7 & B8).
  repeat split; congruence.
Qed.

(** A run of calls no longer than the table, whose records fit. *)
Lemma SetAll_Built (rest : list (string * list Z)) :
  forall (done : list (string * list Z)) (t : table),
  Built H t done ->
  Z.of_nat (List.length (done ++ rest)) <= numItems t ->
  total_record_length (done ++ rest) <= Len (keyData t) ->
  exists t', SetAll H t rest = Ret t' /\ Built H t' (done ++ rest) /\ same_shape t t'.
Proof.
  induction rest as [|[k v] rest IH]; intros done t B Hlen Hroom.
  - exists t. rewrite app_nil_r. split; [reflexivity|]. split; [assumption|apply same_shape_refl].
  - replace (done ++ (k, v) :: rest) with ((done ++ [(k, v)]) ++ rest) in *
      by (now rewrite <- app_assoc).
    rewrite !length_app in Hlen. cbn [List.length] in Hlen.
    rewrite total_record_length_app in Hroom.
    pose proof (total_record_length_nonneg rest).
    destruct (Built_step t done k v B ltac:(lia) ltac:(lia)) as (t1 & E1 & B1 & S1).
    pose proof S1 as (_ & En & _ & _ & _ & _ & Ed & _).
    destruct (IH (done ++ [(k, v)]) t1 B1) as (t' & E' & B' & S').
    + rewrite En, !length_app. cbn [List.length]. lia.
    + rewrite Ed, total_record_length_app. lia.
    + exists t'. cbn [SetAll]. rewrite E1. cbn [bind].
      split; [assumption|]. split; [assumption|]. eapply same_shape_trans; eassumption.
Qed.

End Runs.


(** ** GetPtr *)

Section GetLemmas.

Variable H : string -> Z.

Lemma GetPtr_found (t : table) (key : string) (i : Z) :
  0 <= i < numItems t -> 1 <= valueSize t ->
  Len (values t) = numItems t * valueSize t -> Len (values t) < 2 ^ 62 ->
  find t key (hash (H key)) = Ret (i, true) ->
  GetPtr H (Some t) key = Ret (Some (value_addr t i), true).
Proof.
  intros Hi Hvs Hl Hs E. unfold GetPtr. rewrite E. cbn [bind].
  assert (0 <= i * valueSize t /\ i * valueSize t + valueSize t <= numItems t * valueSize t)
    as [S1 S2] by (apply slot_inside; lia).
  rewrite wrap64_small by lia. rewrite elem_addr_ok by lia. cbn [bind].
  unfold value_addr. do 3 f_equal. lia.
Qed.

Lemma GetPtr_notfound (t : table) (key : string) (i : Z) :
  find t key (hash (H key)) = Ret (i, false) ->
  GetPtr H (Some t) key = Ret (None, false).
Proof. intros E. unfold GetPtr. rewrite E. reflexivity. Qed.

Lemma GetPtr_panic (t : table) (key : string) (p : panic) :
  find t key (hash (H key)) = Panic p -> GetPtr H (Some t) key = Panic p.
Proof. intros E. unfold GetPtr. rewrite E. reflexivity. Qed.

End GetLemmas.

(** ** Writing a table and opening the file *)

Lemma find_loop_ext (t r : table) (key : string) (h l s : Z) :
  Len (hashes r) = Len (hashes t) -> Len (keys r) = Len (keys t) ->
  Len (keys t) = Len (hashes t) ->
  (forall c, 0 <= c < Len (hashes t) ->
             hashAt r c = hashAt t c /\
             (hashAt t c <> 0 -> getKey r (keyOffAt r c) = getKey t (keyOffAt t c))) ->
  forall (f : nat) (c : Z), 0 <= c < l -> l <= Len (hashes t) ->
  find_loop f r key h l s c = find_loop f t key h l s c.
Proof.
  intros Eh Ek Hk Hag. induction f as [|f IH]; intros c Hc Hl; [reflexivity|].
  rewrite !find_loop_step by lia.
  destruct (Hag c ltac:(lia)) as [E1 E2]. rewrite E1.
  destruct (Z.eqb_spec (hashAt t c) 0) as [Hz|Hnz]; [reflexivity|].
  rewrite (E2 Hnz).
  destruct (if hashAt t c =? h
            then k <- getKey t (keyOffAt t c);; Ret (String.eqb k key)
            else Ret false) as [[|]|p]; cbn [bind]; try reflexivity.
  destruct (next_slot l c =? s); [reflexivity|].
  apply IH; [|assumption]. unfold next_slot. destruct (Z.eqb_spec (c + 1) l); lia.
Qed.

Lemma nth_load_bytes_nat (m : mem) (n k : nat) (a d : Z) :
  (k < n)%nat -> nth k (load_bytes_nat m a n) d = m (a + Z.of_nat k).
Proof.
  revert a k. induction n as [|n IH]; intros a k Hk; [lia|].
  cbn [load_bytes_nat]. destruct k as [|k]; cbn [nth].
  - f_equal. lia.
  - rewrite IH by lia. f_equal. lia.
Qed.

Lemma load_bytes_nat_mid (v pre post : list Z) (a : Z) :
  a = Z.of_nat (List.length pre) ->
  load_bytes_nat (mem_of_bytes (pre ++ v ++ post)) a (List.length v) = v.
Proof.
  revert pre a. induction v as [|x v IH]; intros pre a Ha; cbn [List.length load_bytes_nat].
  - reflexivity.
  - f_equal.
    + unfold mem_of_bytes. destruct (Z.ltb_spec a 0); [lia|].
      subst a. rewrite Nat2Z.id. cbn [app]. apply nth_middle.
    + replace (pre ++ (x :: v) ++ post) with ((pre ++ [x]) ++ v ++ post)
        by (now rewrite <- app_assoc).
      apply IH. rewrite length_app. cbn [List.length]. lia.
Qed.

Lemma length_header_bytes (t : table) : List.length (header_bytes t) = 16%nat.
Proof. unfold header_bytes. now rewrite length_app, !length_le_encode. Qed.

(** [WriteTo] on an empty writer: the header, then the whole arena. *)
Lemma WriteTo_spec (t : table) :
  0 <= length t < 2 ^ 62 ->
  WriteTo t [] =
  (16 + length t,
   header_bytes t ++ load_bytes (memory t) (Data (arena t)) (length t)).
Proof.
  intros Hl. unfold WriteTo. cbv zeta. fold (header_bytes t).
  rewrite length_header_bytes, length_load_bytes by lia.
  rewrite wrap64_small by lia. reflexivity.
Qed.

Lemma file_byte (t : table) (x : Z) :
  0 <= x < length t ->
  mem_of_bytes (header_bytes t ++ load_bytes (memory t) (Data (arena t)) (length t)) (16 + x)
  = memory t (Data (arena t) + x).
Proof.
  intros Hx. unfold mem_of_bytes. destruct (Z.ltb_spec (16 + x) 0); [lia|].
  rewrite app_nth2 by (rewrite length_header_bytes; lia).
  rewrite length_header_bytes. unfold load_bytes.
  replace (Z.to_nat (16 + x) - 16)%nat with (Z.to_nat x) by lia.
  rewrite nth_load_bytes_nat by lia. f_equal. lia.
Qed.

Lemma file_header (t : table) (rest : list Z) :
  - 2 ^ 63 <= numItems t < 2 ^ 63 -> - 2 ^ 63 <= valueSize t < 2 ^ 63 ->
  load_i64 (mem_of_bytes (header_bytes t ++ rest)) 0 = numItems t /\
  load_i64 (mem_of_bytes (header_bytes t ++ rest)) 8 = valueSize t.
Proof.
  intros Hn Hv. unfold load_i64, load_bytes, header_bytes.
  assert (W : forall z, - 2 ^ 63 <= z < 2 ^ 63 -> wrap64 (z mod 256 ^ Z.of_nat 8) = z).
  { intros z Hz. change (256 ^ Z.of_nat 8) with (2 ^ 64). unfold wrap64.
    rewrite Zplus_mod_idemp_l. rewrite Z.mod_small; lia. }
  split.
  - rewrite <- app_assoc.
    pose proof (load_bytes_nat_mid (le_encode 8 (numItems t)) []
                  (le_encode 8 (valueSize t) ++ rest) 0 eq_refl) as X.
    cbn [app] in X. rewrite length_le_encode in X.
    change (Z.to_nat 8) with 8%nat. rewrite X.
    rewrite le_decode_encode. now apply W.
  - rewrite <- app_assoc.
    pose proof (load_bytes_nat_mid (le_encode 8 (valueSize t)) (le_encode 8 (numItems t))
                  rest 8 ltac:(now rewrite length_le_encode)) as X.
    rewrite length_le_encode in X.
    change (Z.to_nat 8) with 8%nat. rewrite X.
    rewrite le_decode_encode. now apply W.
Qed.

Lemma load_bytes_shift (m m' : mem) (a d n : Z) :
  (forall x, a <= x < a + n -> m' (d + x) = m x) ->
  load_bytes m' (d + a) n = load_bytes m a n.
Proof.
  intros Hs. unfold load_bytes.
  assert (G : forall (k : nat) (a : Z),
             (forall x, a <= x < a + Z.of_nat k -> m' (d + x) = m x) ->
             load_bytes_nat m' (d + a) k = load_bytes_nat m a k).
  { induction k as [|k IH]; intros b Hb; cbn [load_bytes_nat]; [reflexivity|].
    rewrite Hb by lia. f_equal.
    replace (d + b + 1) with (d + (b + 1)) by lia. apply IH. intros x Hx. apply Hb. lia. }
  apply G. intros x Hx. apply Hs. lia.
Qed.

Lemma laid_out_same_shape (t t' : table) : same_shape t t' -> laid_out t -> laid_out t'.
Proof.
  intros (Evs & En & Ea & Eh & Ek & Ev & Ed & El). unfold laid_out.
  now rewrite Evs, En, Ea, Eh, Ek, Ev, Ed, El.
Qed.

Section RoundTrip.

Variable H : string -> Z.

(** The view opened on the file of a builder: the same sizes, the sections
    16 bytes further (the header), the same contents, and the same result
    of every lookup. *)
Lemma view_of_builder (t : table) :
  Inv H t -> laid_out t ->
  let r := tbl (NewFromBytes (snd (WriteTo t []))) in
  fst (WriteTo t []) = 16 + length t /\
  Z.of_nat (List.length (snd (WriteTo t []))) = 16 + length t /\
  numItems r = numItems t /\ valueSize r = valueSize t /\ Cap r = Cap t /\
  Data (hashes r) = 16 + Data (hashes t) /\
  Data (keys r) = 16 + Data (keys t) /\
  Data (values r) = 16 + Data (values t) /\
  Data (keyData r) = 16 + Data (keyData t) /\
  Len (values r) = Len (values t) /\
  (forall x, 0 <= x < length t -> memory r (16 + x) = memory t x) /\
  (forall key h, find r key h = find t key h).
Proof.
  intros I (La & Lh & Lk & Lv & Ld & Ll).
  pose proof I as [In Ivs Ihl Ikl Ivl Ihp Ihk Ikv Ivd Ism Iko Isl].
  assert (Hvn : 0 <= numItems t * valueSize t) by nia.
  assert (Hlen : 0 <= length t < 2 ^ 62) by lia.
  rewrite (WriteTo_spec t Hlen). cbn [fst snd].
  set (f := header_bytes t ++ load_bytes (memory t) (Data (arena t)) (length t)).
  assert (Hfl : Z.of_nat (List.length f) = 16 + length t).
  { unfold f. rewrite length_app, length_header_bytes.
    pose proof (length_load_bytes (memory t) (Data (arena t)) (length t)). lia. }
  destruct (file_header t (load_bytes (memory t) (Data (arena t)) (length t))) as [Hn Hv];
    [lia|lia|]. fold f in Hn, Hv.
  assert (Hm : forall x, 0 <= x < length t -> mem_of_bytes f (16 + x) = memory t x).
  { intros x Hx. unfold f. rewrite file_byte by assumption. rewrite La. f_equal. }
  unfold NewFromBytes, newFromData. cbv zeta. rewrite Hn, Hv, Hfl.
  cbn [tbl numItems valueSize hashes keys values keyData memory Data Len Cap].
  rewrite <- Lh, <- Lk, <- Lv, <- Ld.
  assert (H16 : Data (hashes t) = 16) by (rewrite Lh; reflexivity).
  unfold Layout.sizeof_header.
  rewrite (wrap64_small (numItems t * valueSize t)) by lia.
  rewrite (wrap64_small (16 + length t - Data (keyData t))) by lia.
  split; [reflexivity|]. split; [reflexivity|].
  split; [reflexivity|]. split; [reflexivity|]. split; [symmetry; exact Ihl|].
  split; [lia|]. split; [lia|]. split; [lia|]. split; [lia|].
  split; [symmetry; exact Ivl|]. split; [exact Hm|].
  intros key h. unfold find, find_budget.
  cbn [numItems hashes Len]. rewrite Ihl.
  set (r := {| valueSize := valueSize t; numItems := numItems t;
               arena := {| Data := 0; Len := 0 |};
               hashes := {| Data := 0 + 16 + Data (hashes t); Len := numItems t |};
               keys := {| Data := 0 + 16 + Data (keys t); Len := numItems t |};
               values := {| Data := 0 + 16 + Data (values t);
                            Len := numItems t * valueSize t |};
               keyData := {| Data := 0 + 16 + Data (keyData t);
                             Len := 16 + length t - Data (keyData t) |};
               keyOffset := 0; length := 0; memory := mem_of_bytes f |}).
  pose proof (land_range_mask h (numItems t - 1) ltac:(lia)) as Hs.
  apply find_loop_ext; try lia.
  - unfold r. cbn [hashes Len]. lia.
  - unfold r. cbn [keys Len]. lia.
  - intros c Hc. rewrite Ihl in Hc. split.
    * unfold hashAt, r. cbn [memory hashes Data].
      unfold load_u32. f_equal.
      match goal with |- load_bytes _ ?a _ = _ =>
        replace a with (16 + (Data (hashes t) + 4 * c)) by lia end.
      apply load_bytes_shift. intros x Hx. apply Hm. nia.
    * intros Hnz. destruct (Isl c Hc Hnz) as (kc & K1 & K2 & K3 & K4).
      assert (Ek : keyOffAt r c = keyOffAt t c).
      { unfold keyOffAt, r. cbn [memory keys Data].
        unfold load_i64. do 2 f_equal.
        match goal with |- load_bytes _ ?a _ = _ =>
          replace a with (16 + (Data (keys t) + 8 * c)) by lia end.
        apply load_bytes_shift. intros x Hx. apply Hm. nia. }
      rewrite Ek. rewrite (getKey_valid t _ kc ltac:(lia) K2).
      apply getKey_valid; [unfold r; cbn [keyData Len]; lia|].
      destruct K2 as (V1 & V2 & V3).
      unfold valid_record, r. cbn [memory keyData Data Len].
      split; [assumption|]. split; [lia|].
      etransitivity; [|exact V3].
      match goal with |- load_bytes _ ?a _ = _ =>
        replace a with (16 + (Data (keyData t) + keyOffAt t c)) by lia end.
      apply load_bytes_shift. intros x Hx. apply Hm. lia.
Qed.

End RoundTrip.


(** ** Builders *)

Lemma model_of_In (kvs : list (string * list Z)) (key : string) (v : list Z) :
  model_of kvs key = Some v -> In (key, v) kvs.
Proof.
  induction kvs as [|[k w] kvs IH] using rev_ind; [discriminate|].
  rewrite model_of_snoc. unfold update. intros E. apply in_or_app.
  destruct (String.eqb_spec key k) as [->|Hne].
  - injection E as ->. right. now left.
  - left. now apply IH.
Qed.

Lemma model_of_None (kvs : list (string * list Z)) (key : string) :
  ~ In key (map fst kvs) -> model_of kvs key = None.
Proof.
  induction kvs as [|[k w] kvs IH] using rev_ind; [reflexivity|].
  rewrite model_of_snoc, map_app, in_app_iff. unfold update. cbn [map fst In].
  intros Hn. destruct (String.eqb_spec key k) as [->|Hne]; [tauto|].
  apply IH. tauto.
Qed.

(** With distinct keys every pair of the run is in the map. *)
Lemma model_of_NoDup (kvs : list (string * list Z)) (key : string) (v : list Z) :
  NoDup (map fst kvs) -> In (key, v) kvs -> model_of kvs key = Some v.
Proof.
  induction kvs as [|[k w] kvs IH] using rev_ind; [intros _ []|].
  rewrite map_app, model_of_snoc. cbn [map fst]. intros Hnd Hin. unfold update.
  apply NoDup_remove in Hnd. rewrite app_nil_r in Hnd. destruct Hnd as [Hnd Hk].
  apply in_app_or in Hin. destruct Hin as [Hin|[Hin|[]]].
  - destruct (String.eqb_spec key k) as [->|Hne].
    + exfalso. apply Hk. apply in_map_iff. exists (k, v). split; [reflexivity|assumption].
    + now apply IH.
  - injection Hin as -> ->. now rewrite String.eqb_refl.
Qed.

Section Builders.

Variable H : string -> Z.


Lemma Built_absent (t : table) (kvs : list (string * list Z)) (key : string) :
  Built H t kvs -> Z.of_nat (List.length kvs) < numItems t ->
  model_of kvs key = None ->
  exists i, find t key (hash (H key)) = Ret (i, false).
Proof.
  intros B Hfree Hm.
  pose proof (built_inv H t kvs B) as I. pose proof (Inv_WF H t I) as W.
  pose proof (built_empty H t kvs B) as Be.
  destruct (empty_slot_exists t ltac:(lia)) as (e & He & Hez).
  destruct (find_returns t key (hash (H key)) W (proj1 (hash_range _))
              (ex_intro _ e (conj He Hez))) as (i & b & E & Hi & Hbt & _).
  destruct b; [|now exists i].
  exfalso. destruct (Hbt eq_refl) as [Hnz _].
  destruct (built_only H t kvs B i Hi Hnz) as (k' & E' & Hm').
  assert (key = k') by (eapply (find_same_slot H t); eassumption).
  subst k'. contradiction.
Qed.

(** A builder with adequate size parameters: every call returns. *)
Lemma build_ok (n vs tkl : Z) (heap : mem) (kvs : list (string * list Z)) :
  adequate n vs tkl kvs ->
  exists t, build H n vs tkl heap kvs = Ret t /\ Built H t kvs /\ laid_out t /\
            numItems t = New_numItems n /\ valueSize t = vs /\ Cap t = New_numItems n /\
            n <= New_numItems n /\
            Len (keyData t) = tkl + 4 * New_numItems n.
Proof.
  intros (S & Hvs & Hlen & Htkl & Hshort & Hval).
  destruct (New_Inv H n vs tkl heap S) as (t0 & E0 & I0 & _ & _ & _ & _ & _ & L0 & _ & _).
  destruct (New_Built H n vs tkl heap S) as (t0' & E0' & B0 & En & Evs & Ekd).
  assert (t0' = t0) by congruence. subst t0'.
  destruct S as (Hn & _).
  destruct (New_numItems_spec n Hn) as (k & Hk & Ek & Hle & Hlt).
  pose proof (total_record_length_budget kvs Hshort) as Hb.
  destruct (SetAll_Built H kvs [] t0 B0) as (t & E & B & Sh).
  - cbn [app]. lia.
  - cbn [app]. lia.
  - exists t. unfold build. rewrite E0. cbn [bind]. cbn [app] in B.
    pose proof Sh as (Evs' & En' & _ & Eh & _ & _ & Ed & _).
    split; [assumption|]. split; [assumption|].
    split; [eapply laid_out_same_shape; eassumption|].
    split; [congruence|]. split; [congruence|].
    split; [unfold Cap; rewrite Eh; rewrite (inv_hashes H t0 I0); congruence|].
    split; [lia|]. congruence.
Qed.

End Builders.

(** ** The arena and its allocation

    [New] allocates [(length+1)/8 - 1] elements of 8 bytes for the arena,
    between 7 and 14 bytes fewer than the [length] bytes that its slices
    cover and that [WriteTo] writes.  The memory of the model goes on past
    the allocation with the bytes of the heap.  The lemmas of this section
    say where [Set_] writes: never at or above the key-data write cursor,
    so that a builder whose key records end before the allocation does
    leaves the heap behind the arena as it was. *)

Lemma length_key_record_short (key : string) :
  Z.of_nat (String.length key) < 64 ->
  Z.of_nat (List.length (key_record key)) = Z.of_nat (String.length key) + 1.
Proof.
  intros Hk. rewrite length_key_record.
  pose proof (length_uvarint_bytes_le MaxVarintLen64 1 (2 * Z.of_nat (String.length key))
                ltac:(lia)) as L.
  change (2 ^ (7 * Z.of_nat 1)) with 128 in L.
  pose proof (length_uvarint_bytes_pos 9 (2 * Z.of_nat (String.length key))) as P.
  change (S 9) with MaxVarintLen64 in P. lia.
Qed.

Lemma total_record_length_short (kvs : list (string * list Z)) :
  Forall (fun kv => Z.of_nat (String.length (fst kv)) < 64) kvs ->
  total_record_length kvs = total_key_length kvs + Z.of_nat (List.length kvs).
Proof.
  induction 1 as [|x l Hx _ IH]; [reflexivity|].
  change (total_record_length (x :: l))
    with (Z.of_nat (List.length (key_record (fst x))) + total_record_length l).
  change (total_key_length (x :: l))
    with (Z.of_nat (String.length (fst x)) + total_key_length l).
  cbn [List.length]. rewrite (length_key_record_short (fst x) Hx). lia.
Qed.

Lemma build_steps (H : string -> Z) (n vs tkl : Z) (heap : mem)
    (kvs : list (string * list Z)) (t : table) :
  build H n vs tkl heap kvs = Ret t ->
  exists t0, New n vs tkl heap = Ret t0 /\ SetAll H t0 kvs = Ret t.
Proof.
  unfold build. destruct (New n vs tkl heap) as [t0|p]; cbn [bind].
  - intros E. exists t0. split; [reflexivity|assumption].
  - discriminate.
Qed.

Section Allocation.

Variable H : string -> Z.

(** One call writes below the write cursor it leaves. *)
Lemma Set_writes_below_cursor (t t' : table) (k : string) (v : list Z) :
  Inv H t ->
  keyOffset t + Z.of_nat (List.length (key_record k)) <= Len (keyData t) ->
  Set_ H t k v = Ret t' ->
  keyOffset t <= keyOffset t' /\
  (forall x, Data (keyData t) + keyOffset t' <= x -> memory t' x = memory t x).
Proof.
  intros I Hroom E.
  pose proof (Inv_WF H t I) as W.
  pose proof I as [In Ivs Ihl Ikl Ivl Ihp Ihk Ikv Ivd Ism Iko Isl].
  pose proof (length_val_bytes v (valueSize t) Ivs) as Hvl.
  destruct (find t k (hash (H k))) as [[i b]|p] eqn:Ef.
  2:{ unfold Set_ in E. rewrite Ef in E. discriminate. }
  destruct (find_sound t k _ i b W (proj1 (hash_range _)) Ef) as (Hi & _).
  destruct (slot_inside (numItems t) (valueSize t) i Ivs Hi) as [S1 S2].
  destruct b.
  - destruct (Set_found H t k v i I Ef) as (t2 & E2 & _ & Eko & Em).
    assert (t2 = t') by congruence. subst t2. rewrite Eko. split; [lia|].
    intros x Hx. rewrite Em. apply store_bytes_outside. unfold value_addr. lia.
  - destruct (Set_new H t k v i I Ef Hroom) as (t2 & E2 & _ & Eko & Em).
    assert (t2 = t') by congruence. subst t2. rewrite Eko. split; [lia|].
    intros x Hx. rewrite Em. unfold value_addr.
    rewrite !store_bytes_outside; rewrite ?length_le_encode; try reflexivity; lia.
Qed.

(** A run of calls writes below the write cursor it leaves. *)
Lemma SetAll_writes_below_cursor (rest : list (string * list Z)) :
  forall (done : list (string * list Z)) (t t' : table),
  Built H t done ->
  Z.of_nat (List.length (done ++ rest)) <= numItems t ->
  total_record_length (done ++ rest) <= Len (keyData t) ->
  SetAll H t rest = Ret t' ->
  keyOffset t <= keyOffset t' /\
  (forall x, Data (keyData t) + keyOffset t' <= x -> memory t' x = memory t x).
Proof.
  induction rest as [|[k v] rest IH]; intros done t t' B Hlen Hroom E.
  - cbn [SetAll] in E. injection E as <-. split; [lia|reflexivity].
  - replace (done ++ (k, v) :: rest) with ((done ++ [(k, v)]) ++ rest) in *
      by (now rewrite <- app_assoc).
    rewrite !length_app in Hlen. cbn [List.length] in Hlen.
    rewrite total_record_length_app in Hroom.
    pose proof (total_record_length_nonneg rest).
    destruct (Built_step H t done k v B ltac:(lia) ltac:(lia)) as (t1 & E1 & B1 & S1).
    pose proof S1 as (_ & En & _ & _ & _ & _ & Ed & _).
    cbn [SetAll] in E. rewrite E1 in E. cbn [bind] in E.
    pose proof (built_keyOffset H t done B) as Bk.
    rewrite total_record_length_app in Hroom.
    change (total_record_length [(k, v)])
      with (Z.of_nat (List.length (key_record k)) + 0) in Hroom.
    destruct (Set_writes_below_cursor t t1 k v (built_inv H t done B) ltac:(lia) E1)
      as [M1 W1].
    destruct (IH (done ++ [(k, v)]) t1 t' B1) as [M2 W2]; try assumption.
    + rewrite En, !length_app. cbn [List.length]. lia.
    + rewrite Ed, !total_record_length_app.
      change (total_record_length [(k, v)])
        with (Z.of_nat (List.length (key_record k)) + 0). lia.
    + split; [lia|]. intros x Hx. rewrite Ed in W2. rewrite W2 by lia. apply W1. lia.
Qed.

(** A builder with adequate size parameters, at least eight slots and keys
    shorter than 64 bytes stays inside the allocation of its arena: the
    heap behind it is as it was. *)
Lemma build_stays_in_arena (n vs tkl : Z) (heap : mem) (kvs : list (string * list Z))
    (t : table) :
  adequate n vs tkl kvs ->
  8 <= New_numItems n ->
  Forall (fun kv => Z.of_nat (String.length (fst kv)) < 64) kvs ->
  build H n vs tkl heap kvs = Ret t ->
  forall x, 8 * Len (arena t) <= x -> memory t x = heap x.
Proof.
  intros A H8 Hshort E x Hx.
  pose proof A as (S & Hvs & Hlen & Htkl & Hshort' & Hval).
  destruct (New_Inv H n vs tkl heap S)
    as (t0 & E0 & I0 & En0 & _ & Eko0 & Ekd0 & _ & L0 & Hal & Hheap).
  destruct (New_Built H n vs tkl heap S) as (t0' & E0' & B0 & En & Evs & Ekd).
  assert (t0' = t0) by congruence. subst t0'.
  destruct S as (Hn & _).
  destruct (New_numItems_spec n Hn) as (k & Hk & Ek & Hle & Hlt).
  pose proof (total_record_length_short kvs Hshort) as Hrec.
  destruct (build_steps H n vs tkl heap kvs t E) as (t1 & E1 & ES).
  assert (t1 = t0) by congruence. subst t1.
  destruct (SetAll_Built H kvs [] t0 B0) as (t2 & E2 & B2 & Sh); cbn [app]; try lia.
  assert (t2 = t) by congruence. subst t2.
  destruct (SetAll_writes_below_cursor kvs [] t0 t B0) as [M W]; cbn [app]; try lia;
    try assumption.
  pose proof Sh as (_ & _ & Ea & _ & _ & _ & Ed & El).
  destruct L0 as (_ & _ & _ & _ & _ & Ll).
  pose proof (built_keyOffset H t kvs B2) as Bk.
  rewrite Ea in Hx. rewrite W by lia. now apply Hheap.
Qed.

End Allocation.


(** ** The checks are sound *)

Lemma bytes_eqb_eq (a b : list Z) : bytes_eqb a b = true -> a = b.
Proof.
  revert b. induction a as [|x a IH]; intros [|y b] E; cbn [bytes_eqb] in E;
    try discriminate; [reflexivity|].
  apply andb_prop in E as [E1 E2]. apply Z.eqb_eq in E1. subst y. f_equal. now apply IH.
Qed.

Lemma valid_recordb_sound (m : mem) (kd : slice) (off : Z) (key : string) :
  valid_recordb m kd off key = true -> valid_record m kd off key.
Proof.
  unfold valid_recordb. intros E.
  apply andb_prop in E as [E E3]. apply andb_prop in E as [E1 E2].
  apply Z.leb_le in E1. apply Z.leb_le in E2. apply bytes_eqb_eq in E3.
  repeat split; assumption.
Qed.

Lemma wf_check_sound (t : table) : wf_check t = true -> WF t.
Proof.
  unfold wf_check. intros E.
  apply andb_prop in E as [E E5]. apply andb_prop in E as [E E4].
  apply andb_prop in E as [E E3]. apply andb_prop in E as [E1 E2].
  apply Z.leb_le in E1. apply Z.eqb_eq in E2. apply Z.eqb_eq in E3. apply Z.ltb_lt in E4.
  rewrite forallb_forall in E5.
  constructor; try assumption.
  intros i Hi Hnz. specialize (E5 i (proj2 (In_slots t i) Hi)).
  unfold wf_slot_check in E5. apply orb_prop in E5 as [E5|E5].
  - apply Z.eqb_eq in E5. contradiction.
  - destruct (getKey t (keyOffAt t i)) as [k|p]; [|discriminate].
    exists k. now apply valid_recordb_sound.
Qed.

Lemma inv_check_sound (H : string -> Z) (t : table) : inv_check H t = true -> Inv H t.
Proof.
  unfold inv_check. intros E.
  repeat match type of E with
         | (_ && _) = true => let E' := fresh "C" in apply andb_prop in E as [E E']
         end.
  repeat match goal with
         | X : (_ <=? _) = true |- _ => apply Z.leb_le in X
         | X : (_ <? _) = true |- _ => apply Z.ltb_lt in X
         | X : (_ =? _) = true |- _ => apply Z.eqb_eq in X
         end.
  match goal with X : forallb _ _ = true |- _ => rewrite forallb_forall in X; rename X into F end.
  constructor; try assumption; try lia.
  intros i Hi Hnz. specialize (F i (proj2 (In_slots t i) Hi)).
  unfold inv_slot_check in F. apply orb_prop in F as [F|F].
  - apply Z.eqb_eq in F. contradiction.
  - destruct (getKey t (keyOffAt t i)) as [k|p]; [|discriminate].
    apply andb_prop in F as [F F4]. apply andb_prop in F as [F F3].
    apply andb_prop in F as [F1 F2].
    apply Z.eqb_eq in F1. apply Z.leb_le in F3. apply valid_recordb_sound in F2.
    exists k. repeat split; try assumption; try apply F2.
    unfold found_at in F4.
    destruct (find t k (hash (H k))) as [[j [|]]|p]; try discriminate.
    apply Z.eqb_eq in F4. now subst j.
Qed.

Lemma absent_check_sound (t : table) (key : string) :
  Len (keyData t) < 2 ^ 62 -> absent_check t key = true ->
  forall i, 0 <= i < numItems t -> ~ slot_holds t i key.
Proof.
  unfold absent_check. intros Hs F i Hi [Hnz Hv]. rewrite forallb_forall in F.
  specialize (F i (proj2 (In_slots t i) Hi)). cbv beta in F.
  apply orb_prop in F as [F|F].
  - apply Z.eqb_eq in F. contradiction.
  - rewrite (getKey_valid t _ key Hs Hv) in F. now rewrite String.eqb_refl in F.
Qed.

(** The probe is deterministic: the first slot, in probe order, that is
    empty or holds the key is the slot [find] returns. *)
Lemma find_first (t : table) (key : string) (h i : Z) :
  WF t -> 0 <= h ->
  let l := numItems t in
  let s := Z.land h (l - 1) in
  0 <= i < l ->
  (forall j, 0 <= j < l -> rank l s j < rank l s i ->
             hashAt t j <> 0 /\ ~ matches t key h j) ->
  (hashAt t i = 0 -> find t key h = Ret (i, false)) /\
  (hashAt t i <> 0 -> matches t key h i -> find t key h = Ret (i, true)).
Proof.
  intros W Hh l s Hi Hbefore.
  destruct (find_post_holds t key h W Hh) as [Hs P]. fold l s in Hs, P.
  assert (Key : hashAt t i = 0 \/ matches t key h i ->
                exists b, find t key h = Ret (i, b)).
  { intros Hgood. destruct (find t key h) as [[i' b]|p]; cbn [find_post] in P.
    - exists b. rewrite rank_start in P.
      assert (Hi' : 0 <= i' < l) by (destruct b; tauto).
      assert (G' : hashAt t i' = 0 \/ matches t key h i') by (destruct b; tauto).
      assert (B' : forall j, 0 <= j < l -> 0 <= rank l s j < rank l s i' ->
                             hashAt t j <> 0 /\ ~ matches t key h j)
        by (destruct b; tauto).
      pose proof (rank_range l s i Hs Hi) as R.
      pose proof (rank_range l s i' Hs Hi') as R'.
      assert (E : i' = i).
      { apply (rank_inj l s); try assumption.
        destruct (Z.lt_trichotomy (rank l s i') (rank l s i)) as [L|[E|G]];
          [|assumption|].
        - destruct (Hbefore i' Hi' L). tauto.
        - destruct (B' i Hi ltac:(lia)). tauto. }
      now rewrite E.
    - exfalso. destruct P as [_ P]. rewrite rank_start in P.
      pose proof (rank_range l s i Hs Hi) as R.
      destruct (P i Hi ltac:(lia)). tauto. }
  split.
  - intros Hz. destruct (Key (or_introl Hz)) as [b E]. destruct b; [|assumption].
    destruct (find_sound t key h i true W Hh E) as (_ & Ht & _).
    destruct (Ht eq_refl) as [Hnz _]. contradiction.
  - intros Hnz Hm. destruct (Key (or_intror Hm)) as [b E]. destruct b; [assumption|].
    destruct (find_sound t key h i false W Hh E) as (_ & _ & Hf).
    specialize (Hf eq_refl). contradiction.
Qed.


(** * Main results *)

(** C8.  The layout calculator returns the reference vectors of the
    specification, those of the tests 'basic' and 'bigger': (1, 1, 1) gives
    hashes 16, keys 24, values 32, key data 33, length 38, and (5, 17, 40)
    gives 16, 40, 80, 165, 225. *)
Theorem offsets_reference_vectors :
  Layout.offsets 1 1 1 =
    {| Layout.o_hashes := 16; Layout.o_keys := 24; Layout.o_values := 32;
       Layout.o_keyData := 33; Layout.o_length := 38 |}
  /\ Layout.offsets 5 17 40 =
    {| Layout.o_hashes := 16; Layout.o_keys := 40; Layout.o_values := 80;
       Layout.o_keyData := 165; Layout.o_length := 225 |}.
Proof. split; vm_compute; reflexivity. Qed.


(** C7, amended.  For a requested item count [n] with [1 <= n <= 2^62], the
    capacity of the builder [New] returns is a power of two, at least [n]
    and less than [2 n]; 7 gives 8, 8 gives 8, 9 gives 16.  (Above [2^62]
    the shift leaves the range of [int].) *)
Theorem New_Cap_power_of_two (n vs tkl : Z) (heap : mem) (t : table) :
  1 <= n <= 2 ^ 62 ->
  New n vs tkl heap = Ret t ->
  (exists k, 0 <= k /\ Cap t = 2 ^ k) /\ n <= Cap t < 2 * n /\
  (n = 7 -> Cap t = 8) /\ (n = 8 -> Cap t = 8) /\ (n = 9 -> Cap t = 16).
Proof.
  intros Hn E. destruct (New_Cap n vs tkl heap t E) as [Ec _].
  destruct (New_numItems_spec n Hn) as (k & Hk & Ek & Hle & Hlt).
  rewrite Ec. split; [exists k; split; [lia|assumption]|]. split; [lia|].
  repeat split; intros ->; reflexivity.
Qed.

Section Claims.

Variable H : string -> Z.


(** C5, amended.  On a well-formed table in which some hash slot is zero,
    [GetPtr] on a key that no slot holds returns (nil, false).  (On a table
    whose slots are all occupied it panics with "out of space".) *)
Theorem GetPtr_absent_key (t : table) (key : string) :
  WF t ->
  (exists j, 0 <= j < numItems t /\ hashAt t j = 0) ->
  (forall i, 0 <= i < numItems t -> ~ slot_holds t i key) ->
  GetPtr H (Some t) key = Ret (None, false).
Proof.
  intros W He Habs.
  destruct (find_returns t key (hash (H key)) W (proj1 (hash_range _)) He)
    as (i & b & E & Hi & Hbt & _).
  destruct b; [|now apply (GetPtr_notfound H t key i)].
  exfalso. destruct (Hbt eq_refl) as (Hnz & _ & Hv).
  apply (Habs i Hi). split; assumption.
Qed.


(** C1 (a defect of the code).  No replacement is made for a hash of 0:
    a key whose hash is 0, set in a builder with adequate size parameters
    and a free slot, is not found by [GetPtr] afterwards. *)
Theorem zero_hash_key_not_found
    (n vs tkl : Z) (heap : mem) (kvs : list (string * list Z)) (key : string) :
  adequate n vs tkl kvs ->
  Z.of_nat (List.length kvs) < New_numItems n ->
  In key (map fst kvs) ->
  hash (H key) = 0 ->
  exists t, build H n vs tkl heap kvs = Ret t /\
            GetPtr H (Some t) key = Ret (None, false).
Proof.
  intros A Hfree Hin Hz.
  destruct (build_ok H n vs tkl heap kvs A) as (t & E & B & _ & En & _).
  exists t. split; [assumption|].
  pose proof (built_inv H t kvs B) as I. pose proof (Inv_WF H t I) as W.
  pose proof (built_empty H t kvs B) as Be.
  destruct (empty_slot_exists t ltac:(lia)) as (e & He & Hez).
  destruct (find_returns t key (hash (H key)) W (proj1 (hash_range _))
              (ex_intro _ e (conj He Hez))) as (i & b & Ef & Hi & Hbt & _).
  destruct b; [|now apply (GetPtr_notfound H t key i)].
  exfalso. destruct (Hbt eq_refl) as (Hnz & Hm & _). congruence.
Qed.


(** C2, amended.  In a builder with adequate size parameters every call of
    [Set_] returns; [WriteTo] then writes 16 bytes more than the arena, and
    in the view opened on these bytes [GetPtr] returns, for a key whose hash
    is not 0, the value bytes of the last call for that key (with distinct
    keys: of every pair), and, provided fewer pairs were set than the table
    has slots, (nil, false) for a key that was never set. *)
Theorem WriteTo_NewFromBytes_GetPtr
    (n vs tkl : Z) (heap : mem) (kvs : list (string * list Z)) :
  adequate n vs tkl kvs ->
  exists t f, build H n vs tkl heap kvs = Ret t /\
    WriteTo t [] = (16 + length t, f) /\
    let r := tbl (NewFromBytes f) in
    Cap r = Cap t /\
    (forall key v, model_of kvs key = Some v -> hash (H key) <> 0 ->
       exists p, GetPtr H (Some r) key = Ret (Some p, true) /\ value_bytes r p = v) /\
    (NoDup (map fst kvs) ->
     forall key v, In (key, v) kvs -> hash (H key) <> 0 ->
       exists p, GetPtr H (Some r) key = Ret (Some p, true) /\ value_bytes r p = v) /\
    (Z.of_nat (List.length kvs) < Cap t ->
     forall key, ~ In key (map fst kvs) -> GetPtr H (Some r) key = Ret (None, false)).
Proof.
  intros A.
  destruct (build_ok H n vs tkl heap kvs A) as (t & E & B & L & En & Evs & Ec & _).
  destruct A as (_ & Hvs & _ & _ & _ & Hval).
  pose proof (built_inv H t kvs B) as I.
  destruct (view_of_builder H t I L)
    as (W1 & W2 & Rn & Rvs & Rc & Rh & Rk & Rv & Rd & Rvl & Rm & Rf).
  pose proof I as [In Ivs Ihl Ikl Ivl Ihp Ihk Ikv Ivd Ism Iko Isl].
  destruct L as (La & Lh & Lk & Lv & Ld & Ll).
  exists t, (snd (WriteTo t [])). split; [assumption|].
  split; [rewrite <- W1; now destruct (WriteTo t [])|].
  set (r := tbl (NewFromBytes (snd (WriteTo t [])))) in *. cbv zeta.
  assert (G : forall key v, model_of kvs key = Some v -> hash (H key) <> 0 ->
       exists p, GetPtr H (Some r) key = Ret (Some p, true) /\ value_bytes r p = v).
  { intros key v Hm Hnz.
    destruct (built_get H t kvs B key v Hm Hnz) as (i & Ef & V).
    pose proof (Inv_WF H t I) as W.
    destruct (find_sound t key _ i true W (proj1 (hash_range _)) Ef) as (Hi & _).
    destruct (slot_inside (numItems t) (valueSize t) i Ivs Hi) as [S1 S2].
    exists (value_addr r i). split.
    - apply GetPtr_found; rewrite ?Rn, ?Rvs, ?Rvl; try lia. rewrite Rf. exact Ef.
    - unfold value_bytes, value_addr in *. rewrite Rv, Rvs.
      replace (16 + Data (values t) + i * valueSize t)
        with (16 + (Data (values t) + i * valueSize t)) by lia.
      rewrite (load_bytes_shift (memory t)) by (intros x Hx; apply Rm; lia).
      rewrite V, Evs.
      rewrite Forall_forall in Hval. specialize (Hval _ (model_of_In kvs key v Hm)).
      cbn [snd] in Hval. rewrite <- Hval. apply val_bytes_id. }
  split; [assumption|]. split; [exact G|]. split.
  - intros Hnd key v Hin Hnz. apply G; [|assumption]. now apply model_of_NoDup.
  - intros Hfree key Hnin.
    destruct (Built_absent H t kvs key B ltac:(unfold Cap in *; lia)
                (model_of_None kvs key Hnin)) as (i & Ef).
    apply (GetPtr_notfound H r key i). rewrite Rf. exact Ef.
Qed.

(** C4, amended.  The file [WriteTo] produces for a builder with adequate
    size parameters is the 16-byte header followed by the whole arena, of
    the length the layout calculator gives: it is 16 bytes longer than that
    length and ends with the key-data region, used or not.  The arena
    reserves its first 16 bytes for a header, so each section lies in the
    file 16 bytes after the offset the layout calculator gives: the hashes
    begin at byte 32. *)
Theorem WriteTo_file_layout
    (n vs tkl : Z) (heap : mem) (kvs : list (string * list Z)) :
  adequate n vs tkl kvs ->
  exists t f, build H n vs tkl heap kvs = Ret t /\
    let o := Layout.offsets (Cap t) vs tkl in
    WriteTo t [] = (16 + Layout.o_length o, f) /\
    Z.of_nat (List.length f) = 16 + Layout.o_length o /\
    firstn 16 f = le_encode 8 (Cap t) ++ le_encode 8 vs /\
    (forall x, 0 <= x < Layout.o_length o -> nth (Z.to_nat (16 + x)) f 0 = memory t x) /\
    Layout.o_hashes o = 16 /\
    (forall i, 0 <= i < Cap t ->
       load_u32 (mem_of_bytes f) (16 + Layout.o_hashes o + 4 * i) = hashAt t i /\
       load_i64 (mem_of_bytes f) (16 + Layout.o_keys o + 8 * i) = keyOffAt t i /\
       load_bytes (mem_of_bytes f) (16 + Layout.o_values o + i * vs) vs
       = value_bytes t (value_addr t i)) /\
    load_bytes (mem_of_bytes f) (16 + Layout.o_keyData o) (tkl + 4 * Cap t)
    = load_bytes (memory t) (Data (keyData t)) (Len (keyData t)) /\
    16 + Layout.o_keyData o + (tkl + 4 * Cap t) = Z.of_nat (List.length f).
Proof.
  intros A.
  destruct (build_ok H n vs tkl heap kvs A) as (t & E & B & L & En & Evs & Ec & Hnc & Ekd).
  pose proof A as ((Hn & Hvs0 & Htkl & Hsz) & Hvs & _).
  pose proof (built_inv H t kvs B) as I.
  pose proof I as [In Ivs Ihl Ikl Ivl Ihp Ihk Ikv Ivd Ism Iko Isl].
  pose proof L as (La & Lh & Lk & Lv & Ld & Ll).
  assert (Hc : 1 <= New_numItems n) by lia.
  destruct (offsets_spec (New_numItems n) vs tkl Hc Hvs0 Htkl Hsz)
    as (O1 & O2 & O3 & O4 & O5 & O6).
  destruct (offsets_tkl (New_numItems n) vs tkl) as (T1 & T2 & T3 & T4).
  rewrite En, Evs in Lh, Lk, Lv, Ld. rewrite <- T1 in Lh. rewrite <- T2 in Lk.
  rewrite <- T3 in Lv. rewrite <- T4 in Ld.
  assert (Hlen : length t = Layout.o_length (Layout.offsets (New_numItems n) vs tkl)) by lia.
  assert (Hl0 : 0 <= length t < 2 ^ 62) by lia.
  set (f := header_bytes t ++ load_bytes (memory t) (Data (arena t)) (length t)).
  assert (Hm : forall x, 0 <= x < length t -> mem_of_bytes f (16 + x) = memory t x).
  { intros x Hx. unfold f. rewrite file_byte by assumption. rewrite La. f_equal. }
  exists t, f. split; [assumption|]. rewrite Ec. cbv zeta. rewrite <- Hlen.
  assert (Hfl : Z.of_nat (List.length f) = 16 + length t).
  { unfold f. rewrite length_app, length_header_bytes.
    pose proof (length_load_bytes (memory t) (Data (arena t)) (length t)). lia. }
  split; [now apply WriteTo_spec|]. split; [exact Hfl|]. split.
  { unfold f. rewrite <- (length_header_bytes t) at 1. rewrite firstn_length_app.
    unfold header_bytes. now rewrite En, Evs. }
  split.
  { intros x Hx. specialize (Hm x Hx). unfold mem_of_bytes in Hm.
    destruct (Z.ltb_spec (16 + x) 0); [lia|exact Hm]. }
  split; [exact O1|]. rewrite <- Lh, <- Lk, <- Lv, <- Ld. split; [|split].
  - intros i Hi.
    destruct (slot_inside (numItems t) (valueSize t) i Ivs ltac:(lia)) as [S1 S2].
    split; [|split].
    + unfold hashAt, load_u32. f_equal.
      replace (16 + Data (hashes t) + 4 * i) with (16 + (Data (hashes t) + 4 * i)) by lia.
      apply load_bytes_shift. intros x Hx. apply Hm. lia.
    + unfold keyOffAt, load_i64. do 2 f_equal.
      replace (16 + Data (keys t) + 8 * i) with (16 + (Data (keys t) + 8 * i)) by lia.
      apply load_bytes_shift. intros x Hx. apply Hm. lia.
    + unfold value_bytes, value_addr. rewrite Evs in *.
      replace (16 + Data (values t) + i * vs) with (16 + (Data (values t) + i * vs)) by lia.
      apply load_bytes_shift. intros x Hx. apply Hm. lia.
  - rewrite Ekd. apply load_bytes_shift. intros x Hx. apply Hm. lia.
  - lia.
Qed.

End Claims.


(** * The results on concrete tables *)

(** ** C7 *)

Lemma New_Cap_power_of_two_witness :
  1 <= 7 <= 2 ^ 62 /\
  New 7 8 21 stale_heap = Ret (table_of (New 7 8 21 stale_heap)) /\
  ((exists k, 0 <= k /\ Cap (table_of (New 7 8 21 stale_heap)) = 2 ^ k) /\
   7 <= Cap (table_of (New 7 8 21 stale_heap)) < 2 * 7 /\
   (7 = 7 -> Cap (table_of (New 7 8 21 stale_heap)) = 8) /\
   (7 = 8 -> Cap (table_of (New 7 8 21 stale_heap)) = 8) /\
   (7 = 9 -> Cap (table_of (New 7 8 21 stale_heap)) = 16)).
Proof.
  split; [lia|]. split; [vm_compute; reflexivity|].
  apply (New_Cap_power_of_two 7 8 21 stale_heap).
  - lia.
  - vm_compute; reflexivity.
Defined.

(** With a requested count of [2^62 + 1], [New] returns a builder whose
    capacity is [- 2^63]: not a power of two, and less than the count. *)
Lemma New_Cap_overflow :
  New (2 ^ 62 + 1) 8 21 stale_heap = Ret (table_of (New (2 ^ 62 + 1) 8 21 stale_heap)) /\
  Cap (table_of (New (2 ^ 62 + 1) 8 21 stale_heap)) = - 2 ^ 63 /\
  ~ (2 ^ 62 + 1 <= Cap (table_of (New (2 ^ 62 + 1) 8 21 stale_heap))) /\
  ~ (exists k, 0 <= k /\ Cap (table_of (New (2 ^ 62 + 1) 8 21 stale_heap)) = 2 ^ k).
Proof.
  split; [vm_compute; reflexivity|].
  assert (E : Cap (table_of (New (2 ^ 62 + 1) 8 21 stale_heap)) = - 2 ^ 63)
    by (vm_compute; reflexivity).
  rewrite E. split; [reflexivity|]. split.
  - vm_compute. intros X. now apply X.
  - intros (k & Hk & Ek). pose proof (Z.pow_nonneg 2 k ltac:(lia)) as P.
    rewrite <- Ek in P. vm_compute in P. now apply P.
Qed.

(** ** C6 *)


(** ** C5 *)

Lemma GetPtr_absent_key_witness :
  WF tests_builder /\
  (exists j, 0 <= j < numItems tests_builder /\ hashAt tests_builder j = 0) /\
  (forall i, 0 <= i < numItems tests_builder -> ~ slot_holds tests_builder i "zzz") /\
  GetPtr fnv1a (Some tests_builder) "zzz" = Ret (None, false).
Proof.
  assert (W : WF tests_builder) by (apply wf_check_sound; vm_compute; reflexivity).
  assert (E : exists j, 0 <= j < numItems tests_builder /\ hashAt tests_builder j = 0).
  { exists 5. split; [split; by_computation|vm_compute; reflexivity]. }
  assert (A : forall i, 0 <= i < numItems tests_builder -> ~ slot_holds tests_builder i "zzz").
  { apply absent_check_sound; vm_compute; reflexivity. }
  split; [exact W|]. split; [exact E|]. split; [exact A|].
  exact (GetPtr_absent_key fnv1a tests_builder "zzz" W E A).
Defined.

(** A builder asked for eight items and holding eight keys: no slot holds
    "zzz", and [GetPtr] on "zzz" panics with "out of space". *)
Lemma GetPtr_full_table_panics :
  build fnv1a 8 8 24 stale_heap eight_calls = Ret full_builder /\
  WF full_builder /\
  (forall i, 0 <= i < numItems full_builder -> ~ slot_holds full_builder i "zzz") /\
  GetPtr fnv1a (Some full_builder) "zzz" = Panic OutOfSpace.
Proof.
  split; [vm_compute; reflexivity|].
  split; [apply wf_check_sound; vm_compute; reflexivity|]. split.
  - apply absent_check_sound; vm_compute; reflexivity.
  - vm_compute; reflexivity.
Qed.

(** ** C9 *)


(** ** C1 *)

Lemma zero_hash_key_not_found_witness :
  adequate 7 8 21 empty_key_calls /\
  Z.of_nat (List.length empty_key_calls) < New_numItems 7 /\
  In ""%string (map fst empty_key_calls) /\
  hash (polyHash "") = 0 /\
  exists t, build polyHash 7 8 21 stale_heap empty_key_calls = Ret t /\
            GetPtr polyHash (Some t) "" = Ret (None, false).
Proof.
  assert (A : adequate 7 8 21 empty_key_calls) by check_adequate.
  assert (F : Z.of_nat (List.length empty_key_calls) < New_numItems 7)
    by (vm_compute; reflexivity).
  assert (I : In ""%string (map fst empty_key_calls)) by (left; reflexivity).
  assert (Z0 : hash (polyHash "") = 0) by reflexivity.
  split; [exact A|]. split; [exact F|]. split; [exact I|]. split; [exact Z0|].
  exact (zero_hash_key_not_found polyHash 7 8 21 stale_heap empty_key_calls "" A F I Z0).
Defined.

(** ** C3 *)



(** ** C2 *)

Lemma WriteTo_NewFromBytes_GetPtr_witness :
  adequate 7 8 21 tests /\
  exists t f, build fnv1a 7 8 21 stale_heap tests = Ret t /\
    WriteTo t [] = (16 + length t, f) /\
    let r := tbl (NewFromBytes f) in
    Cap r = Cap t /\
    (forall key v, model_of tests key = Some v -> hash (fnv1a key) <> 0 ->
       exists p, GetPtr fnv1a (Some r) key = Ret (Some p, true) /\ value_bytes r p = v) /\
    (NoDup (map fst tests) ->
     forall key v, In (key, v) tests -> hash (fnv1a key) <> 0 ->
       exists p, GetPtr fnv1a (Some r) key = Ret (Some p, true) /\ value_bytes r p = v) /\
    (Z.of_nat (List.length tests) < Cap t ->
     forall key, ~ In key (map fst tests) ->
       GetPtr fnv1a (Some r) key = Ret (None, false)).
Proof.
  assert (A : adequate 7 8 21 tests) by check_adequate.
  split; [exact A|].
  exact (WriteTo_NewFromBytes_GetPtr fnv1a 7 8 21 stale_heap tests A).
Defined.

(** A builder asked for eight items, with eight distinct keys set, written
    and opened again: the key "zzz" was never set, and [GetPtr] on it panics
    with "out of space". *)
Lemma GetPtr_view_full_table_panics :
  adequate 8 8 24 eight_calls /\
  NoDup (map fst eight_calls) /\
  build fnv1a 8 8 24 stale_heap eight_calls = Ret full_builder /\
  ~ In "zzz"%string (map fst eight_calls) /\
  GetPtr fnv1a (Some (tbl (NewFromBytes (snd (WriteTo full_builder []))))) "zzz"
  = Panic OutOfSpace.
Proof.
  split; [check_adequate|]. split.
  { cbn [eight_calls tests app map fst].
    repeat (constructor; [cbn [In]; intuition discriminate|]). constructor. }
  split; [vm_compute; reflexivity|]. split.
  - cbn [eight_calls tests app map fst In]. intuition discriminate.
  - vm_compute; reflexivity.
Qed.

(** ** C4 *)

Lemma WriteTo_file_layout_witness :
  adequate 7 8 21 tests /\
  exists t f, build fnv1a 7 8 21 stale_heap tests = Ret t /\
    let o := Layout.offsets (Cap t) 8 21 in
    WriteTo t [] = (16 + Layout.o_length o, f) /\
    Z.of_nat (List.length f) = 16 + Layout.o_length o /\
    firstn 16 f = le_encode 8 (Cap t) ++ le_encode 8 8 /\
    (forall x, 0 <= x < Layout.o_length o -> nth (Z.to_nat (16 + x)) f 0 = memory t x) /\
    Layout.o_hashes o = 16 /\
    (forall i, 0 <= i < Cap t ->
       load_u32 (mem_of_bytes f) (16 + Layout.o_hashes o + 4 * i) = hashAt t i /\
       load_i64 (mem_of_bytes f) (16 + Layout.o_keys o + 8 * i) = keyOffAt t i /\
       load_bytes (mem_of_bytes f) (16 + Layout.o_values o + i * 8) 8
       = value_bytes t (value_addr t i)) /\
    load_bytes (mem_of_bytes f) (16 + Layout.o_keyData o) (21 + 4 * Cap t)
    = load_bytes (memory t) (Data (keyData t)) (Len (keyData t)) /\
    16 + Layout.o_keyData o + (21 + 4 * Cap t) = Z.of_nat (List.length f).
Proof.
  assert (A : adequate 7 8 21 tests) by check_adequate.
  split; [exact A|].
  exact (WriteTo_file_layout fnv1a 7 8 21 stale_heap tests A).
Defined.

(** In the file of the builder of the tests, slot 0 is occupied but the four
    bytes at offset 16 are zero: the hashes are not there, they begin at
    offset 32.  The file is 245 bytes long, while the last key ends 28 bytes
    into the key data: the file does not end after the last key's bytes. *)
Lemma WriteTo_hashes_not_at_16 :
  build fnv1a 7 8 21 stale_heap tests = Ret tests_builder /\
  hashAt tests_builder 0 <> 0 /\
  load_u32 (mem_of_bytes (snd (WriteTo tests_builder []))) 16 = 0 /\
  load_u32 (mem_of_bytes (snd (WriteTo tests_builder []))) 32 = hashAt tests_builder 0 /\
  keyOffset tests_builder = 28 /\
  Z.of_nat (List.length (snd (WriteTo tests_builder []))) = 245 /\
  Z.of_nat (List.length (snd (WriteTo tests_builder [])))
  <> Layout.o_keyData (Layout.offsets 8 8 21) + keyOffset tests_builder /\
  Z.of_nat (List.length (snd (WriteTo tests_builder [])))
  <> 16 + Layout.o_keyData (Layout.offsets 8 8 21) + keyOffset tests_builder.
Proof.
  split; [vm_compute; reflexivity|]. split; [vm_compute; discriminate|].
  split; [vm_compute; reflexivity|]. split; [vm_compute; reflexivity|].
  split; [vm_compute; reflexivity|]. split; [vm_compute; reflexivity|].
  split; vm_compute; discriminate.
Qed.

(** ** The allocation *)

(** The builder of the tests: 229 bytes of layout in an arena of 27 words,
    216 bytes.  The writes stop before the end of the allocation, and
    [WriteTo] reads 13 bytes of the heap behind it. *)
Example tests_builder_allocation :
  length tests_builder = 229 /\
  Len (arena tests_builder) = 27 /\
  (forall x, 8 * Len (arena tests_builder) <= x -> memory tests_builder x = stale_heap x) /\
  skipn 232 (snd (WriteTo tests_builder [])) = repeat 170 13.
Proof.
  split; [vm_compute; reflexivity|]. split; [vm_compute; reflexivity|]. split.
  - apply (build_stays_in_arena fnv1a 7 8 21 stale_heap tests tests_builder).
    + check_adequate.
    + vm_compute; discriminate.
    + repeat constructor.
    + vm_compute; reflexivity.
  - vm_compute; reflexivity.
Qed.


(** * Further properties *)

(** ** The layout calculator *)

Lemma land_lnot_ones (y k : Z) :
  0 <= k -> Z.land y (Z.lnot (2 ^ k - 1)) = 2 ^ k * (y / 2 ^ k).
Proof.
  intros Hk.
  replace (2 ^ k - 1) with (Z.ones k) by (rewrite Z.ones_equiv; lia).
  rewrite <- Z.ldiff_land, Z.ldiff_ones_r by lia.
  rewrite Z.shiftr_div_pow2, Z.shiftl_mul_pow2 by lia. lia.
Qed.

Lemma pow2_bounds (k : Z) : 0 <= k < 62 -> 1 <= 2 ^ k <= 2 ^ 61.
Proof.
  intros Hk. split.
  - pose proof (Z.pow_pos_nonneg 2 k ltac:(lia) ltac:(lia)). lia.
  - apply Z.pow_le_mono_r; lia.
Qed.

(** X1.  For an alignment that is a power of two, [roundUp] returns the
    least multiple of the alignment that is not below the length: a
    multiple, at least the length, less than one alignment above it, and
    the length itself when that is a multiple already. *)
Theorem roundUp_power_of_two (length k : Z) :
  0 <= k < 62 -> - 2 ^ 62 <= length < 2 ^ 62 ->
  let r := Layout.roundUp length (2 ^ k) in
  r mod 2 ^ k = 0 /\ length <= r < length + 2 ^ k /\
  (length mod 2 ^ k = 0 -> r = length).
Proof.
  intros Hk Hl. pose proof (pow2_bounds k Hk) as Hp.
  assert (P61 : 2 ^ 61 < 2 ^ 62) by (vm_compute; reflexivity).
  assert (P62 : 2 * 2 ^ 62 = 2 ^ 63) by (vm_compute; reflexivity).
  unfold Layout.roundUp. cbv zeta.
  rewrite (wrap64_small (2 ^ k)) by lia.
  rewrite wrap64_small by lia.
  rewrite land_lnot_ones by lia.
  pose proof (Z.div_mod (length + (2 ^ k - 1)) (2 ^ k) ltac:(lia)) as D.
  pose proof (Z.mod_pos_bound (length + (2 ^ k - 1)) (2 ^ k) ltac:(lia)) as B.
  split; [|split].
  - rewrite Z.mul_comm. apply Z.mod_mul. lia.
  - lia.
  - intros Hm.
    assert (E : (length + (2 ^ k - 1)) mod 2 ^ k = 2 ^ k - 1).
    { rewrite <- Z.add_mod_idemp_l, Hm by lia. cbn [Z.add].
      apply Z.mod_small. lia. }
    lia.
Qed.

(** X2.  The sections the layout calculator returns lie one after the
    other without overlap: the hashes start after the 16 bytes of the
    header, the keys start at the first multiple of 8 after the hashes, the
    values right after the keys (so at a multiple of 8 too), the key data
    right after the values, and the length leaves [totalKeyLength] plus four
    bytes a slot for the key data.  Only the length depends on
    [totalKeyLength]. *)
Theorem offsets_sections (c vs tkl : Z) :
  0 <= c -> 0 <= vs -> 0 <= tkl -> 24 + (16 + vs) * c + tkl < 2 ^ 62 ->
  let o := Layout.offsets c vs tkl in
  Layout.o_hashes o = 16 /\
  Layout.o_hashes o + 4 * c <= Layout.o_keys o < Layout.o_hashes o + 4 * c + 8 /\
  Layout.o_keys o mod 8 = 0 /\
  Layout.o_values o = Layout.o_keys o + 8 * c /\
  Layout.o_values o mod 8 = 0 /\
  Layout.o_keyData o = Layout.o_values o + vs * c /\
  Layout.o_length o = Layout.o_keyData o + tkl + 4 * c /\
  (forall tkl',
     let o' := Layout.offsets c vs tkl' in
     Layout.o_hashes o' = Layout.o_hashes o /\ Layout.o_keys o' = Layout.o_keys o /\
     Layout.o_values o' = Layout.o_values o /\ Layout.o_keyData o' = Layout.o_keyData o).
Proof.
  intros Hc Hvs Htkl Hsz.
  assert (Hvc : 0 <= vs * c) by nia.
  assert (B : 16 * c + vs * c + tkl < 2 ^ 62 - 24) by nia.
  assert (P : 2 * 2 ^ 62 = 2 ^ 63) by (vm_compute; reflexivity).
  cbv zeta. split; [reflexivity|].
  assert (K : Layout.o_keys (Layout.offsets c vs tkl) = Layout.roundUp (16 + 4 * c) 8).
  { unfold Layout.offsets. cbv zeta.
    unfold Layout.sizeof_header, Layout.sizeof_hash, Layout.alignof_keyOffset.
    cbn [Layout.o_keys].
    rewrite (wrap64_small (4 * c)) by lia.
    rewrite (wrap64_small (16 + 4 * c)) by lia. reflexivity. }
  destruct (roundUp_8 (16 + 4 * c) ltac:(lia)) as [RE RB].
  assert (V : Layout.o_values (Layout.offsets c vs tkl)
              = Layout.o_keys (Layout.offsets c vs tkl) + 8 * c).
  { rewrite K. unfold Layout.offsets. cbv zeta.
    unfold Layout.sizeof_header, Layout.sizeof_hash, Layout.alignof_keyOffset,
      Layout.sizeof_keyOffset.
    cbn [Layout.o_values].
    rewrite (wrap64_small (4 * c)) by lia.
    rewrite (wrap64_small (16 + 4 * c)) by lia.
    rewrite (wrap64_small (8 * c)) by lia.
    rewrite wrap64_small by lia. reflexivity. }
  assert (KD : Layout.o_keyData (Layout.offsets c vs tkl)
               = Layout.o_values (Layout.offsets c vs tkl) + vs * c).
  { rewrite V, K. unfold Layout.offsets. cbv zeta.
    unfold Layout.sizeof_header, Layout.sizeof_hash, Layout.alignof_keyOffset,
      Layout.sizeof_keyOffset.
    cbn [Layout.o_keyData].
    rewrite (wrap64_small (4 * c)) by lia.
    rewrite (wrap64_small (16 + 4 * c)) by lia.
    rewrite (wrap64_small (8 * c)) by lia.
    rewrite (wrap64_small (Layout.roundUp (16 + 4 * c) 8 + 8 * c)) by lia.
    rewrite (wrap64_small (vs * c)) by lia.
    rewrite wrap64_small by lia. reflexivity. }
  assert (L : Layout.o_length (Layout.offsets c vs tkl)
              = Layout.o_keyData (Layout.offsets c vs tkl) + tkl + 4 * c).
  { rewrite KD, V, K. unfold Layout.offsets. cbv zeta.
    unfold Layout.sizeof_header, Layout.sizeof_hash, Layout.alignof_keyOffset,
      Layout.sizeof_keyOffset, Layout.sizeof_stringLength.
    cbn [Layout.o_length].
    rewrite (wrap64_small (4 * c)) by lia.
    rewrite (wrap64_small (16 + 4 * c)) by lia.
    rewrite (wrap64_small (8 * c)) by lia.
    rewrite (wrap64_small (Layout.roundUp (16 + 4 * c) 8 + 8 * c)) by lia.
    rewrite (wrap64_small (vs * c)) by lia.
    rewrite (wrap64_small (Layout.roundUp (16 + 4 * c) 8 + 8 * c + vs * c)) by lia.
    rewrite (wrap64_small (Layout.roundUp (16 + 4 * c) 8 + 8 * c + vs * c + tkl)) by lia.
    rewrite wrap64_small by lia. reflexivity. }
  assert (M : Layout.o_keys (Layout.offsets c vs tkl) mod 8 = 0).
  { rewrite K, RE, Z.mul_comm. apply Z.mod_mul. lia. }
  change (Layout.o_hashes (Layout.offsets c vs tkl)) with 16.
  split; [rewrite K; lia|]. split; [exact M|]. split; [exact V|]. split.
  { rewrite V. rewrite Z.add_mod, M by lia.
    rewrite (Z.mul_comm 8 c), Z.mod_mul by lia. reflexivity. }
  split; [exact KD|]. split; [exact L|].
  intros tkl'. destruct (offsets_tkl c vs tkl) as (A1 & A2 & A3 & A4).
  destruct (offsets_tkl c vs tkl') as (B1 & B2 & B3 & B4).
  cbv zeta. split; [reflexivity|]. split; [congruence|]. split; congruence.
Qed.


(** ** The key records *)

(** What [ReadVarint] returns on the length prefix of a key record. *)
Lemma ReadVarint_prefix (m : mem) (b : slice) (L : Z) :
  0 <= L < 2 ^ 62 ->
  let vb := uvarint_bytes MaxVarintLen64 (2 * L) in
  Z.of_nat (List.length vb) <= Len b ->
  load_bytes m (Data b) (Z.of_nat (List.length vb)) = vb ->
  ReadVarint m (new_reader b) =
  Ret (L, {| buf := b; offset := Z.of_nat (List.length vb) |}).
Proof.
  intros HL vb Hfit Hmem.
  pose proof (length_uvarint_bytes MaxVarintLen64 (2 * L)) as Hub. fold vb in Hub.
  unfold MaxVarintLen64 in Hub.
  unfold ReadVarint, ReadUvarint, new_reader.
  rewrite (ReadUvarint_loop_spec MaxVarintLen64 MaxVarintLen64 m _ 0 0 (2 * L)).
  - cbn [bind buf offset].
    replace (0 + 2 * L * 2 ^ 0) with (2 * L) by (change (2 ^ 0) with 1; lia).
    rewrite Z.shiftr_div_pow2 by lia. change (2 ^ 1) with 2.
    replace (2 * L / 2) with L by (rewrite Z.mul_comm, Z.div_mul; lia).
    replace (Z.land (2 * L) 1) with 0.
    2:{ change 1 with (Z.ones 1). rewrite Z.land_ones by lia. change (2 ^ 1) with 2.
        rewrite Z.mul_comm, Z.mod_mul; lia. }
    cbn [Z.eqb]. fold vb. rewrite (wrap64_small L) by lia. reflexivity.
  - unfold MaxVarintLen64. lia.
  - unfold MaxVarintLen64. lia.
  - lia.
  - change (2 ^ 0) with 1. lia.
  - unfold MaxVarintLen64. change (2 ^ (7 * Z.of_nat 10)) with (2 ^ 8 * 2 ^ 62). lia.
  - change (2 ^ 0) with 1. change (2 ^ 64) with (4 * 2 ^ 62). lia.
  - cbn [offset]. lia.
  - cbn [buf offset Len]. fold vb. lia.
  - cbn [buf offset Data]. fold vb.
    unfold load_bytes in Hmem. rewrite Nat2Z.id in Hmem.
    replace (Data b + 0) with (Data b) by lia. exact Hmem.
Qed.

(** [addKey], case by case: it panics when the length prefix does not fit
    what is left of the key-data slice, and otherwise writes the prefix and
    as much of the key as fits, and advances the cursor by the whole
    record. *)
Lemma addKey_cases (t : table) (key : string) :
  0 <= keyOffset t -> Len (keyData t) < 2 ^ 62 ->
  Z.of_nat (String.length key) < 2 ^ 62 ->
  let L := Z.of_nat (String.length key) in
  let vb := uvarint_bytes MaxVarintLen64 (2 * L) in
  let n := Z.of_nat (List.length vb) in
  addKey t key =
  if keyOffset t + n <=? Len (keyData t) then
    Ret (keyOffset t,
         with_keyOffset
           (with_memory t
              (store_bytes
                 (store_bytes (memory t) (Data (keyData t) + keyOffset t) vb)
                 (Data (keyData t) + (keyOffset t + n))
                 (firstn (Z.to_nat (Len (keyData t) - (keyOffset t + n)))
                         (bytes_of_string key))))
           (keyOffset t + n + L))
  else Panic IndexOutOfRange.
Proof.
  intros Hko Hsmall HL L vb n.
  pose proof (length_uvarint_bytes MaxVarintLen64 (2 * L)) as Hub. fold vb in Hub.
  pose proof (length_uvarint_bytes_pos 9 (2 * L)) as Hup.
  change (S 9) with MaxVarintLen64 in Hup. fold vb in Hup.
  unfold MaxVarintLen64 in Hub.
  unfold addKey.
  destruct (Z.leb_spec (keyOffset t + n) (Len (keyData t))) as [Hfit|Hno].
  - rewrite slice_from_ok by lia. cbn [bind].
    unfold PutVarint, PutUvarint. fold L.
    rewrite (to_uint64_small L) by lia.
    rewrite Z.shiftl_mul_pow2 by lia. change (2 ^ 1) with 2.
    rewrite (to_uint64_small (L * 2)) by lia.
    destruct (Z.ltb_spec L 0); [lia|].
    rewrite PutUvarint_loop_spec.
    2:{ unfold MaxVarintLen64. lia. }
    2:{ lia. }
    2:{ unfold MaxVarintLen64. change (2 ^ (7 * Z.of_nat 10)) with (2 ^ 8 * 2 ^ 62). lia. }
    cbv zeta. replace (L * 2) with (2 * L) by lia. fold vb. cbn [Data Len].
    destruct (Z.leb_spec (0 + Z.of_nat (List.length vb)) (Len (keyData t) - keyOffset t));
      [|lia].
    cbn [bind with_memory with_keyOffset keyData keyOffset memory].
    rewrite !wrap64_small by lia.
    rewrite slice_from_ok by lia. cbn [bind].
    unfold copy. cbn [Data Len].
    unfold with_keyOffset, with_memory.
    cbn [valueSize numItems arena hashes keys values keyData keyOffset length memory].
    fold n.
    replace (0 + n) with n by lia.
    replace (Data (keyData t) + keyOffset t + 0) with (Data (keyData t) + keyOffset t) by lia.
    reflexivity.
  - destruct (Z.leb_spec (keyOffset t) (Len (keyData t))) as [Hin|Hout].
    + rewrite slice_from_ok by lia. cbn [bind].
      unfold PutVarint, PutUvarint. fold L.
      rewrite (to_uint64_small L) by lia.
      rewrite Z.shiftl_mul_pow2 by lia. change (2 ^ 1) with 2.
      rewrite (to_uint64_small (L * 2)) by lia.
      destruct (Z.ltb_spec L 0); [lia|].
      rewrite PutUvarint_loop_spec.
      2:{ unfold MaxVarintLen64. lia. }
      2:{ lia. }
      2:{ unfold MaxVarintLen64. change (2 ^ (7 * Z.of_nat 10)) with (2 ^ 8 * 2 ^ 62). lia. }
      cbv zeta. replace (L * 2) with (2 * L) by lia. fold vb. cbn [Data Len].
      destruct (Z.leb_spec (0 + Z.of_nat (List.length vb)) (Len (keyData t) - keyOffset t));
        [lia|]. reflexivity.
    + unfold slice_from.
      destruct (Z.leb_spec (keyOffset t) (Len (keyData t))); [lia|].
      rewrite andb_false_r. reflexivity.
Qed.

(** The length of the prefix: [k] bytes for a value of [7 k] bits. *)
Lemma length_uvarint_bytes_ge (k : nat) :
  forall (fuel : nat) (x : Z),
  (k < fuel)%nat -> 2 ^ (7 * Z.of_nat k) <= x ->
  (k + 1 <= List.length (uvarint_bytes fuel x))%nat.
Proof.
  induction k as [|k IH]; intros fuel x Hf Hx.
  - destruct fuel as [|fuel]; [lia|]. cbn [uvarint_bytes].
    destruct (128 <=? x); cbn [List.length]; lia.
  - destruct fuel as [|fuel]; [lia|]. cbn [uvarint_bytes].
    replace (7 * Z.of_nat (S k)) with (7 * Z.of_nat k + 7) in Hx by lia.
    rewrite Z.pow_add_r in Hx by lia. change (2 ^ 7) with 128 in Hx.
    assert (P : 1 <= 2 ^ (7 * Z.of_nat k)).
    { pose proof (Z.pow_pos_nonneg 2 (7 * Z.of_nat k) ltac:(lia) ltac:(lia)). lia. }
    destruct (Z.leb_spec 128 x); [|nia].
    cbn [List.length].
    assert (2 ^ (7 * Z.of_nat k) <= Z.shiftr x 7).
    { rewrite Z.shiftr_div_pow2 by lia. change (2 ^ 7) with 128.
      apply Z.div_le_lower_bound; lia. }
    specialize (IH fuel (Z.shiftr x 7) ltac:(lia) ltac:(lia)). lia.
Qed.

Lemma length_key_record_exact (key : string) (k : nat) :
  (1 <= k <= 9)%nat ->
  2 ^ (7 * (Z.of_nat k - 1)) <= 2 * Z.of_nat (String.length key) < 2 ^ (7 * Z.of_nat k) ->
  Z.of_nat (List.length (key_record key)) = Z.of_nat (String.length key) + Z.of_nat k.
Proof.
  intros Hk Hx. rewrite length_key_record.
  pose proof (length_uvarint_bytes_le MaxVarintLen64 k (2 * Z.of_nat (String.length key))
                ltac:(lia) ltac:(lia)) as Hle.
  pose proof (length_uvarint_bytes_ge (k - 1) MaxVarintLen64
                (2 * Z.of_nat (String.length key))
                ltac:(unfold MaxVarintLen64; lia)) as Hge.
  replace (Z.of_nat (k - 1)) with (Z.of_nat k - 1) in Hge by lia.
  specialize (Hge ltac:(lia)). lia.
Qed.

(** X3.  [addKey] and [getKey] are inverse to each other: when the record
    of the key (the length prefix and the bytes of the key) fits what is left
    of the key-data slice, [addKey] returns the old position of the write
    cursor, writes nowhere but between the old and the new cursor, and
    [getKey] at the offset returned gives the key back, as it still does
    for the keys recorded before. *)
Theorem addKey_getKey (t : table) (key : string) :
  0 <= keyOffset t ->
  keyOffset t + Z.of_nat (List.length (key_record key)) <= Len (keyData t) ->
  Len (keyData t) < 2 ^ 62 ->
  exists t', addKey t key = Ret (keyOffset t, t') /\
    getKey t' (keyOffset t) = Ret key /\
    keyData t' = keyData t /\
    keyOffset t' = keyOffset t + Z.of_nat (List.length (key_record key)) /\
    (forall x, ~ (Data (keyData t) + keyOffset t <= x < Data (keyData t) + keyOffset t') ->
               memory t' x = memory t x) /\
    (forall off k, valid_record (memory t) (keyData t) off k ->
                   off + Z.of_nat (List.length (key_record k)) <= keyOffset t ->
                   getKey t' off = Ret k).
Proof.
  intros Hko Hfit Hsmall. eexists. split; [apply addKey_ok; assumption|].
  set (t' := with_keyOffset _ _).
  assert (Ekd : keyData t' = keyData t) by reflexivity.
  assert (Em : memory t' = store_bytes (memory t) (Data (keyData t) + keyOffset t)
                                       (key_record key)) by reflexivity.
  assert (Eko : keyOffset t' = keyOffset t + Z.of_nat (List.length (key_record key)))
    by reflexivity.
  split; [|split; [exact Ekd|split; [exact Eko|split]]].
  - apply getKey_valid; [rewrite Ekd; assumption|].
    unfold valid_record. rewrite Ekd, Em. split; [lia|]. split; [lia|].
    apply load_bytes_store.
  - intros x Hx. rewrite Em. apply store_bytes_outside. rewrite Eko in Hx. lia.
  - intros off k V Hk. apply getKey_valid; [rewrite Ekd; assumption|].
    rewrite Ekd. apply (valid_record_ext (memory t)); [|exact V].
    intros x Hx. rewrite Em. apply store_bytes_outside.
    destruct V as (V0 & _). lia.
Qed.

(** X4.  The cursor advances by the length of the key plus that of the
    length prefix, which is a zig-zag varint: one byte for a key shorter
    than 64 bytes, two bytes from 64 to 8191 bytes, and [k] bytes when
    twice the length takes more than [7 (k - 1)] and at most [7 k] bits. *)
Theorem addKey_advance (t t' : table) (key : string) (start : Z) :
  0 <= keyOffset t -> Len (keyData t) < 2 ^ 62 ->
  Z.of_nat (String.length key) < 2 ^ 62 ->
  addKey t key = Ret (start, t') ->
  let n := Z.of_nat (String.length key) in
  start = keyOffset t /\
  keyOffset t' = keyOffset t + Z.of_nat (List.length (key_record key)) /\
  (n < 64 -> keyOffset t' = keyOffset t + 1 + n) /\
  (64 <= n < 8192 -> keyOffset t' = keyOffset t + 2 + n) /\
  (forall k, (1 <= k <= 9)%nat ->
             2 ^ (7 * (Z.of_nat k - 1)) <= 2 * n < 2 ^ (7 * Z.of_nat k) ->
             keyOffset t' = keyOffset t + Z.of_nat k + n).
Proof.
  intros Hko Hsmall HL E n.
  rewrite (addKey_cases t key Hko Hsmall HL) in E. cbv zeta in E.
  destruct (_ <=? _) in E; [|discriminate].
  assert (E1 : start = keyOffset t).
  { apply (f_equal (fun r => match r with Ret (s, _) => s | Panic _ => 0 end)) in E.
    symmetry. exact E. }
  assert (E2 : keyOffset t' = keyOffset t + Z.of_nat (List.length (key_record key))).
  { apply (f_equal (fun r => match r with Ret (_, u) => keyOffset u | Panic _ => 0 end)) in E.
    cbn [with_keyOffset keyOffset] in E. rewrite <- E, length_key_record. fold n. lia. }
  split; [exact E1|]. split; [exact E2|]. split; [|split].
  - intros Hn. rewrite E2, length_key_record_short by exact Hn. fold n. lia.
  - intros Hn. rewrite E2, (length_key_record_exact key 2); fold n.
    + lia.
    + lia.
    + change (2 ^ (7 * (Z.of_nat 2 - 1))) with 128.
      change (2 ^ (7 * Z.of_nat 2)) with 16384. lia.
  - intros k Hk Hx. rewrite E2, (length_key_record_exact key k Hk Hx). fold n. lia.
Qed.

(** X5.  [addKey] does not check that the key fits.  When the length
    prefix fits what is left of the key-data slice but the key does not,
    [addKey] returns all the same: [copy] stores the bytes that fit and
    nothing behind the slice, the cursor moves past the end of the slice,
    [getKey] at the offset returned panics, and so does every later
    [addKey]. *)
Theorem addKey_truncates (t : table) (key : string) :
  let L := Z.of_nat (String.length key) in
  let n := Z.of_nat (List.length (uvarint_bytes MaxVarintLen64 (2 * L))) in
  0 <= keyOffset t -> Len (keyData t) < 2 ^ 62 -> L < 2 ^ 62 ->
  keyOffset t + n <= Len (keyData t) < keyOffset t + n + L ->
  exists t', addKey t key = Ret (keyOffset t, t') /\
    keyData t' = keyData t /\
    keyOffset t' = keyOffset t + n + L /\
    Len (keyData t') < keyOffset t' /\
    (forall x, Data (keyData t) + Len (keyData t) <= x -> memory t' x = memory t x) /\
    getKey t' (keyOffset t) = Panic IndexOutOfRange /\
    (forall key', addKey t' key' = Panic IndexOutOfRange).
Proof.
  intros L n Hko Hsmall HL Hfit.
  pose proof (addKey_cases t key Hko Hsmall HL) as E. cbv zeta in E.
  fold L in E. fold n in E.
  destruct (Z.leb_spec (keyOffset t + n) (Len (keyData t))) as [_|]; [|lia].
  eexists. split; [exact E|].
  set (t' := with_keyOffset _ _).
  assert (Ekd : keyData t' = keyData t) by reflexivity.
  assert (Eko : keyOffset t' = keyOffset t + n + L) by reflexivity.
  set (vb := uvarint_bytes MaxVarintLen64 (2 * L)) in *.
  set (part := firstn (Z.to_nat (Len (keyData t) - (keyOffset t + n))) (bytes_of_string key)).
  assert (Em : memory t' =
               store_bytes (store_bytes (memory t) (Data (keyData t) + keyOffset t) vb)
                           (Data (keyData t) + (keyOffset t + n)) part) by reflexivity.
  assert (Hpart : Z.of_nat (List.length part) <= Len (keyData t) - (keyOffset t + n)).
  { unfold part. rewrite length_firstn. lia. }
  split; [exact Ekd|]. split; [exact Eko|]. split; [rewrite Ekd, Eko; lia|]. split; [|split].
  - intros x Hx. rewrite Em. rewrite !store_bytes_outside; [reflexivity| |].
    + fold n. lia.
    + lia.
  - unfold getKey. rewrite Ekd. rewrite slice_from_ok by lia. cbn [bind].
    rewrite (ReadVarint_prefix (memory t') _ L).
    + cbn [bind reader_offset offset]. fold vb. fold n.
      rewrite (wrap64_small (n + keyOffset t)) by lia.
      rewrite wrap64_small by lia.
      unfold slice_range.
      destruct (Z.leb_spec (n + keyOffset t + L) (Len (keyData t))); [lia|].
      rewrite andb_false_r. reflexivity.
    + lia.
    + fold vb. fold n. cbn [Len]. lia.
    + fold vb. fold n. cbn [Data]. rewrite Em.
      rewrite (load_bytes_ext (store_bytes (memory t) (Data (keyData t) + keyOffset t) vb)).
      * apply load_bytes_store.
      * intros x Hx. apply store_bytes_outside. lia.
  - intros key'. unfold addKey. rewrite Ekd, Eko. unfold slice_from.
    destruct (Z.leb_spec (keyOffset t + n + L) (Len (keyData t))); [lia|].
    rewrite andb_false_r. reflexivity.
Qed.


(** ** The probe sequence *)



Section TableLemmas.

Variable H : string -> Z.

(** What a successful [GetPtr] tells. *)
Lemma GetPtr_inv (t : table) (k : string) (p : Z) :
  Inv H t -> GetPtr H (Some t) k = Ret (Some p, true) ->
  exists c, 0 <= c < numItems t /\ find t k (hash (H k)) = Ret (c, true) /\
            p = value_addr t c /\ 1 <= valueSize t.
Proof.
  intros I E. pose proof (Inv_WF H t I) as W.
  pose proof I as [In Ivs Ihl Ikl Ivl Ihp Ihk Ikv Ivd Ism Iko Isl].
  cbn [GetPtr] in E.
  destruct (find t k (hash (H k))) as [[c [|]]|q] eqn:Ef; cbn [bind] in E;
    try discriminate.
  destruct (find_sound t k _ c true W (proj1 (hash_range _)) Ef) as (Hc & _).
  exists c. split; [exact Hc|]. split; [reflexivity|].
  assert (B : 0 <= c * valueSize t <= Len (values t)) by (rewrite Ivl; nia).
  rewrite wrap64_small in E by lia.
  destruct (elem_addr (values t) 1 (c * valueSize t)) as [a|q] eqn:Ea; cbn [bind] in E;
    [|discriminate].
  apply elem_addr_inv in Ea. destruct Ea as [Hr ->].
  assert (Ep : Data (values t) + 1 * (c * valueSize t) = p) by congruence.
  split; [unfold value_addr; lia|]. nia.
Qed.

Lemma GetPtr_notfound_inv (t : table) (k : string) :
  GetPtr H (Some t) k = Ret (None, false) ->
  exists c, find t k (hash (H k)) = Ret (c, false).
Proof.
  cbn [GetPtr]. destruct (find t k (hash (H k))) as [[c [|]]|q]; cbn [bind]; intros E.
  - destruct (elem_addr _ _ _); cbn [bind] in E; discriminate.
  - now exists c.
  - discriminate.
Qed.

Lemma full_table_find_panics (t : table) (key : string) :
  WF t ->
  (forall j, 0 <= j < numItems t -> hashAt t j <> 0) ->
  (forall i, 0 <= i < numItems t -> ~ slot_holds t i key) ->
  find t key (hash (H key)) = Panic OutOfSpace.
Proof.
  intros W Hfull Habs.
  destruct (find t key (hash (H key))) as [[i b]|p] eqn:Ef.
  - exfalso.
    destruct (find_sound t key _ i b W (proj1 (hash_range _)) Ef) as (Hi & Ht & Hf).
    destruct b.
    + destruct (Ht eq_refl) as (Hnz & _ & V). apply (Habs i Hi). split; assumption.
    + apply (Hfull i Hi). now apply Hf.
  - destruct (find_panics t key _ p W (proj1 (hash_range _)) Ef) as [-> _]. reflexivity.
Qed.

End TableLemmas.

Section TableProperties.

Variable H : string -> Z.

(** X7.  The values of different keys do not overlap: the pointers
    [GetPtr] returns for two different keys are at least [valueSize] bytes
    apart, and each value lies inside the values section. *)
Theorem GetPtr_values_disjoint (t : table) (k1 k2 : string) (p1 p2 : Z) :
  Inv H t -> k1 <> k2 ->
  GetPtr H (Some t) k1 = Ret (Some p1, true) ->
  GetPtr H (Some t) k2 = Ret (Some p2, true) ->
  (p1 + valueSize t <= p2 \/ p2 + valueSize t <= p1) /\
  Data (values t) <= p1 /\ p1 + valueSize t <= Data (values t) + Len (values t) /\
  Data (values t) <= p2 /\ p2 + valueSize t <= Data (values t) + Len (values t).
Proof.
  intros I Hne E1 E2.
  destruct (GetPtr_inv H t k1 p1 I E1) as (c1 & Hc1 & F1 & -> & Hvs).
  destruct (GetPtr_inv H t k2 p2 I E2) as (c2 & Hc2 & F2 & -> & _).
  pose proof I as [In Ivs Ihl Ikl Ivl Ihp Ihk Ikv Ivd Ism Iko Isl].
  assert (Hc : c1 <> c2).
  { intros ->. apply Hne. exact (find_same_slot H t k1 k2 c2 I F1 F2). }
  unfold value_addr. rewrite Ivl.
  pose proof (slot_disjoint (valueSize t) c1 c2 ltac:(lia) Hc).
  pose proof (slot_inside (numItems t) (valueSize t) c1 ltac:(lia) Hc1).
  pose proof (slot_inside (numItems t) (valueSize t) c2 ltac:(lia) Hc2).
  lia.
Qed.

(** X8.  A table cannot take a new key when every slot is occupied:
    [Set_] of a key that no slot holds panics with "out of space", and so
    does [GetPtr] on it. *)
Theorem full_table_new_key_panics (t : table) (key : string) (val : list Z) :
  WF t ->
  (forall j, 0 <= j < numItems t -> hashAt t j <> 0) ->
  (forall i, 0 <= i < numItems t -> ~ slot_holds t i key) ->
  Set_ H t key val = Panic OutOfSpace /\ GetPtr H (Some t) key = Panic OutOfSpace.
Proof.
  intros W Hfull Habs.
  pose proof (full_table_find_panics H t key W Hfull Habs) as F.
  split.
  - unfold Set_. rewrite F. reflexivity.
  - now apply GetPtr_panic.
Qed.

(** X9.  [New] returns a table in which no key is found, whatever the
    heap held before: [GetPtr] returns (nil, false) for every key. *)
Theorem New_table_is_empty (n vs tkl : Z) (heap : mem) :
  sized n vs tkl ->
  exists t, New n vs tkl heap = Ret t /\ Cap t = New_numItems n /\
            forall key, GetPtr H (Some t) key = Ret (None, false).
Proof.
  intros S.
  destruct (New_Inv H n vs tkl heap S) as (t & E & I & En & _ & _ & _ & Hz & _).
  exists t. split; [exact E|]. split; [exact (proj1 (New_Cap n vs tkl heap t E))|].
  intros key. pose proof (Inv_WF H t I) as W.
  pose proof (wf_numItems t W) as Hn.
  assert (H0 : 0 <= 0 < numItems t) by lia.
  destruct (find_returns t key (hash (H key)) W (proj1 (hash_range _))
              (ex_intro _ 0 (conj H0 (Hz 0 H0))))
    as (i & b & Ef & Hi & Hbt & _).
  destruct b; [|now apply (GetPtr_notfound H t key i)].
  exfalso. destruct (Hbt eq_refl) as (Hnz & _). apply Hnz, Hz, Hi.
Qed.

End TableProperties.


(** ** [Set_] and the other keys *)

Section SetProperties.

Variable H : string -> Z.

(** What [Set_] does to the slots, for a key that is present or absent. *)
Lemma Set_slots (t t' : table) (key : string) (val : list Z) :
  Inv H t ->
  (forall j, find t key (hash (H key)) = Ret (j, false) ->
             keyOffset t + Z.of_nat (List.length (key_record key)) <= Len (keyData t)) ->
  Set_ H t key val = Ret t' ->
  Inv H t' /\ same_shape t t' /\
  exists s, 0 <= s < numItems t /\
    (forall c, 0 <= c < numItems t -> c <> s -> hashAt t' c = hashAt t c) /\
    (forall c, 0 <= c < numItems t -> c <> s ->
               value_bytes t' (value_addr t' c) = value_bytes t (value_addr t c)) /\
    (forall k c, find t k (hash (H k)) = Ret (c, true) ->
                 find t' k (hash (H k)) = Ret (c, true)) /\
    (forall k, find t k (hash (H k)) = Ret (s, true) -> k = key) /\
    (hashAt t' s <> 0 -> find t' key (hash (H key)) = Ret (s, true)).
Proof.
  intros I Hroom E. pose proof (Inv_WF H t I) as W.
  destruct (find t key (hash (H key))) as [[i b]|p] eqn:Ef.
  - destruct (find_sound t key _ i b W (proj1 (hash_range _)) Ef) as (Hi & Ht & Hf).
    destruct b.
    + destruct (Set_found_Inv H t key val i I Ef)
        as (t1 & E1 & I1 & S1 & _ & Hh & Hfd & _ & Hv).
      assert (t1 = t') by congruence. subst t1.
      split; [exact I1|]. split; [exact S1|]. exists i. split; [exact Hi|].
      split; [intros c Hc _; now apply Hh|]. split; [exact Hv|]. split; [exact Hfd|].
      split.
      * intros k Fk. exact (find_same_slot H t k key i I Fk Ef).
      * intros _. now apply Hfd.
    + destruct (Set_new_Inv H t key val i I Ef (Hroom i eq_refl))
        as (t1 & E1 & I1 & S1 & _ & Hj & Hh & Hnew & Hfd & _ & Hv).
      assert (t1 = t') by congruence. subst t1.
      split; [exact I1|]. split; [exact S1|]. exists i. split; [exact Hi|].
      split; [exact Hh|]. split; [exact Hv|]. split; [exact Hfd|]. split.
      * intros k Fk. exfalso.
        destruct (find_sound t k _ i true W (proj1 (hash_range _)) Fk) as (_ & Hk & _).
        destruct (Hk eq_refl) as (Hnz & _). apply Hnz. now apply Hf.
      * intros Hnz. apply Hnew. congruence.
  - exfalso. unfold Set_ in E. rewrite Ef in E. discriminate.
Qed.

(** X10.  [Set_] leaves the other keys alone: a key that was found is
    found afterwards at the same address with the same value bytes, and a
    key that was not found is still not found, provided a slot is still
    free.  (For a new key the record must fit what is left of the key-data
    slice.) *)
Theorem Set_keeps_other_keys (t t' : table) (key : string) (val : list Z) :
  Inv H t ->
  (forall j, find t key (hash (H key)) = Ret (j, false) ->
             keyOffset t + Z.of_nat (List.length (key_record key)) <= Len (keyData t)) ->
  Set_ H t key val = Ret t' ->
  forall k, k <> key ->
    (forall p, GetPtr H (Some t) k = Ret (Some p, true) ->
               GetPtr H (Some t') k = Ret (Some p, true) /\
               value_bytes t' p = value_bytes t p) /\
    ((exists j, 0 <= j < numItems t' /\ hashAt t' j = 0) ->
     GetPtr H (Some t) k = Ret (None, false) ->
     GetPtr H (Some t') k = Ret (None, false)).
Proof.
  intros I Hroom E k Hne.
  destruct (Set_slots t t' key val I Hroom E)
    as (I' & S & s & Hs & Hh & Hv & Hfd & Hown & Hnew).
  pose proof S as (Svs & Sn & _ & _ & _ & Sv & _).
  pose proof (Inv_WF H t I) as W. pose proof (Inv_WF H t' I') as W'.
  split.
  - intros p G.
    destruct (GetPtr_inv H t k p I G) as (c & Hc & Fc & -> & Hvs).
    assert (Hcs : c <> s) by (intros ->; apply Hne, Hown, Fc).
    pose proof I' as [In Ivs Ihl Ikl Ivl Ihp Ihk Ikv Ivd Ism Iko Isl].
    assert (Ea : value_addr t' c = value_addr t c)
      by (unfold value_addr; now rewrite Sv, Svs).
    split.
    + rewrite <- Ea. apply GetPtr_found; try lia.
      now apply Hfd.
    + rewrite <- Ea at 1. now apply Hv.
  - intros Hfree G.
    destruct (GetPtr_notfound_inv H t k G) as (c & Fc).
    destruct (find_returns t' k (hash (H k)) W' (proj1 (hash_range _)) Hfree)
      as (i & b & Ef & Hi & Hbt & _).
    destruct b; [|now apply (GetPtr_notfound H t' k i)].
    exfalso. destruct (Hbt eq_refl) as (Hnz & _).
    rewrite Sn in Hi.
    destruct (Z.eq_dec i s) as [->|His].
    + apply Hne. exact (find_same_slot H t' k key s I' Ef (Hnew Hnz)).
    + rewrite (Hh i Hi His) in Hnz.
      destruct (inv_slots H t I i Hi Hnz) as (k0 & _ & _ & _ & F0).
      pose proof (Hfd k0 i F0) as F0'.
      assert (k = k0) by exact (find_same_slot H t' k k0 i I' Ef F0'). subst k0.
      congruence.
Qed.

(** X11.  [Set_] of a key that is not in the table, when its record fits
    what is left of the key-data slice: it takes the empty slot [find]
    returned, and writes only the hash and the key offset of that slot, its
    value bytes, and the record of the key at the write cursor, which
    advances by the length of the record.  The key is then found in that
    slot, unless its hash is 0. *)
Theorem Set_absent_key_frame (t : table) (key : string) (val : list Z) (j : Z) :
  Inv H t ->
  find t key (hash (H key)) = Ret (j, false) ->
  keyOffset t + Z.of_nat (List.length (key_record key)) <= Len (keyData t) ->
  exists t', Set_ H t key val = Ret t' /\
    same_shape t t' /\
    keyOffset t' = keyOffset t + Z.of_nat (List.length (key_record key)) /\
    hashAt t' j = hash (H key) /\
    value_bytes t' (value_addr t' j) = val_bytes val (valueSize t) /\
    (hash (H key) <> 0 -> find t' key (hash (H key)) = Ret (j, true)) /\
    (forall x,
       ~ (Data (hashes t) + 4 * j <= x < Data (hashes t) + 4 * j + 4) ->
       ~ (Data (keys t) + 8 * j <= x < Data (keys t) + 8 * j + 8) ->
       ~ (value_addr t j <= x < value_addr t j + valueSize t) ->
       ~ (Data (keyData t) + keyOffset t <= x < Data (keyData t) + keyOffset t') ->
       memory t' x = memory t x) /\
    (forall c, 0 <= c < numItems t -> c <> j ->
               hashAt t' c = hashAt t c /\
               value_bytes t' (value_addr t' c) = value_bytes t (value_addr t c)).
Proof.
  intros I Ef Hroom.
  destruct (Set_new_Inv H t key val j I Ef Hroom)
    as (t1 & E1 & I1 & S1 & Eko & Hj & Hh & Hnew & _ & Vj & Hv).
  destruct (Set_new H t key val j I Ef Hroom) as (t2 & E2 & _ & _ & Em).
  assert (t2 = t1) by congruence. subst t2.
  exists t1. split; [exact E1|]. split; [exact S1|]. split; [exact Eko|].
  split; [exact Hj|]. split; [exact Vj|]. split; [exact Hnew|]. split.
  - intros x X1 X2 X3 X4. rewrite Em.
    pose proof I as [In Ivs Ihl Ikl Ivl Ihp Ihk Ikv Ivd Ism Iko Isl].
    rewrite store_bytes_outside.
    2:{ rewrite length_val_bytes by lia. lia. }
    rewrite store_bytes_outside.
    2:{ rewrite length_le_encode. lia. }
    rewrite store_bytes_outside.
    2:{ rewrite Eko in X4. lia. }
    rewrite store_bytes_outside.
    2:{ rewrite length_le_encode. lia. }
    reflexivity.
  - intros c Hc Hcj. split; [now apply Hh|now apply Hv].
Qed.

End SetProperties.


(** ** Degenerate sizes *)

Lemma model_of_Some (kvs : list (string * list Z)) (key : string) :
  In key (map fst kvs) -> exists v, model_of kvs key = Some v.
Proof.
  induction kvs as [|[k v] l IH] using rev_ind; [intros []|].
  rewrite map_app, in_app_iff, model_of_snoc. unfold update. cbn [map fst In].
  intros Hin. destruct (String.eqb_spec key k) as [->|Hne].
  - now exists v.
  - apply IH. destruct Hin as [Hin|[Hin|[]]]; [exact Hin|congruence].
Qed.

Lemma find_no_slots (t : table) (key : string) (h : Z) :
  Len (hashes t) = 0 -> find t key h = Panic IndexOutOfRange.
Proof.
  intros E. unfold find, find_budget. cbn [find_loop]. unfold elem_addr. rewrite E.
  destruct (Z.leb_spec 0 (Z.land h (numItems t - 1)));
    destruct (Z.ltb_spec (Z.land h (numItems t - 1)) 0); cbn [andb bind];
    try reflexivity; lia.
Qed.

Lemma New_numItems_nonpos (n : Z) : - 2 ^ 63 < n <= 0 -> New_numItems n = 0.
Proof.
  intros Hn. unfold New_numItems, LeadingZeros, Len64.
  assert (P : 2 ^ 64 = 2 * 2 ^ 63) by (vm_compute; reflexivity).
  assert (E : to_uint64 (n - 1) = n - 1 + 2 ^ 64).
  { unfold to_uint64. rewrite <- (Z.mod_add (n - 1) 1 (2 ^ 64)) by lia.
    apply Z.mod_small. lia. }
  rewrite E.
  destruct (Z.eqb_spec (n - 1 + 2 ^ 64) 0); [lia|].
  rewrite (Z.log2_unique (n - 1 + 2 ^ 64) 63) by (change (2 ^ (63 + 1)) with (2 ^ 64); lia).
  vm_compute. reflexivity.
Qed.

Lemma offsets_no_slots (vs tkl : Z) :
  0 <= tkl < 2 ^ 62 ->
  Layout.offsets 0 vs tkl =
  {| Layout.o_hashes := 16; Layout.o_keys := 16; Layout.o_values := 16;
     Layout.o_keyData := 16; Layout.o_length := 16 + tkl |}.
Proof.
  intros Ht. unfold Layout.offsets. cbv zeta.
  unfold Layout.sizeof_header, Layout.sizeof_hash, Layout.sizeof_keyOffset,
    Layout.alignof_keyOffset, Layout.sizeof_stringLength.
  rewrite !Z.mul_0_r.
  replace (wrap64 0) with 0 by (vm_compute; reflexivity).
  replace (16 + 0) with 16 by reflexivity.
  replace (wrap64 16) with 16 by (vm_compute; reflexivity).
  replace (Layout.roundUp 16 8) with 16 by (vm_compute; reflexivity).
  replace (16 + 0) with 16 by reflexivity.
  replace (wrap64 16) with 16 by (vm_compute; reflexivity).
  replace (16 + 0) with 16 by reflexivity.
  replace (wrap64 16) with 16 by (vm_compute; reflexivity).
  rewrite (wrap64_small (16 + tkl)) by lia.
  rewrite Z.add_0_r. rewrite (wrap64_small (16 + tkl)) by lia.
  reflexivity.
Qed.

Section DegenerateSizes.

Variable H : string -> Z.

(** X12.  [New] with a requested item count of zero or below returns a
    table without slots: its capacity is 0, and every [Set_] and every
    [GetPtr] on it panics with an index out of range. *)
Theorem New_no_items (n vs tkl : Z) (heap : mem) :
  - 2 ^ 63 < n <= 0 -> 0 <= tkl <= maxAlloc - 24 ->
  exists t, New n vs tkl heap = Ret t /\ Cap t = 0 /\
    forall key val,
      Set_ H t key val = Panic IndexOutOfRange /\
      GetPtr H (Some t) key = Panic IndexOutOfRange.
Proof.
  intros Hn Ht. unfold maxAlloc in Ht.
  assert (P : 2 ^ 48 < 2 ^ 62) by (vm_compute; reflexivity).
  unfold New. rewrite (New_numItems_nonpos n Hn). cbv zeta.
  rewrite offsets_no_slots by lia.
  cbn [Layout.o_hashes Layout.o_keys Layout.o_values Layout.o_keyData Layout.o_length].
  rewrite (wrap64_small (16 + tkl + 1)) by lia.
  rewrite Z.quot_div_nonneg by lia.
  pose proof (Z.div_mod (16 + tkl + 1) 8 ltac:(lia)) as Hdm.
  pose proof (Z.mod_pos_bound (16 + tkl + 1) 8 ltac:(lia)) as Hmb.
  set (q := (16 + tkl + 1) / 8) in *.
  rewrite (wrap64_small (q - 1)) by lia.
  unfold make_int64, maxAlloc.
  destruct (Z.ltb_spec (q - 1) 0); [lia|].
  destruct (Z.ltb_spec (2 ^ 48) (8 * (q - 1))); [lia|].
  cbn [orb bind Data].
  eexists. split; [reflexivity|]. split; [reflexivity|].
  intros key val.
  assert (F : forall h, find
     {| valueSize := vs; numItems := 0; arena := {| Data := 0; Len := q - 1 |};
        hashes := {| Data := 0 + 16; Len := 0 |};
        keys := {| Data := 0 + 16; Len := 0 |};
        values := {| Data := 0 + 16; Len := wrap64 (0 * vs) |};
        keyData := {| Data := 0 + 16; Len := wrap64 (16 + tkl - 16) |};
        keyOffset := 0; length := 16 + tkl;
        memory := fun a => if (0 <=? a) && (a <? 8 * (q - 1)) then 0 else heap a |}
     key h = Panic IndexOutOfRange).
  { intros h. apply find_no_slots. reflexivity. }
  split.
  - unfold Set_. rewrite F. reflexivity.
  - apply GetPtr_panic. apply F.
Qed.

(** X13.  A table with [valueSize] 0 cannot be read: every [Set_] of a
    run with adequate sizes returns, but [GetPtr] never reports a key as
    found, and for each key that was set (and whose hash is not 0) it
    panics with an index out of range, on the address of a value in the
    empty values slice. *)
Theorem GetPtr_valueSize_zero (n tkl : Z) (heap : mem) (kvs : list (string * list Z)) :
  sized n 0 tkl ->
  Z.of_nat (List.length kvs) <= n ->
  total_key_length kvs <= tkl ->
  Forall (fun kv => Z.of_nat (String.length (fst kv)) < 2 ^ 27) kvs ->
  exists t, build H n 0 tkl heap kvs = Ret t /\
    (forall key p, GetPtr H (Some t) key <> Ret (Some p, true)) /\
    (forall key, In key (map fst kvs) -> hash (H key) <> 0 ->
                 GetPtr H (Some t) key = Panic IndexOutOfRange).
Proof.
  intros S Hlen Htkl Hshort.
  destruct (New_Built H n 0 tkl heap S) as (t0 & E0 & B0 & En & Evs & Ekd).
  pose proof S as (Hn & _).
  destruct (New_numItems_spec n Hn) as (k & Hk & Ek & Hle & Hlt).
  pose proof (total_record_length_budget kvs Hshort) as Hb.
  destruct (SetAll_Built H kvs [] t0 B0) as (t & E & B & Sh).
  - cbn [app]. lia.
  - cbn [app]. lia.
  - cbn [app] in B. exists t. split; [unfold build; rewrite E0; exact E|].
    pose proof Sh as (Evs' & _).
    pose proof (built_inv H t kvs B) as I.
    pose proof (inv_values H t I) as Ivl.
    assert (Vz : valueSize t = 0) by congruence.
    assert (Lz : Len (values t) = 0) by (rewrite Ivl, Vz; lia).
    assert (G : forall key i, find t key (hash (H key)) = Ret (i, true) ->
                              GetPtr H (Some t) key = Panic IndexOutOfRange).
    { intros key i F. cbn [GetPtr]. rewrite F. cbn [bind]. rewrite Vz, Z.mul_0_r.
      unfold elem_addr. rewrite Lz.
      replace (wrap64 0) with 0 by (vm_compute; reflexivity). reflexivity. }
    split.
    + intros key p Eg. cbn [GetPtr] in Eg.
      destruct (find t key (hash (H key))) as [[i [|]]|q] eqn:F; cbn [bind] in Eg;
        try discriminate.
      pose proof (G key i F) as Gp. cbn [GetPtr] in Gp. rewrite F in Gp. cbn [bind] in Gp.
      congruence.
    + intros key Hin Hnz. destruct (model_of_Some kvs key Hin) as (v & Hm).
      destruct (built_get H t kvs B key v Hm Hnz) as (i & F & _).
      exact (G key i F).
Qed.

End DegenerateSizes.


(** ** The view and the builder *)

Section ViewProperties.

Variable H : string -> Z.

(** Reading through the view of a builder is reading the builder, 16
    bytes further. *)
Lemma view_GetPtr (t : table) (key : string) :
  Inv H t -> laid_out t ->
  let r := tbl (NewFromBytes (snd (WriteTo t []))) in
  GetPtr H (Some r) key =
    match GetPtr H (Some t) key with
    | Ret (Some p, b) => Ret (Some (16 + p), b)
    | other => other
    end /\
  forall p, GetPtr H (Some t) key = Ret (Some p, true) ->
            value_bytes r (16 + p) = value_bytes t p.
Proof.
  intros I L.
  destruct (view_of_builder H t I L)
    as (W1 & W2 & Rn & Rvs & Rc & Rh & Rk & Rv & Rd & Rvl & Rm & Rf).
  set (r := tbl (NewFromBytes (snd (WriteTo t [])))) in *. cbv zeta.
  split.
  - cbn [GetPtr]. rewrite Rf.
    destruct (find t key (hash (H key))) as [[c [|]]|q]; cbn [bind]; try reflexivity.
    rewrite Rvs. unfold elem_addr. rewrite Rvl, Rv.
    destruct ((0 <=? wrap64 (c * valueSize t)) && (wrap64 (c * valueSize t) <? Len (values t)));
      cbn [bind]; [|reflexivity].
    do 3 f_equal. lia.
  - intros p G.
    destruct (GetPtr_inv H t key p I G) as (c & Hc & _ & -> & Hvs).
    pose proof I as [In Ivs Ihl Ikl Ivl Ihp Ihk Ikv Ivd Ism Iko Isl].
    destruct L as (La & Lh & Lk & Lv & Ld & Ll).
    destruct (slot_inside (numItems t) (valueSize t) c Ivs Hc) as [S1 S2].
    unfold value_bytes. rewrite Rvs.
    apply (load_bytes_shift (memory t)).
    intros x Hx. apply Rm. unfold value_addr in Hx. lia.
Qed.

(** X14.  Reading the file is reading the builder: in the view opened on
    the bytes [WriteTo] produced for a builder with adequate size
    parameters, [GetPtr] gives for every key the result it gives in the
    builder (found, not found, or the same panic), the pointer lies 16
    bytes further from the start of the data than it does from the start of
    the arena, and the value bytes behind it are the same. *)
Theorem view_reads_as_builder
    (n vs tkl : Z) (heap : mem) (kvs : list (string * list Z)) :
  adequate n vs tkl kvs ->
  exists t f, build H n vs tkl heap kvs = Ret t /\
    WriteTo t [] = (16 + length t, f) /\
    let r := tbl (NewFromBytes f) in
    forall key,
      GetPtr H (Some r) key =
        match GetPtr H (Some t) key with
        | Ret (Some p, b) => Ret (Some (16 + p), b)
        | other => other
        end /\
      forall p, GetPtr H (Some t) key = Ret (Some p, true) ->
                value_bytes r (16 + p) = value_bytes t p.
Proof.
  intros A.
  destruct (build_ok H n vs tkl heap kvs A) as (t & E & B & L & _).
  pose proof (built_inv H t kvs B) as I.
  destruct (view_of_builder H t I L) as (W1 & _).
  exists t, (snd (WriteTo t [])). split; [exact E|].
  split; [rewrite <- W1; now destruct (WriteTo t [])|].
  cbv zeta. intros key. exact (view_GetPtr t key I L).
Qed.

(** X15.  The values are aligned: when [valueSize] is a multiple of [a],
    for [a] one of 1, 2, 4 and 8, every pointer [GetPtr] returns is a
    multiple of [a], counted from the start of the arena in the builder and
    from the start of the data in the view. *)
Theorem GetPtr_aligned
    (n vs tkl a : Z) (heap : mem) (kvs : list (string * list Z)) :
  adequate n vs tkl kvs -> (a | 8) -> (a | vs) ->
  exists t f, build H n vs tkl heap kvs = Ret t /\
    WriteTo t [] = (16 + length t, f) /\
    (forall key p, GetPtr H (Some t) key = Ret (Some p, true) -> (a | p)) /\
    (forall key p, GetPtr H (Some (tbl (NewFromBytes f))) key = Ret (Some p, true) ->
                   (a | p)).
Proof.
  intros A Ha Hvs.
  destruct (build_ok H n vs tkl heap kvs A) as (t & E & B & L & En & Evs & _).
  pose proof (built_inv H t kvs B) as I.
  destruct (view_of_builder H t I L) as (W1 & _).
  exists t, (snd (WriteTo t [])). split; [exact E|].
  split; [rewrite <- W1; now destruct (WriteTo t [])|].
  assert (G : forall key p, GetPtr H (Some t) key = Ret (Some p, true) -> (a | p)).
  { intros key p G.
    destruct (GetPtr_inv H t key p I G) as (c & Hc & _ & -> & _).
    pose proof A as ((Hn & Hvs0 & Htkl & Hsz) & _).
    destruct (New_numItems_spec n Hn) as (k & Hk & Ek & Hle & Hlt).
    destruct (offsets_spec (New_numItems n) vs 0 ltac:(lia) Hvs0 ltac:(lia)
                ltac:(unfold maxAlloc in *; lia)) as (_ & O2 & _ & O4 & _).
    destruct L as (_ & _ & _ & Lv & _). rewrite En, Evs in Lv.
    unfold value_addr. rewrite Lv, O4, O2, Evs.
    apply Z.divide_add_r; [apply Z.divide_add_r|].
    - apply Z.divide_trans with 8; [exact Ha|]. apply Z.divide_factor_l.
    - apply Z.divide_trans with 8; [exact Ha|]. apply Z.divide_factor_l.
    - apply Z.divide_mul_r. exact Hvs. }
  split; [exact G|].
  intros key p Gr.
  destruct (view_GetPtr t key I L) as [Eg _]. cbv zeta in Eg. rewrite Gr in Eg.
  destruct (GetPtr H (Some t) key) as [[[q|] b]|q] eqn:Gt; try discriminate.
  assert (p = 16 + q /\ b = true) as [-> ->].
  { split; congruence. }
  apply Z.divide_add_r; [|now apply (G key)].
  apply Z.divide_trans with 8; [exact Ha|]. exists 2. reflexivity.
Qed.

End ViewProperties.

(** X16.  [newFromData] gives the key-data slice of a view the length of
    the file less the key-data offset, but starts it 16 bytes after that
    offset, behind the header: whatever the file holds behind a header with
    sizes that are not negative, the slice ends 16 bytes after the end of
    the file, and its bounds check lets through the 16 offsets that point
    there. *)
Theorem view_keyData_past_end (data : list Z) :
  let r := tbl (NewFromBytes data) in
  let c := load_i64 (mem_of_bytes data) 0 in
  let vs := load_i64 (mem_of_bytes data) 8 in
  0 <= c -> 0 <= vs -> 24 + (16 + vs) * c < 2 ^ 62 ->
  16 <= Z.of_nat (List.length data) < 2 ^ 62 ->
  Data (keyData r) + Len (keyData r) = Z.of_nat (List.length data) + 16 /\
  forall off, Len (keyData r) - 16 <= off < Len (keyData r) -> 0 <= off ->
    exists a, elem_addr (keyData r) 1 off = Ret a /\ Z.of_nat (List.length data) <= a.
Proof.
  intros r c vs Hc Hvs Hsz Hlen.
  destruct (offsets_sections c vs 0 Hc Hvs ltac:(lia) ltac:(lia))
    as (O1 & O2 & _ & O4 & _ & O6 & _).
  cbv zeta in *.
  assert (Hvc : 0 <= vs * c) by nia.
  assert (B : 16 * c + vs * c < 2 ^ 62 - 24) by nia.
  assert (Ed : Data (keyData r) = 16 + Layout.o_keyData (Layout.offsets c vs 0))
    by reflexivity.
  assert (El : Len (keyData r)
               = wrap64 (Z.of_nat (List.length data)
                         - Layout.o_keyData (Layout.offsets c vs 0))) by reflexivity.
  rewrite wrap64_small in El by lia.
  split; [lia|].
  intros off Ho Ho0. exists (Data (keyData r) + 1 * off). split.
  - apply elem_addr_ok. lia.
  - lia.
Qed.


(** ** The allocation of the arena *)

Section Allocation.

Variable H : string -> Z.

(** X17.  A builder with adequate size parameters, at least eight slots
    and keys shorter than 64 bytes writes inside its arena slice only: the
    heap behind the last word of the arena is as it was before [New]. *)
Theorem arena_not_overrun (n vs tkl : Z) (heap : mem) (kvs : list (string * list Z))
    (t : table) :
  adequate n vs tkl kvs ->
  8 <= New_numItems n ->
  Forall (fun kv => Z.of_nat (String.length (fst kv)) < 64) kvs ->
  build H n vs tkl heap kvs = Ret t ->
  forall x, 8 * Len (arena t) <= x -> memory t x = heap x.
Proof. exact (build_stays_in_arena H n vs tkl heap kvs t). Qed.

(** X18.  [New] makes the arena a slice of [(length+1)/8 - 1] words,
    which is 7 to 14 bytes less than the [length] bytes of the layout, and
    [WriteTo] writes [length] bytes from the start of the arena: the last 7
    to 14 bytes of the file are read from behind the arena slice.  With at
    least eight slots and keys shorter than 64 bytes they are what the heap
    held there before [New]. *)
Theorem WriteTo_reads_past_arena
    (n vs tkl : Z) (heap : mem) (kvs : list (string * list Z)) :
  adequate n vs tkl kvs ->
  exists t f, build H n vs tkl heap kvs = Ret t /\
    WriteTo t [] = (16 + length t, f) /\
    Z.of_nat (List.length f) = 16 + length t /\
    length t - 14 <= 8 * Len (arena t) <= length t - 7 /\
    (8 <= New_numItems n ->
     Forall (fun kv => Z.of_nat (String.length (fst kv)) < 64) kvs ->
     forall x, 8 * Len (arena t) <= x < length t ->
               nth (Z.to_nat (16 + x)) f 0 = heap x).
Proof.
  intros A.
  destruct (build_ok H n vs tkl heap kvs A) as (t & E & B & L & _).
  pose proof (built_inv H t kvs B) as I.
  destruct (view_of_builder H t I L) as (W1 & W2 & _).
  pose proof A as (S & _).
  destruct (New_Inv H n vs tkl heap S) as (t0 & E0 & _ & _ & _ & _ & _ & _ & L0 & Hal & _).
  destruct (build_steps H n vs tkl heap kvs t E) as (t1 & E1 & ES).
  assert (t1 = t0) by congruence. subst t1.
  destruct (New_Built H n vs tkl heap S) as (t0' & E0' & B0 & En & _ & Ekd).
  assert (t0' = t0) by congruence. subst t0'.
  pose proof S as (Hn & _).
  destruct (New_numItems_spec n Hn) as (k & Hk & Ek & Hle & Hlt).
  pose proof A as (_ & _ & Hlen & Htkl & Hshort & _).
  pose proof (total_record_length_budget kvs Hshort) as Hb.
  destruct (SetAll_Built H kvs [] t0 B0) as (t2 & E2 & _ & Sh);
    [cbn [app]; lia|cbn [app]; lia|].
  assert (t2 = t) by congruence. subst t2.
  destruct Sh as (_ & _ & Sa & _ & _ & _ & _ & Sl).
  exists t, (snd (WriteTo t [])). split; [exact E|].
  split; [rewrite <- W1; now destruct (WriteTo t [])|].
  split; [exact W2|]. split; [rewrite Sa, Sl; exact Hal|].
  intros H8 Hs x Hx.
  pose proof I as [In Ivs Ihl Ikl Ivl Ihp Ihk Ikv Ivd Ism Iko Isl].
  destruct L as (La & Lh & _ & _ & Ld & Ll).
  change (Data (hashes t) = 16) in Lh.
  assert (Ha : Len (arena t) = Len (arena t0)) by congruence.
  assert (Hv : 0 <= Len (values t)) by (rewrite Ivl; nia).
  rewrite (WriteTo_spec t) by lia. cbn [snd].
  assert (Hl : 0 <= x < length t) by lia.
  pose proof (file_byte t x Hl) as Fb. unfold mem_of_bytes in Fb.
  destruct (Z.ltb_spec (16 + x) 0); [lia|].
  rewrite Fb, La. cbn [Z.add].
  apply (build_stays_in_arena H n vs tkl heap kvs t); try assumption. lia.
Qed.

(** X19.  The smallest table is written out of bounds.  With one slot and
    a key as long as the declared total key length (below 64 bytes), the
    record of the key ends three bytes before the end of the layout, but
    [New] made the arena at least 7 bytes shorter than the layout: [Set_]
    stores the last bytes of the record, up to four of them, behind the
    last word of the arena slice. *)
Theorem Set_overruns_one_slot_arena
    (vs tkl : Z) (heap : mem) (key : string) (val : list Z) :
  sized 1 vs tkl -> Z.of_nat (String.length key) = tkl -> tkl < 64 ->
  exists t0 t, New 1 vs tkl heap = Ret t0 /\ Set_ H t0 key val = Ret t /\
    arena t = arena t0 /\
    forall i, 0 <= i -> tkl - 3 <= i <= tkl ->
      8 * Len (arena t0) <= Data (keyData t0) + i /\
      memory t (Data (keyData t0) + i) = nth (Z.to_nat i) (key_record key) 0.
Proof.
  intros S Hk Hshort.
  assert (N1 : New_numItems 1 = 1) by (vm_compute; reflexivity).
  destruct (New_Inv H 1 vs tkl heap S)
    as (t0 & E0 & I0 & En & Evs & Eko & Ekd & Hz & L0 & Hal & _).
  rewrite N1 in En, Ekd.
  pose proof (Inv_WF H t0 I0) as W.
  assert (H0 : 0 <= 0 < numItems t0) by lia.
  assert (Ef : find t0 key (hash (H key)) = Ret (0, false)).
  { destruct (find_returns t0 key (hash (H key)) W (proj1 (hash_range _))
                (ex_intro _ 0 (conj H0 (Hz 0 H0)))) as (i & b & Ef & Hi & Hbt & _).
    destruct b.
    - exfalso. destruct (Hbt eq_refl) as (Hnz & _). apply Hnz, Hz, Hi.
    - replace i with 0 in Ef by lia. exact Ef. }
  pose proof (length_key_record_short key ltac:(lia)) as Hrec.
  destruct (Set_new H t0 key val 0 I0 Ef ltac:(lia)) as (t & E & Sh & _ & Em).
  exists t0, t. split; [exact E0|]. split; [exact E|].
  destruct Sh as (_ & _ & Sa & _).
  split; [exact Sa|].
  intros i Hi0 Hi.
  pose proof I0 as [In Ivs Ihl Ikl Ivl Ihp Ihk Ikv Ivd Ism Iko Isl].
  destruct L0 as (_ & _ & _ & _ & _ & Ll).
  rewrite En in Ivl, Ikv.
  split; [lia|].
  rewrite Em.
  rewrite store_bytes_outside.
  2:{ rewrite length_val_bytes by lia. unfold value_addr. lia. }
  rewrite store_bytes_outside.
  2:{ rewrite length_le_encode. lia. }
  rewrite store_bytes_inside by lia.
  f_equal. lia.
Qed.

End Allocation.


(** ** Opening and closing a file *)

Section SystemProperties.

Variable kernel : list call -> call -> Z * Z.
Variable peek : list call -> Z -> Z.


(** X21.  [NewFromBytes] records the address and the length of the
    caller's byte slice as if they were a mapping: [Close] on the view of a
    slice (of a header at least) calls [munmap] on the memory of the
    slice. *)
Theorem Close_NewFromBytes_unmaps (past : list call) (ptr : Z) (bytes : list Z) :
  ptr <> 0 -> 16 <= Z.of_nat (List.length bytes) ->
  snd (Close kernel past (NewFromBytes_at ptr bytes))
  = past ++ [SYS_MUNMAP ptr (Z.of_nat (List.length bytes))].
Proof.
  intros Hp Hb. unfold Close, NewFromBytes_at, NewFromBytes, newFromData, unmap, sys.
  cbn [data read dataLength].
  destruct (Z.eqb_spec ptr 0) as [|_]; [contradiction|].
  destruct (Z.eqb_spec (Z.of_nat (List.length bytes)) 0) as [E|_].
  - lia.
  - cbn [negb andb].
    destruct (kernel past _) as [v errno]. destruct (negb (errno =? 0)); reflexivity.
Qed.

(** X22.  When locking the mapped pages fails, [mapMemory] returns the
    error and no pointer, and leaves the mapping it made in place: the
    calls are the [mmap] and the [mlock], with no [munmap].  [NewFrom] then
    returns that error and no table. *)
Theorem NewFrom_mlock_failure
    (past : list call) (name : string) (fd len data e : Z) :
  let c1 := os_Open name in
  let c2 := File_Seek fd 0 io_SeekEnd in
  let c3 := SYS_MMAP 0 (to_uint64 len) PROT_READ (Z.lor MAP_FILE MAP_PRIVATE) fd 0 in
  let c4 := SYS_MLOCK data (to_uint64 len) in
  kernel past c1 = (fd, 0) ->
  kernel (past ++ [c1]) c2 = (len, 0) ->
  kernel ((past ++ [c1]) ++ [c2]) c3 = (data, 0) ->
  snd (kernel (((past ++ [c1]) ++ [c2]) ++ [c3]) c4) = e -> e <> 0 ->
  mapMemory kernel ((past ++ [c1]) ++ [c2]) fd (to_uint64 len)
  = ((0, Some e), (((past ++ [c1]) ++ [c2]) ++ [c3]) ++ [c4]) /\
  NewFrom kernel peek past name
  = ((None, Some e), (((past ++ [c1]) ++ [c2]) ++ [c3]) ++ [c4]).
Proof.
  intros c1 c2 c3 c4 K1 K2 K3 K4 He.
  assert (M : mapMemory kernel ((past ++ [c1]) ++ [c2]) fd (to_uint64 len)
              = ((0, Some e), (((past ++ [c1]) ++ [c2]) ++ [c3]) ++ [c4])).
  { unfold mapMemory, sys. fold c3. rewrite K3. cbn [Z.eqb negb]. fold c4.
    destruct (kernel (((past ++ [c1]) ++ [c2]) ++ [c3]) c4) as [v errno].
    cbn [snd] in K4. subst errno.
    destruct (Z.eqb_spec e 0); [contradiction|]. reflexivity. }
  split; [exact M|].
  unfold NewFrom, sys. fold c1. rewrite K1. cbn [Z.eqb negb]. fold c2. rewrite K2.
  cbn [Z.eqb negb]. rewrite M. reflexivity.
Qed.

End SystemProperties.


(** ** The file, mapped *)

Section Mapping.

Variable H : string -> Z.

(** The view [newFromData] makes of a memory that holds the file of a
    builder. *)
Lemma view_of_mapping (t : table) (m' : mem) :
  Inv H t -> laid_out t ->
  (forall x, 0 <= x < 16 + length t -> m' x = mem_of_bytes (snd (WriteTo t [])) x) ->
  let r := tbl (newFromData m' (16 + length t)) in
  valueSize r = valueSize t /\
  Data (values r) = 16 + Data (values t) /\
  Len (values r) = Len (values t) /\
  (forall x, 0 <= x < length t -> memory r (16 + x) = memory t x) /\
  (forall key h, find r key h = find t key h).
Proof.
  intros I (La & Lh & Lk & Lv & Ld & Ll) Hm'.
  pose proof I as [In Ivs Ihl Ikl Ivl Ihp Ihk Ikv Ivd Ism Iko Isl].
  assert (Hvn : 0 <= numItems t * valueSize t) by nia.
  assert (Hlen : 0 <= length t < 2 ^ 62) by lia.
  rewrite (WriteTo_spec t Hlen) in Hm'. cbn [snd] in Hm'.
  set (f := header_bytes t ++ load_bytes (memory t) (Data (arena t)) (length t)) in *.
  destruct (file_header t (load_bytes (memory t) (Data (arena t)) (length t))) as [Hn Hv];
    [lia|lia|]. fold f in Hn, Hv.
  assert (Hn' : load_i64 m' 0 = numItems t).
  { rewrite <- Hn. apply load_i64_ext. intros x Hx. apply Hm'. lia. }
  assert (Hv' : load_i64 m' 8 = valueSize t).
  { rewrite <- Hv. apply load_i64_ext. intros x Hx. apply Hm'. lia. }
  assert (Hm : forall x, 0 <= x < length t -> m' (16 + x) = memory t x).
  { intros x Hx. rewrite Hm' by lia. unfold f. rewrite file_byte by assumption.
    rewrite La. f_equal. }
  unfold newFromData. cbv zeta. rewrite Hn', Hv'.
  cbn [tbl numItems valueSize hashes keys values keyData memory Data Len Cap].
  rewrite <- Lh, <- Lk, <- Lv, <- Ld.
  assert (H16 : Data (hashes t) = 16) by (rewrite Lh; reflexivity).
  unfold Layout.sizeof_header.
  rewrite (wrap64_small (numItems t * valueSize t)) by lia.
  rewrite (wrap64_small (16 + length t - Data (keyData t))) by lia.
  split; [reflexivity|]. split; [lia|].
  split; [symmetry; exact Ivl|]. split; [exact Hm|].
  intros key h. unfold find, find_budget.
  cbn [numItems hashes Len]. rewrite Ihl.
  set (r := {| valueSize := valueSize t; numItems := numItems t;
               arena := {| Data := 0; Len := 0 |};
               hashes := {| Data := 0 + 16 + Data (hashes t); Len := numItems t |};
               keys := {| Data := 0 + 16 + Data (keys t); Len := numItems t |};
               values := {| Data := 0 + 16 + Data (values t);
                            Len := numItems t * valueSize t |};
               keyData := {| Data := 0 + 16 + Data (keyData t);
                             Len := 16 + length t - Data (keyData t) |};
               keyOffset := 0; length := 0; memory := m' |}).
  pose proof (land_range_mask h (numItems t - 1) ltac:(lia)) as Hs.
  apply find_loop_ext; try lia.
  - unfold r. cbn [hashes Len]. lia.
  - unfold r. cbn [keys Len]. lia.
  - intros c Hc. rewrite Ihl in Hc. split.
    * unfold hashAt, r. cbn [memory hashes Data].
      unfold load_u32. f_equal.
      match goal with |- load_bytes _ ?a _ = _ =>
        replace a with (16 + (Data (hashes t) + 4 * c)) by lia end.
      apply load_bytes_shift. intros x Hx. apply Hm. nia.
    * intros Hnz. destruct (Isl c Hc Hnz) as (kc & K1 & K2 & K3 & K4).
      assert (Ek : keyOffAt r c = keyOffAt t c).
      { unfold keyOffAt, r. cbn [memory keys Data].
        unfold load_i64. do 2 f_equal.
        match goal with |- load_bytes _ ?a _ = _ =>
          replace a with (16 + (Data (keys t) + 8 * c)) by lia end.
        apply load_bytes_shift. intros x Hx. apply Hm. nia. }
      rewrite Ek. rewrite (getKey_valid t _ kc ltac:(lia) K2).
      apply getKey_valid; [unfold r; cbn [keyData Len]; lia|].
      destruct K2 as (V1 & V2 & V3).
      unfold valid_record, r. cbn [memory keyData Data Len].
      split; [assumption|]. split; [lia|].
      etransitivity; [|exact V3].
      match goal with |- load_bytes _ ?a _ = _ =>
        replace a with (16 + (Data (keyData t) + keyOffAt t c)) by lia end.
      apply load_bytes_shift. intros x Hx. apply Hm. lia.
Qed.

Lemma mapping_GetPtr (t : table) (m' : mem) (key : string) :
  Inv H t -> laid_out t ->
  (forall x, 0 <= x < 16 + length t -> m' x = mem_of_bytes (snd (WriteTo t [])) x) ->
  let r := tbl (newFromData m' (16 + length t)) in
  GetPtr H (Some r) key =
    match GetPtr H (Some t) key with
    | Ret (Some p, b) => Ret (Some (16 + p), b)
    | other => other
    end /\
  forall p, GetPtr H (Some t) key = Ret (Some p, true) ->
            value_bytes r (16 + p) = value_bytes t p.
Proof.
  intros I L Hm'.
  destruct (view_of_mapping t m' I L Hm') as (Rvs & Rv & Rvl & Rm & Rf).
  set (r := tbl (newFromData m' (16 + length t))) in *. cbv zeta.
  split.
  - cbn [GetPtr]. rewrite Rf.
    destruct (find t key (hash (H key))) as [[c [|]]|q]; cbn [bind]; try reflexivity.
    rewrite Rvs. unfold elem_addr. rewrite Rvl, Rv.
    destruct ((0 <=? wrap64 (c * valueSize t)) && (wrap64 (c * valueSize t) <? Len (values t)));
      cbn [bind]; [|reflexivity].
    do 3 f_equal. lia.
  - intros p G.
    destruct (GetPtr_inv H t key p I G) as (c & Hc & _ & -> & Hvs).
    pose proof I as [In Ivs Ihl Ikl Ivl Ihp Ihk Ikv Ivd Ism Iko Isl].
    destruct L as (La & Lh & Lk & Lv & Ld & Ll).
    destruct (slot_inside (numItems t) (valueSize t) c Ivs Hc) as [S1 S2].
    unfold value_bytes. rewrite Rvs.
    apply (load_bytes_shift (memory t)).
    intros x Hx. apply Rm. unfold value_addr in Hx. lia.
Qed.

Variable kernel : list call -> call -> Z * Z.
Variable peek : list call -> Z -> Z.

(** X23.  Writing a file and opening it with [NewFrom].  When the file
    holds the bytes [WriteTo] produced for a builder with adequate size
    parameters, and the calls to open it, to find its length, to map it and
    to lock it succeed, [NewFrom] returns a view on the mapping and no
    error, having made these four calls, and [GetPtr] gives in the view what
    it gives in the builder, the pointer being 16 bytes further from the
    start of the mapping than it is from the start of the arena. *)
Theorem NewFrom_after_WriteTo
    (n vs tkl : Z) (heap : mem) (kvs : list (string * list Z))
    (past : list call) (name : string) (fd ptr : Z) :
  adequate n vs tkl kvs ->
  exists t file, build H n vs tkl heap kvs = Ret t /\
    WriteTo t [] = (16 + length t, file) /\
    let len := Z.of_nat (List.length file) in
    let c1 := os_Open name in
    let c2 := File_Seek fd 0 io_SeekEnd in
    let c3 := SYS_MMAP 0 len PROT_READ (Z.lor MAP_FILE MAP_PRIVATE) fd 0 in
    let c4 := SYS_MLOCK ptr len in
    let past4 := (((past ++ [c1]) ++ [c2]) ++ [c3]) ++ [c4] in
    kernel past c1 = (fd, 0) ->
    kernel (past ++ [c1]) c2 = (len, 0) ->
    kernel ((past ++ [c1]) ++ [c2]) c3 = (ptr, 0) ->
    snd (kernel (((past ++ [c1]) ++ [c2]) ++ [c3]) c4) = 0 ->
    (forall a, 0 <= a < len -> peek past4 (ptr + a) = nth (Z.to_nat a) file 0) ->
    exists r, NewFrom kernel peek past name = ((Some r, None), past4) /\
      data r = ptr /\ dataLength (read r) = len /\
      forall key,
        GetPtr H (Some (tbl (read r))) key =
          match GetPtr H (Some t) key with
          | Ret (Some p, b) => Ret (Some (16 + p), b)
          | other => other
          end /\
        forall p, GetPtr H (Some t) key = Ret (Some p, true) ->
                  value_bytes (tbl (read r)) (16 + p) = value_bytes t p.
Proof.
  intros A.
  destruct (build_ok H n vs tkl heap kvs A) as (t & E & B & L & _).
  pose proof (built_inv H t kvs B) as I.
  destruct (view_of_builder H t I L) as (W1 & W2 & _).
  exists t, (snd (WriteTo t [])). split; [exact E|].
  split; [rewrite <- W1; now destruct (WriteTo t [])|].
  cbv zeta. rewrite W2.
  intros K1 K2 K3 K4 Hpeek.
  pose proof I as [In Ivs Ihl Ikl Ivl Ihp Ihk Ikv Ivd Ism Iko Isl].
  pose proof L as (_ & _ & _ & _ & _ & Ll).
  assert (Hv : 0 <= Len (values t)) by (rewrite Ivl; nia).
  assert (Hu : to_uint64 (16 + length t) = 16 + length t).
  { apply to_uint64_small. change (2 ^ 64) with (4 * 2 ^ 62). lia. }
  eexists. split.
  - unfold NewFrom, sys. rewrite K1. cbn [Z.eqb negb]. rewrite K2. cbn [Z.eqb negb].
    unfold mapMemory, sys. rewrite Hu, K3. cbn [Z.eqb negb].
    destruct (kernel (((past ++ [os_Open name]) ++ [File_Seek fd 0 io_SeekEnd]) ++
                      [SYS_MMAP 0 (16 + length t) PROT_READ (Z.lor MAP_FILE MAP_PRIVATE) fd 0])
                     (SYS_MLOCK ptr (16 + length t))) as [v errno].
    cbn [snd] in K4. subst errno. cbn [Z.eqb negb]. reflexivity.
  - cbn [data read dataLength newFromData]. split; [reflexivity|]. split; [reflexivity|].
    intros key. cbn [tbl].
    apply (mapping_GetPtr t _ key I L).
    intros x Hx. rewrite Hpeek by lia. unfold mem_of_bytes.
    destruct (Z.ltb_spec x 0); [lia|]. reflexivity.
Qed.

End Mapping.


(** ** The package [table] *)

Lemma addKey_fields (t t' : table) (key : string) (o : Z) :
  addKey t key = Ret (o, t') ->
  length t' = length t /\ numItems t' = numItems t /\ valueSize t' = valueSize t /\
  values t' = values t /\ keys t' = keys t.
Proof.
  unfold addKey.
  destruct (slice_from (keyData t) (keyOffset t)) as [b|p]; cbn [bind]; [|discriminate].
  destruct (PutVarint (memory t) b (Z.of_nat (String.length key))) as [[n m]|p];
    cbn [bind]; [|discriminate].
  destruct (slice_from _ _) as [b'|p]; cbn [bind]; [|discriminate].
  intros E.
  apply (f_equal (fun r => match r with
                           | Ret (_, u) => (length u, numItems u, valueSize u, values u, keys u)
                           | Panic _ => (0, 0, 0, values t, keys t)
                           end)) in E.
  cbn [with_keyOffset with_memory length numItems valueSize values keys] in E.
  injection E as E1 E2 E3 E4 E5. repeat split; congruence.
Qed.

Lemma TablePkg_New_fields (n vs tkl : Z) (heap : mem) (t0 : table) :
  TablePkg.New n vs tkl heap = Ret t0 ->
  length t0 = 0 /\ numItems t0 = New_numItems n /\ valueSize t0 = vs.
Proof.
  unfold TablePkg.New.
  destruct (make_int64 heap _) as [[a m]|p]; cbn [bind].
  - intros E.
    apply (f_equal (fun r => match r with
                             | Ret u => (length u, numItems u, valueSize u)
                             | Panic _ => (0, 0, 0)
                             end)) in E.
    cbn [length numItems valueSize] in E. injection E as E1 E2 E3.
    repeat split; congruence.
  - discriminate.
Qed.

Section TablePkgProperties.

Variable H : string -> Z.

Lemma TablePkg_Set_fields (t t' : table) (out out' : list (Z * Z * Z))
    (k : string) (v : list Z) :
  TablePkg.Set_ H t out k v = Ret (t', out') ->
  length t' = length t /\ numItems t' = numItems t /\ valueSize t' = valueSize t /\
  List.length out' = S (List.length out).
Proof.
  unfold TablePkg.Set_.
  destruct (find t k (hash (H k))) as [[i b]|p]; cbn [bind]; [|discriminate].
  assert (G : forall t1 : table,
    length t1 = length t /\ numItems t1 = numItems t /\ valueSize t1 = valueSize t ->
    (dst <- slice_from (values t1) (wrap64 (i * valueSize t1)) ;;
     Ret (with_memory t1 (copy (memory t1) dst
                                (load_bytes (mem_of_bytes v) 0 (valueSize t1))),
          out ++ [(Len (values t1), i, valueSize t1)])) = Ret (t', out') ->
    length t' = length t /\ numItems t' = numItems t /\ valueSize t' = valueSize t /\
    List.length out' = S (List.length out)).
  { intros t1 (F1 & F2 & F3).
    destruct (slice_from (values t1) _) as [dst|p]; cbn [bind]; [|discriminate].
    intros E.
    apply (f_equal (fun r => match r with
                             | Ret (u, o) => (length u, numItems u, valueSize u, List.length o)
                             | Panic _ => (0, 0, 0, O)
                             end)) in E.
    cbn [with_memory length numItems valueSize] in E.
    rewrite length_app in E. cbn [List.length] in E.
    injection E as E1 E2 E3 E4. repeat split; try congruence. lia. }
  destruct b; cbn [bind].
  - apply G. repeat split.
  - destruct (elem_addr (hashes t) 4 i) as [a|p]; cbn [bind]; [|discriminate].
    destruct (addKey _ k) as [[ko t1]|p] eqn:Ea; cbn [bind]; [|discriminate].
    apply addKey_fields in Ea.
    cbn [with_memory length numItems valueSize values keys] in Ea.
    destruct Ea as (A1 & A2 & A3 & _).
    destruct (elem_addr (keys t1) 8 i) as [a'|p]; cbn [bind]; [|discriminate].
    apply G. cbn [with_memory length numItems valueSize]. repeat split; assumption.
Qed.

Lemma TablePkg_SetAll_fields (kvs : list (string * list Z)) :
  forall (t t' : table) (out out' : list (Z * Z * Z)),
  TablePkg.SetAll H t out kvs = Ret (t', out') ->
  length t' = length t /\ numItems t' = numItems t /\ valueSize t' = valueSize t /\
  List.length out' = (List.length out + List.length kvs)%nat.
Proof.
  induction kvs as [|[k v] l IH]; intros t t' out out'; cbn [TablePkg.SetAll].
  - intros E. injection E as <- <-. cbn [List.length]. repeat split. lia.
  - destruct (TablePkg.Set_ H t out k v) as [[t1 out1]|p] eqn:E1; cbn [bind];
      [|discriminate].
    intros E. apply TablePkg_Set_fields in E1. apply IH in E.
    cbn [List.length]. destruct E1 as (A1 & A2 & A3 & A4).
    destruct E as (B1 & B2 & B3 & B4). repeat split; try congruence. lia.
Qed.

(** X24.  In the package [table], [New] leaves the field [length] at 0 and
    nothing sets it later: whatever was set in the table, [WriteTo] writes
    the 16 bytes of the header and not one byte of the arena.  ([Set]
    prints a line at each call.) *)
Theorem TablePkg_WriteTo_header_only
    (n vs tkl self : Z) (heap : mem) (kvs : list (string * list Z))
    (t0 t : table) (out : list (Z * Z * Z)) :
  TablePkg.New n vs tkl heap = Ret t0 ->
  TablePkg.SetAll H t0 [] kvs = Ret (t, out) ->
  TablePkg.WriteTo self t []
  = (16, le_encode 8 (New_numItems n) ++ le_encode 8 vs) /\
  List.length out = List.length kvs.
Proof.
  intros E0 E.
  pose proof (TablePkg_New_fields n vs tkl heap t0 E0) as F0.
  destruct F0 as (F1 & F2 & F3).
  destruct (TablePkg_SetAll_fields kvs t0 t [] out E) as (G1 & G2 & G3 & G4).
  split; [|exact G4].
  unfold TablePkg.WriteTo. rewrite G1, F1, G2, F2, G3, F3.
  cbn [app]. rewrite length_app, !length_le_encode.
  change (load_bytes (memory t) self 0) with (@nil Z).
  rewrite app_nil_r. reflexivity.
Qed.

End TablePkgProperties.


(** ** A table filled to capacity *)

Section Capacity.

Variable H : string -> Z.

(** When as many different keys are set as the table has slots, every slot
    is occupied, by one of the keys. *)
Lemma Built_full (t : table) (kvs : list (string * list Z)) :
  Built H t kvs ->
  NoDup (map fst kvs) ->
  Z.of_nat (List.length kvs) = numItems t ->
  Forall (fun kv => hash (H (fst kv)) <> 0) kvs ->
  forall j, 0 <= j < numItems t ->
    exists k, In k (map fst kvs) /\ find t k (hash (H k)) = Ret (j, true).
Proof.
  intros B Hnd Hlen Hnz.
  pose proof (built_inv H t kvs B) as I. pose proof (Inv_WF H t I) as W.
  set (f := fun k => match find t k (hash (H k)) with
                     | Ret (i, _) => i
                     | Panic _ => -1
                     end).
  assert (Hf : forall k, In k (map fst kvs) -> find t k (hash (H k)) = Ret (f k, true)).
  { intros k Hin. destruct (model_of_Some kvs k Hin) as (v & Hm).
    assert (Hk : hash (H k) <> 0).
    { rewrite Forall_forall in Hnz. apply in_map_iff in Hin.
      destruct Hin as ([k' v'] & <- & Hin). exact (Hnz _ Hin). }
    destruct (built_get H t kvs B k v Hm Hk) as (i & Ef & _).
    unfold f. rewrite Ef. reflexivity. }
  assert (Nl : NoDup (map f (map fst kvs))).
  { apply NoDup_map_NoDup_ForallPairs; [|exact Hnd].
    intros a b Ha Hb Eab.
    apply (find_same_slot H t a b (f a) I (Hf a Ha)). rewrite Eab. exact (Hf b Hb). }
  assert (Il : incl (map f (map fst kvs)) (slots t)).
  { intros x Hx. apply in_map_iff in Hx. destruct Hx as (k & <- & Hin).
    apply In_slots.
    exact (proj1 (find_sound t k _ (f k) true W (proj1 (hash_range _)) (Hf k Hin))). }
  assert (Ls : (List.length (slots t) <= List.length (map f (map fst kvs)))%nat).
  { rewrite !length_map. pose proof (length_slots t ltac:(lia)). lia. }
  pose proof (NoDup_length_incl Nl Ls Il) as Is.
  intros j Hj. specialize (Is j (proj2 (In_slots t j) Hj)).
  apply in_map_iff in Is. destruct Is as (k & <- & Hin).
  exists k. split; [exact Hin|exact (Hf k Hin)].
Qed.

(** X25.  A table can be filled to capacity, when the requested item
    count is a power of two: after as many different keys are set as the
    table has slots (none of them with hash 0), no slot is left, and
    [GetPtr] and [Set_] panic with "out of space" for every other key. *)
Theorem filled_to_capacity_panics
    (n vs tkl : Z) (heap : mem) (kvs : list (string * list Z)) :
  adequate n vs tkl kvs ->
  NoDup (map fst kvs) ->
  Z.of_nat (List.length kvs) = New_numItems n ->
  Forall (fun kv => hash (H (fst kv)) <> 0) kvs ->
  exists t, build H n vs tkl heap kvs = Ret t /\
    Z.of_nat (List.length kvs) = Cap t /\
    forall key, ~ In key (map fst kvs) ->
      GetPtr H (Some t) key = Panic OutOfSpace /\
      forall val, Set_ H t key val = Panic OutOfSpace.
Proof.
  intros A Hnd Hlen Hnz.
  destruct (build_ok H n vs tkl heap kvs A) as (t & E & B & _ & En & _ & Ec & _).
  exists t. split; [exact E|]. split; [congruence|].
  pose proof (built_inv H t kvs B) as I. pose proof (Inv_WF H t I) as W.
  pose proof (Built_full t kvs B Hnd ltac:(congruence) Hnz) as Full.
  intros key Hkey.
  assert (F : find t key (hash (H key)) = Panic OutOfSpace).
  { apply full_table_find_panics; [exact W| |].
    - intros j Hj. destruct (Full j Hj) as (k & _ & Ef).
      destruct (find_sound t k _ j true W (proj1 (hash_range _)) Ef) as (_ & Ht & _).
      exact (proj1 (Ht eq_refl)).
    - intros j Hj [_ V]. destruct (Full j Hj) as (k & Hin & Ef).
      destruct (find_sound t k _ j true W (proj1 (hash_range _)) Ef) as (_ & Ht & _).
      destruct (Ht eq_refl) as (_ & _ & Vk).
      apply Hkey. rewrite (valid_record_inj t _ key k (wf_keyData t W) V Vk). exact Hin. }
  split.
  - now apply GetPtr_panic.
  - intros val. unfold Set_. rewrite F. reflexivity.
Qed.

End Capacity.


(** * The further properties on concrete tables *)

(** ** The layout calculator *)

(** [roundUp(11, 4)], of the tests. *)
Lemma roundUp_power_of_two_witness :
  0 <= 2 < 62 /\ - 2 ^ 62 <= 11 < 2 ^ 62 /\
  Layout.roundUp 11 (2 ^ 2) mod 2 ^ 2 = 0 /\
  11 <= Layout.roundUp 11 (2 ^ 2) < 11 + 2 ^ 2 /\
  (11 mod 2 ^ 2 = 0 -> Layout.roundUp 11 (2 ^ 2) = 11).
Proof.
  assert (A : 0 <= 2 < 62) by lia.
  assert (B : - 2 ^ 62 <= 11 < 2 ^ 62) by lia.
  split; [exact A|]. split; [exact B|].
  exact (roundUp_power_of_two 11 2 A B).
Defined.

(** The layout of the test 'bigger'. *)
Lemma offsets_sections_witness :
  0 <= 5 /\ 0 <= 17 /\ 0 <= 40 /\ 24 + (16 + 17) * 5 + 40 < 2 ^ 62 /\
  Layout.o_keys (Layout.offsets 5 17 40) mod 8 = 0 /\
  Layout.o_values (Layout.offsets 5 17 40) = Layout.o_keys (Layout.offsets 5 17 40) + 8 * 5 /\
  Layout.o_keyData (Layout.offsets 5 17 40)
  = Layout.o_values (Layout.offsets 5 17 40) + 17 * 5 /\
  Layout.o_length (Layout.offsets 5 17 40)
  = Layout.o_keyData (Layout.offsets 5 17 40) + 40 + 4 * 5.
Proof.
  assert (A : 0 <= 5) by lia. assert (B : 0 <= 17) by lia. assert (C : 0 <= 40) by lia.
  assert (D : 24 + (16 + 17) * 5 + 40 < 2 ^ 62) by lia.
  split; [exact A|]. split; [exact B|]. split; [exact C|]. split; [exact D|].
  destruct (offsets_sections 5 17 40 A B C D) as (_ & _ & O3 & O4 & _ & O6 & O7 & _).
  split; [exact O3|]. split; [exact O4|]. split; [exact O6|]. exact O7.
Defined.

(** ** The key records *)

Lemma addKey_getKey_witness :
  0 <= keyOffset fresh_builder /\
  keyOffset fresh_builder + Z.of_nat (List.length (key_record "aaa"))
  <= Len (keyData fresh_builder) /\
  Len (keyData fresh_builder) < 2 ^ 62 /\
  exists t', addKey fresh_builder "aaa" = Ret (keyOffset fresh_builder, t') /\
             getKey t' (keyOffset fresh_builder) = Ret "aaa"%string.
Proof.
  assert (A : 0 <= keyOffset fresh_builder) by by_computation.
  assert (B : keyOffset fresh_builder + Z.of_nat (List.length (key_record "aaa"))
              <= Len (keyData fresh_builder)) by by_computation.
  assert (C : Len (keyData fresh_builder) < 2 ^ 62) by by_computation.
  split; [exact A|]. split; [exact B|]. split; [exact C|].
  destruct (addKey_getKey fresh_builder "aaa" A B C) as (t' & E & G & _).
  exists t'. split; [exact E|exact G].
Defined.

Lemma addKey_advance_witness :
  0 <= keyOffset fresh_builder /\ Len (keyData fresh_builder) < 2 ^ 62 /\
  Z.of_nat (String.length "aaa") < 2 ^ 62 /\
  addKey fresh_builder "aaa" = Ret (0, key_added) /\
  keyOffset key_added = keyOffset fresh_builder + 1 + Z.of_nat (String.length "aaa").
Proof.
  assert (A : 0 <= keyOffset fresh_builder) by by_computation.
  assert (B : Len (keyData fresh_builder) < 2 ^ 62) by by_computation.
  assert (C : Z.of_nat (String.length "aaa") < 2 ^ 62) by by_computation.
  assert (E : addKey fresh_builder "aaa" = Ret (0, key_added)) by (vm_compute; reflexivity).
  split; [exact A|]. split; [exact B|]. split; [exact C|]. split; [exact E|].
  destruct (addKey_advance fresh_builder key_added "aaa" 0 A B C E) as (_ & _ & S & _).
  apply S. by_computation.
Defined.

(** A key of eight bytes in a key-data slice of five. *)
Lemma addKey_truncates_witness :
  0 <= keyOffset tiny_builder /\ Len (keyData tiny_builder) < 2 ^ 62 /\
  Z.of_nat (String.length "abcdefgh") < 2 ^ 62 /\
  keyOffset tiny_builder
  + Z.of_nat (List.length (uvarint_bytes MaxVarintLen64
                             (2 * Z.of_nat (String.length "abcdefgh"))))
  <= Len (keyData tiny_builder)
  < keyOffset tiny_builder
    + Z.of_nat (List.length (uvarint_bytes MaxVarintLen64
                               (2 * Z.of_nat (String.length "abcdefgh"))))
    + Z.of_nat (String.length "abcdefgh") /\
  exists t', addKey tiny_builder "abcdefgh" = Ret (keyOffset tiny_builder, t') /\
    Len (keyData t') < keyOffset t' /\
    getKey t' (keyOffset tiny_builder) = Panic IndexOutOfRange.
Proof.
  assert (A : 0 <= keyOffset tiny_builder) by by_computation.
  assert (B : Len (keyData tiny_builder) < 2 ^ 62) by by_computation.
  assert (C : Z.of_nat (String.length "abcdefgh") < 2 ^ 62) by by_computation.
  assert (D : keyOffset tiny_builder
    + Z.of_nat (List.length (uvarint_bytes MaxVarintLen64
                               (2 * Z.of_nat (String.length "abcdefgh"))))
    <= Len (keyData tiny_builder)
    < keyOffset tiny_builder
      + Z.of_nat (List.length (uvarint_bytes MaxVarintLen64
                                 (2 * Z.of_nat (String.length "abcdefgh"))))
      + Z.of_nat (String.length "abcdefgh")) by by_computation.
  split; [exact A|]. split; [exact B|]. split; [exact C|]. split; [exact D|].
  destruct (addKey_truncates tiny_builder "abcdefgh" A B C D)
    as (t' & E & _ & _ & L & _ & G & _).
  exists t'. split; [exact E|]. split; [exact L|exact G].
Defined.

(** ** The table *)

Lemma full_check_sound (t : table) :
  forallb (fun i => negb (hashAt t i =? 0)) (slots t) = true ->
  forall j, 0 <= j < numItems t -> hashAt t j <> 0.
Proof.
  intros F j Hj. rewrite forallb_forall in F.
  specialize (F j (proj2 (In_slots t j) Hj)). cbv beta in F.
  destruct (Z.eqb_spec (hashAt t j) 0); [discriminate|assumption].
Qed.


Lemma GetPtr_values_disjoint_witness :
  Inv fnv1a tests_builder /\ "aaa"%string <> "aab"%string /\
  GetPtr fnv1a (Some tests_builder) "aaa" = Ret (Some 128, true) /\
  GetPtr fnv1a (Some tests_builder) "aab" = Ret (Some 168, true) /\
  (128 + valueSize tests_builder <= 168 \/ 168 + valueSize tests_builder <= 128).
Proof.
  assert (I : Inv fnv1a tests_builder) by (apply inv_check_sound; vm_compute; reflexivity).
  assert (N : "aaa"%string <> "aab"%string) by discriminate.
  assert (E1 : GetPtr fnv1a (Some tests_builder) "aaa" = Ret (Some 128, true))
    by (vm_compute; reflexivity).
  assert (E2 : GetPtr fnv1a (Some tests_builder) "aab" = Ret (Some 168, true))
    by (vm_compute; reflexivity).
  split; [exact I|]. split; [exact N|]. split; [exact E1|]. split; [exact E2|].
  exact (proj1 (GetPtr_values_disjoint fnv1a tests_builder "aaa" "aab" 128 168 I N E1 E2)).
Defined.

(** The builder filled with eight keys takes no ninth. *)
Lemma full_table_new_key_panics_witness :
  WF full_builder /\
  (forall j, 0 <= j < numItems full_builder -> hashAt full_builder j <> 0) /\
  (forall i, 0 <= i < numItems full_builder -> ~ slot_holds full_builder i "zzz") /\
  Set_ fnv1a full_builder "zzz" (int_bytes 9) = Panic OutOfSpace /\
  GetPtr fnv1a (Some full_builder) "zzz" = Panic OutOfSpace.
Proof.
  assert (W : WF full_builder) by (apply wf_check_sound; vm_compute; reflexivity).
  assert (F : forall j, 0 <= j < numItems full_builder -> hashAt full_builder j <> 0)
    by (apply full_check_sound; vm_compute; reflexivity).
  assert (A : forall i, 0 <= i < numItems full_builder -> ~ slot_holds full_builder i "zzz")
    by (apply absent_check_sound; vm_compute; reflexivity).
  split; [exact W|]. split; [exact F|]. split; [exact A|].
  exact (full_table_new_key_panics fnv1a full_builder "zzz" (int_bytes 9) W F A).
Defined.

Lemma New_table_is_empty_witness :
  sized 7 8 21 /\
  exists t, New 7 8 21 stale_heap = Ret t /\ Cap t = New_numItems 7 /\
            forall key, GetPtr fnv1a (Some t) key = Ret (None, false).
Proof.
  assert (S : sized 7 8 21) by check_adequate.
  split; [exact S|]. exact (New_table_is_empty fnv1a 7 8 21 stale_heap S).
Defined.


(** ** [Set_] *)

(** "aab" is set once more in the builder of the tests: "aaa" stays where
    it was. *)
Lemma Set_keeps_other_keys_witness :
  Inv fnv1a tests_builder /\
  (forall j, find tests_builder "aab" (hash (fnv1a "aab")) = Ret (j, false) ->
             keyOffset tests_builder + Z.of_nat (List.length (key_record "aab"))
             <= Len (keyData tests_builder)) /\
  Set_ fnv1a tests_builder "aab" (int_bytes 42) = Ret tests_overwritten /\
  "aaa"%string <> "aab"%string /\
  GetPtr fnv1a (Some tests_overwritten) "aaa" = Ret (Some 128, true) /\
  value_bytes tests_overwritten 128 = value_bytes tests_builder 128.
Proof.
  assert (I : Inv fnv1a tests_builder) by (apply inv_check_sound; vm_compute; reflexivity).
  assert (R : forall j, find tests_builder "aab" (hash (fnv1a "aab")) = Ret (j, false) ->
             keyOffset tests_builder + Z.of_nat (List.length (key_record "aab"))
             <= Len (keyData tests_builder)).
  { assert (F : find tests_builder "aab" (hash (fnv1a "aab")) = Ret (7, true))
      by (vm_compute; reflexivity).
    intros j E. rewrite F in E. discriminate E. }
  assert (E : Set_ fnv1a tests_builder "aab" (int_bytes 42) = Ret tests_overwritten)
    by (vm_compute; reflexivity).
  assert (N : "aaa"%string <> "aab"%string) by discriminate.
  split; [exact I|]. split; [exact R|]. split; [exact E|]. split; [exact N|].
  apply (proj1 (Set_keeps_other_keys fnv1a tests_builder tests_overwritten "aab"
                  (int_bytes 42) I R E "aaa" N)).
  vm_compute; reflexivity.
Defined.

(** "aah" is not in the builder of the tests: it goes to the free slot 5. *)
Lemma Set_absent_key_frame_witness :
  Inv fnv1a tests_builder /\
  find tests_builder "aah" (hash (fnv1a "aah")) = Ret (5, false) /\
  keyOffset tests_builder + Z.of_nat (List.length (key_record "aah"))
  <= Len (keyData tests_builder) /\
  exists t', Set_ fnv1a tests_builder "aah" (int_bytes 0) = Ret t' /\
    keyOffset t' = keyOffset tests_builder + Z.of_nat (List.length (key_record "aah")) /\
    hashAt t' 5 = hash (fnv1a "aah") /\
    find t' "aah" (hash (fnv1a "aah")) = Ret (5, true).
Proof.
  assert (I : Inv fnv1a tests_builder) by (apply inv_check_sound; vm_compute; reflexivity).
  assert (E : find tests_builder "aah" (hash (fnv1a "aah")) = Ret (5, false))
    by (vm_compute; reflexivity).
  assert (R : keyOffset tests_builder + Z.of_nat (List.length (key_record "aah"))
              <= Len (keyData tests_builder)) by by_evaluation.
  split; [exact I|]. split; [exact E|]. split; [exact R|].
  destruct (Set_absent_key_frame fnv1a tests_builder "aah" (int_bytes 0) 5 I E R)
    as (t' & E' & _ & K & Hh & _ & F & _).
  exists t'. split; [exact E'|]. split; [exact K|]. split; [exact Hh|].
  apply F. by_evaluation.
Defined.

(** Eight keys in a builder asked for eight items. *)
Lemma filled_to_capacity_panics_witness :
  adequate 8 8 24 eight_calls /\ NoDup (map fst eight_calls) /\
  Z.of_nat (List.length eight_calls) = New_numItems 8 /\
  Forall (fun kv => hash (fnv1a (fst kv)) <> 0) eight_calls /\
  exists t, build fnv1a 8 8 24 stale_heap eight_calls = Ret t /\
            GetPtr fnv1a (Some t) "zzz" = Panic OutOfSpace.
Proof.
  assert (A : adequate 8 8 24 eight_calls) by check_adequate.
  assert (B : NoDup (map fst eight_calls)).
  { cbn [eight_calls tests app map fst].
    repeat (constructor; [cbn [In]; intuition discriminate|]). constructor. }
  assert (C : Z.of_nat (List.length eight_calls) = New_numItems 8) by by_evaluation.
  assert (D : Forall (fun kv => hash (fnv1a (fst kv)) <> 0) eight_calls).
  { unfold eight_calls, tests. cbn [app].
    repeat (constructor; [cbn [fst]; by_evaluation|]). constructor. }
  split; [exact A|]. split; [exact B|]. split; [exact C|]. split; [exact D|].
  destruct (filled_to_capacity_panics fnv1a 8 8 24 stale_heap eight_calls A B C D)
    as (t & E & _ & G).
  exists t. split; [exact E|]. apply G.
  cbn [eight_calls tests app map fst In]. intuition discriminate.
Defined.

(** ** Degenerate sizes *)

Lemma New_no_items_witness :
  - 2 ^ 63 < 0 <= 0 /\ 0 <= 0 <= maxAlloc - 24 /\
  exists t, New 0 8 0 stale_heap = Ret t /\ Cap t = 0 /\
    forall key val,
      Set_ fnv1a t key val = Panic IndexOutOfRange /\
      GetPtr fnv1a (Some t) key = Panic IndexOutOfRange.
Proof.
  assert (A : - 2 ^ 63 < 0 <= 0) by lia.
  assert (B : 0 <= 0 <= maxAlloc - 24) by (unfold maxAlloc; lia).
  split; [exact A|]. split; [exact B|].
  exact (New_no_items fnv1a 0 8 0 stale_heap A B).
Defined.

Lemma GetPtr_valueSize_zero_witness :
  sized 7 0 21 /\ Z.of_nat (List.length tests) <= 7 /\ total_key_length tests <= 21 /\
  Forall (fun kv => Z.of_nat (String.length (fst kv)) < 2 ^ 27) tests /\
  exists t, build fnv1a 7 0 21 stale_heap tests = Ret t /\
            GetPtr fnv1a (Some t) "aaa" = Panic IndexOutOfRange.
Proof.
  assert (S : sized 7 0 21) by check_adequate.
  assert (A : Z.of_nat (List.length tests) <= 7) by by_evaluation.
  assert (B : total_key_length tests <= 21) by by_evaluation.
  assert (C : Forall (fun kv => Z.of_nat (String.length (fst kv)) < 2 ^ 27) tests)
    by (repeat constructor).
  split; [exact S|]. split; [exact A|]. split; [exact B|]. split; [exact C|].
  destruct (GetPtr_valueSize_zero fnv1a 7 21 stale_heap tests S A B C) as (t & E & _ & G).
  exists t. split; [exact E|]. apply G.
  - cbn. left. reflexivity.
  - by_evaluation.
Defined.

(** ** The view *)

Lemma view_reads_as_builder_witness :
  adequate 7 8 21 tests /\
  exists t f, build fnv1a 7 8 21 stale_heap tests = Ret t /\
    WriteTo t [] = (16 + length t, f) /\
    forall key,
      GetPtr fnv1a (Some (tbl (NewFromBytes f))) key =
        match GetPtr fnv1a (Some t) key with
        | Ret (Some p, b) => Ret (Some (16 + p), b)
        | other => other
        end /\
      forall p, GetPtr fnv1a (Some t) key = Ret (Some p, true) ->
                value_bytes (tbl (NewFromBytes f)) (16 + p) = value_bytes t p.
Proof.
  assert (A : adequate 7 8 21 tests) by check_adequate.
  split; [exact A|].
  exact (view_reads_as_builder fnv1a 7 8 21 stale_heap tests A).
Defined.

Lemma GetPtr_aligned_witness :
  adequate 7 8 21 tests /\ (8 | 8) /\
  exists t f, build fnv1a 7 8 21 stale_heap tests = Ret t /\
    WriteTo t [] = (16 + length t, f) /\
    (forall key p, GetPtr fnv1a (Some t) key = Ret (Some p, true) -> (8 | p)) /\
    (forall key p, GetPtr fnv1a (Some (tbl (NewFromBytes f))) key = Ret (Some p, true) ->
                   (8 | p)).
Proof.
  assert (A : adequate 7 8 21 tests) by check_adequate.
  assert (B : (8 | 8)) by (exists 1; reflexivity).
  split; [exact A|]. split; [exact B|].
  exact (GetPtr_aligned fnv1a 7 8 21 8 stale_heap tests A B B).
Defined.

(** The file of the tests has 245 bytes; the key-data slice of its view
    ends at 261. *)
Lemma view_keyData_past_end_witness :
  0 <= load_i64 (mem_of_bytes tests_file) 0 /\
  0 <= load_i64 (mem_of_bytes tests_file) 8 /\
  24 + (16 + load_i64 (mem_of_bytes tests_file) 8) * load_i64 (mem_of_bytes tests_file) 0
  < 2 ^ 62 /\
  16 <= Z.of_nat (List.length tests_file) < 2 ^ 62 /\
  Data (keyData (tbl (NewFromBytes tests_file)))
  + Len (keyData (tbl (NewFromBytes tests_file)))
  = Z.of_nat (List.length tests_file) + 16.
Proof.
  assert (A : 0 <= load_i64 (mem_of_bytes tests_file) 0) by by_evaluation.
  assert (B : 0 <= load_i64 (mem_of_bytes tests_file) 8) by by_evaluation.
  assert (C : 24 + (16 + load_i64 (mem_of_bytes tests_file) 8)
                   * load_i64 (mem_of_bytes tests_file) 0 < 2 ^ 62) by by_evaluation.
  assert (D : 16 <= Z.of_nat (List.length tests_file) < 2 ^ 62) by by_evaluation.
  split; [exact A|]. split; [exact B|]. split; [exact C|]. split; [exact D|].
  exact (proj1 (view_keyData_past_end tests_file A B C D)).
Defined.

(** ** The allocation of the arena *)

Lemma arena_not_overrun_witness :
  adequate 7 8 21 tests /\ 8 <= New_numItems 7 /\
  Forall (fun kv => Z.of_nat (String.length (fst kv)) < 64) tests /\
  build fnv1a 7 8 21 stale_heap tests = Ret tests_builder /\
  forall x, 8 * Len (arena tests_builder) <= x -> memory tests_builder x = stale_heap x.
Proof.
  assert (A : adequate 7 8 21 tests) by check_adequate.
  assert (B : 8 <= New_numItems 7) by by_evaluation.
  assert (C : Forall (fun kv => Z.of_nat (String.length (fst kv)) < 64) tests)
    by (repeat constructor).
  assert (E : build fnv1a 7 8 21 stale_heap tests = Ret tests_builder)
    by (vm_compute; reflexivity).
  split; [exact A|]. split; [exact B|]. split; [exact C|]. split; [exact E|].
  exact (arena_not_overrun fnv1a 7 8 21 stale_heap tests tests_builder A B C E).
Defined.

Lemma WriteTo_reads_past_arena_witness :
  adequate 7 8 21 tests /\
  exists t f, build fnv1a 7 8 21 stale_heap tests = Ret t /\
    WriteTo t [] = (16 + length t, f) /\
    Z.of_nat (List.length f) = 16 + length t /\
    length t - 14 <= 8 * Len (arena t) <= length t - 7 /\
    (8 <= New_numItems 7 ->
     Forall (fun kv => Z.of_nat (String.length (fst kv)) < 64) tests ->
     forall x, 8 * Len (arena t) <= x < length t ->
               nth (Z.to_nat (16 + x)) f 0 = stale_heap x).
Proof.
  assert (A : adequate 7 8 21 tests) by check_adequate.
  split; [exact A|].
  exact (WriteTo_reads_past_arena fnv1a 7 8 21 stale_heap tests A).
Defined.

(** [New(1, 8, 1)] and a key of one byte. *)
Lemma Set_overruns_one_slot_arena_witness :
  sized 1 8 1 /\ Z.of_nat (String.length "a") = 1 /\ 1 < 64 /\
  exists t0 t, New 1 8 1 stale_heap = Ret t0 /\
    Set_ fnv1a t0 "a" (int_bytes 7) = Ret t /\
    arena t = arena t0 /\
    forall i, 0 <= i -> 1 - 3 <= i <= 1 ->
      8 * Len (arena t0) <= Data (keyData t0) + i /\
      memory t (Data (keyData t0) + i) = nth (Z.to_nat i) (key_record "a") 0.
Proof.
  assert (S : sized 1 8 1) by check_adequate.
  assert (A : Z.of_nat (String.length "a") = 1) by reflexivity.
  assert (B : 1 < 64) by lia.
  split; [exact S|]. split; [exact A|]. split; [exact B|].
  exact (Set_overruns_one_slot_arena fnv1a 8 1 stale_heap "a" (int_bytes 7) S A B).
Defined.

(** ** Opening and closing a file *)

Lemma Close_NewFromBytes_unmaps_witness :
  4096 <> 0 /\ 16 <= Z.of_nat (List.length tests_file) /\
  snd (Close ok_kernel [] (NewFromBytes_at 4096 tests_file))
  = [] ++ [SYS_MUNMAP 4096 (Z.of_nat (List.length tests_file))].
Proof.
  assert (A : 4096 <> 0) by discriminate.
  assert (B : 16 <= Z.of_nat (List.length tests_file)) by by_evaluation.
  split; [exact A|]. split; [exact B|].
  exact (Close_NewFromBytes_unmaps ok_kernel [] 4096 tests_file A B).
Defined.

Lemma NewFrom_mlock_failure_witness :
  nolock_kernel [] (os_Open "f") = (3, 0) /\
  nolock_kernel ([] ++ [os_Open "f"]) (File_Seek 3 0 io_SeekEnd) = (245, 0) /\
  nolock_kernel (([] ++ [os_Open "f"]) ++ [File_Seek 3 0 io_SeekEnd])
    (SYS_MMAP 0 (to_uint64 245) PROT_READ (Z.lor MAP_FILE MAP_PRIVATE) 3 0) = (4096, 0) /\
  snd (nolock_kernel
         ((([] ++ [os_Open "f"]) ++ [File_Seek 3 0 io_SeekEnd]) ++
          [SYS_MMAP 0 (to_uint64 245) PROT_READ (Z.lor MAP_FILE MAP_PRIVATE) 3 0])
         (SYS_MLOCK 4096 (to_uint64 245))) = 12 /\
  12 <> 0 /\
  NewFrom nolock_kernel ok_peek [] "f"
  = ((None, Some 12),
     ((([] ++ [os_Open "f"]) ++ [File_Seek 3 0 io_SeekEnd]) ++
      [SYS_MMAP 0 (to_uint64 245) PROT_READ (Z.lor MAP_FILE MAP_PRIVATE) 3 0]) ++
     [SYS_MLOCK 4096 (to_uint64 245)]).
Proof.
  assert (K1 : nolock_kernel [] (os_Open "f") = (3, 0)) by reflexivity.
  assert (K2 : nolock_kernel ([] ++ [os_Open "f"]) (File_Seek 3 0 io_SeekEnd) = (245, 0))
    by (vm_compute; reflexivity).
  assert (K3 : nolock_kernel (([] ++ [os_Open "f"]) ++ [File_Seek 3 0 io_SeekEnd])
    (SYS_MMAP 0 (to_uint64 245) PROT_READ (Z.lor MAP_FILE MAP_PRIVATE) 3 0) = (4096, 0))
    by reflexivity.
  assert (K4 : snd (nolock_kernel
         ((([] ++ [os_Open "f"]) ++ [File_Seek 3 0 io_SeekEnd]) ++
          [SYS_MMAP 0 (to_uint64 245) PROT_READ (Z.lor MAP_FILE MAP_PRIVATE) 3 0])
         (SYS_MLOCK 4096 (to_uint64 245))) = 12) by reflexivity.
  assert (N : 12 <> 0) by discriminate.
  split; [exact K1|]. split; [exact K2|]. split; [exact K3|]. split; [exact K4|].
  split; [exact N|].
  exact (proj2 (NewFrom_mlock_failure nolock_kernel ok_peek [] "f" 3 245 4096 12
                  K1 K2 K3 K4 N)).
Defined.

(** The file of the tests, opened where every call succeeds. *)
Lemma NewFrom_after_WriteTo_witness :
  adequate 7 8 21 tests /\
  exists r,
    NewFrom ok_kernel ok_peek [] "f"
    = ((Some r, None),
       [os_Open "f"; File_Seek 3 0 io_SeekEnd;
        SYS_MMAP 0 (Z.of_nat (List.length tests_file)) PROT_READ
                 (Z.lor MAP_FILE MAP_PRIVATE) 3 0;
        SYS_MLOCK 4096 (Z.of_nat (List.length tests_file))]) /\
    data r = 4096 /\
    GetPtr fnv1a (Some (tbl (read r))) "aaa" = Ret (Some 144, true).
Proof.
  assert (A : adequate 7 8 21 tests) by check_adequate.
  split; [exact A|].
  destruct (NewFrom_after_WriteTo fnv1a ok_kernel ok_peek 7 8 21 stale_heap tests
              [] "f" 3 4096 A) as (t & file & E & W & K).
  assert (Et : t = tests_builder).
  { assert (E' : build fnv1a 7 8 21 stale_heap tests = Ret tests_builder)
      by (vm_compute; reflexivity).
    congruence. }
  subst t.
  assert (Ef : file = tests_file) by (unfold tests_file; rewrite W; reflexivity).
  subst file. cbv zeta in K.
  destruct K as (r & ER & Ed & _ & G).
  - reflexivity.
  - reflexivity.
  - reflexivity.
  - reflexivity.
  - intros a Ha. unfold ok_peek, mem_of_bytes.
    replace (4096 + a - 4096) with a by lia.
    destruct (Z.ltb_spec a 0); [lia|reflexivity].
  - exists r. split; [exact ER|]. split; [exact Ed|].
    destruct (G "aaa"%string) as [Eg _].
    assert (Eb : GetPtr fnv1a (Some tests_builder) "aaa" = Ret (Some 128, true))
      by (vm_compute; reflexivity).
    rewrite Eb in Eg. exact Eg.
Defined.

(** ** The package [table] *)

Lemma TablePkg_WriteTo_header_only_witness :
  TablePkg.New 7 8 21 stale_heap = Ret tablepkg_fresh /\
  TablePkg.SetAll fnv1a tablepkg_fresh [] tests = Ret (fst tablepkg_run, snd tablepkg_run) /\
  TablePkg.WriteTo 0 (fst tablepkg_run) []
  = (16, le_encode 8 (New_numItems 7) ++ le_encode 8 8) /\
  List.length (snd tablepkg_run) = List.length tests.
Proof.
  assert (E0 : TablePkg.New 7 8 21 stale_heap = Ret tablepkg_fresh)
    by (vm_compute; reflexivity).
  assert (E : TablePkg.SetAll fnv1a tablepkg_fresh [] tests
              = Ret (fst tablepkg_run, snd tablepkg_run)) by (vm_compute; reflexivity).
  split; [exact E0|]. split; [exact E|].
  exact (TablePkg_WriteTo_header_only fnv1a 7 8 21 0 stale_heap tests
           tablepkg_fresh (fst tablepkg_run) (snd tablepkg_run) E0 E).
Defined.
